(** * plotng: configuration store, job supervisor and sorted table

    A shallow embedding of the Go sources of plotng:

    - [PlotConfig.ProcessConfig] (the polled configuration file),
    - [ActivePlot] with [CheckSpace], [RunPlot] and [processLogs],
    - [widget.SortedTable] with its comparator, [sort.SliceStable],
      selection and [Redraw].

    Go values are modelled as follows.  A [string] is a sequence of bytes
    (Rocq's [string] of [ascii]); [len], indices and slice bounds are
    natural numbers; [int] fields that may hold any value are [Z];
    [uint64] arithmetic is [Z] reduced modulo [2^64]; a [nil] interface or
    pointer is [None].  A run-time panic is the [Panic] result. *)

From Stdlib Require Import ZArith List String Ascii Bool Arith Lia Permutation.
From Stdlib Require Import Sorted.
Import ListNotations.

Local Open Scope string_scope.
Local Open Scope list_scope.
Local Open Scope nat_scope.

(* ================================================================== *)
(** ** Results of Go code that may panic *)

(** [Panic] is a run-time panic of the program.  [OutOfFuel] belongs to
    the embedding alone: the loops of the sort carry a fuel, and
    [stable_returns] shows that it never runs out. *)

Inductive result (A : Type) : Type :=
| Ok (a : A)
| Panic (msg : string)
| OutOfFuel.

Arguments Ok {A} a.
Arguments Panic {A} msg.
Arguments OutOfFuel {A}.

Definition bind {A B : Type} (r : result A) (k : A -> result B) : result B :=
  match r with
  | Ok a => k a
  | Panic m => Panic m
  | OutOfFuel => OutOfFuel
  end.

Notation "x <- r ;; k" := (bind r (fun x => k))
  (at level 61, r at next level, right associativity).

Definition indexOutOfRange : string := "runtime error: index out of range".
Definition sliceOutOfRange : string :=
  "runtime error: slice bounds out of range".
Definition nilDereference : string :=
  "runtime error: invalid memory address or nil pointer dereference".

(* ================================================================== *)
(** ** time.Time *)

(** A [time.Time] is a struct; [==] and [!=] compare it field by field,
    [Before] compares the instants. *)
Record Time : Type := mkTime {
  sec : Z;    (* seconds of the instant *)
  nsec : Z;   (* nanoseconds within the second *)
  loc : Z     (* the *Location pointer, 0 for nil *)
}.

Definition Time_eqb (t u : Time) : bool :=
  (sec t =? sec u)%Z && (nsec t =? nsec u)%Z && (loc t =? loc u)%Z.

Definition Before (t u : Time) : bool :=
  (sec t <? sec u)%Z || ((sec t =? sec u)%Z && (nsec t <? nsec u)%Z).

(* ================================================================== *)
(** ** The configuration store *)

Module Cfg.

Record Config : Type := mkConfig {
  TargetDirectory : list string;
  TempDirectory : list string;
  NumberOfPlots : Z;
  Fingerprint : string
}.

(** [CurrentConfig] is a pointer: [None] until a document was loaded. *)
Record PlotConfig : Type := mkPlotConfig {
  ConfigPath : string;
  CurrentConfig : option Config;
  LastMod : Time
}.

(** What the file system answers during one call of [ProcessConfig]:
    [os.Lstat] (its [ModTime], or an error), [os.Open] (success or an
    error) and the JSON decoding of the content (a [Config], or an
    error). *)
Record FileView : Type := mkFileView {
  lstat : option Time;
  open : bool;
  decode : option Config
}.

(** The calls [ProcessConfig] makes, in order. *)
Inductive Event : Type :=
| EvLstat
| EvOpen
| EvDecode
| EvClose
| EvLogOpenFailed      (* "Failed to open config file [%s]: %s" *)
| EvLogProcessFailed   (* "Failed to process config file [%s]: %s" *)
| EvLogLoaded.         (* "New configuration loaded" *)

Definition setCurrentConfig (c : Config) (pc : PlotConfig) : PlotConfig :=
  mkPlotConfig (ConfigPath pc) (Some c) (LastMod pc).

Definition setLastMod (t : Time) (pc : PlotConfig) : PlotConfig :=
  mkPlotConfig (ConfigPath pc) (CurrentConfig pc) t.

Definition ProcessConfig (fs : FileView) (pc : PlotConfig)
  : PlotConfig * list Event :=
  match lstat fs with
  | None => (pc, [EvLstat; EvLogOpenFailed])
  | Some modTime =>
      if negb (Time_eqb (LastMod pc) modTime) then
        let '(pc1, evs) :=
          if open fs then
            match decode fs with
            | None => (pc, [EvOpen; EvDecode; EvLogProcessFailed; EvClose])
            | Some newConfig =>
                (setCurrentConfig newConfig pc,
                 [EvOpen; EvDecode; EvLogLoaded; EvClose])
            end
          else (pc, [EvOpen; EvLogOpenFailed]) in
        (setLastMod modTime pc1, EvLstat :: evs)
      else (pc, [EvLstat])
  end.

(** A poll fails when the stat, the open or the decode fails. *)
Definition pollFails (fs : FileView) : Prop :=
  lstat fs = None \/ open fs = false \/ decode fs = None.

(** [Init]: the goroutine polls at once and then on every tick of its
    ticker.  [views] holds what the file system answers to the polls made
    so far, the first one first. *)
Fixpoint Init (views : list FileView) (pc : PlotConfig)
  : PlotConfig * list Event :=
  match views with
  | [] => (pc, [])
  | fs :: rest =>
      let '(pc, evs) := ProcessConfig fs pc in
      let '(pc, evs') := Init rest pc in
      (pc, evs ++ evs')
  end.

End Cfg.

(* ================================================================== *)
(** ** The job supervisor *)

Module Plot.

Definition KB : Z := 1024.

(** Multiplication of [uint64] values. *)
Definition mul64 (a b : Z) : Z := ((a * b) mod 2 ^ 64)%Z.

(** [360*KB*KB*KB] *)
Definition minSpace : Z := mul64 (mul64 (mul64 360 KB) KB) KB.

Definition PlotRunning : Z := 0.
Definition PlotError : Z := 1.
Definition PlotFinished : Z := 2.

Record ActivePlot : Type := mkActivePlot {
  PlotId : Z;
  StartTime : Time;
  EndTime : Time;
  TargetDir : string;
  PlotDir : string;
  Fingerprint : string;
  Phase : string;
  Tail : list string;
  State : Z;
  Id : string
}.

Definition setStartTime (t : Time) (ap : ActivePlot) : ActivePlot :=
  mkActivePlot (PlotId ap) t (EndTime ap) (TargetDir ap) (PlotDir ap)
    (Fingerprint ap) (Phase ap) (Tail ap) (State ap) (Id ap).

Definition setEndTime (t : Time) (ap : ActivePlot) : ActivePlot :=
  mkActivePlot (PlotId ap) (StartTime ap) t (TargetDir ap) (PlotDir ap)
    (Fingerprint ap) (Phase ap) (Tail ap) (State ap) (Id ap).

Definition setPhase (p : string) (ap : ActivePlot) : ActivePlot :=
  mkActivePlot (PlotId ap) (StartTime ap) (EndTime ap) (TargetDir ap)
    (PlotDir ap) (Fingerprint ap) p (Tail ap) (State ap) (Id ap).

Definition setTail (t : list string) (ap : ActivePlot) : ActivePlot :=
  mkActivePlot (PlotId ap) (StartTime ap) (EndTime ap) (TargetDir ap)
    (PlotDir ap) (Fingerprint ap) (Phase ap) t (State ap) (Id ap).

Definition setState (s : Z) (ap : ActivePlot) : ActivePlot :=
  mkActivePlot (PlotId ap) (StartTime ap) (EndTime ap) (TargetDir ap)
    (PlotDir ap) (Fingerprint ap) (Phase ap) (Tail ap) s (Id ap).

Definition setId (i : string) (ap : ActivePlot) : ActivePlot :=
  mkActivePlot (PlotId ap) (StartTime ap) (EndTime ap) (TargetDir ap)
    (PlotDir ap) (Fingerprint ap) (Phase ap) (Tail ap) (State ap) i.

(** *** CheckSpace *)

Inductive SpaceLog : Type :=
| NotEnoughPlotSpace (dir : string) (gb : Z)
| NotEnoughTargetSpace (dir : string) (gb : Z).

(** [available dir] is [du.NewDiskUsage(dir).Available()], a [uint64]. *)
Definition CheckSpace (available : string -> Z) (ap : ActivePlot)
  : bool * list SpaceLog :=
  let plot := available (PlotDir ap) in
  let target := available (TargetDir ap) in
  if (plot <? minSpace)%Z then
    (false, [NotEnoughPlotSpace (PlotDir ap) (plot / mul64 (mul64 KB KB) KB)])
  else if (target <? minSpace)%Z then
    (false,
     [NotEnoughTargetSpace (TargetDir ap) (target / mul64 (mul64 KB KB) KB)])
  else (true, []).

(** *** RunPlot *)

(** What the operating system answers during one call of [RunPlot]:
    whether [cmd.StderrPipe], [cmd.StdoutPipe] and [cmd.Run] return a nil
    error ([cmd.Run] fails when the process cannot be started or exits
    with a non-zero status), and the two readings of [time.Now]. *)
Record ProcView : Type := mkProcView {
  stderrPipe : bool;
  stdoutPipe : bool;
  run : bool;
  nowStart : Time;
  nowEnd : Time
}.

Inductive Stream : Type := Stderr | Stdout.

Inductive RunEvent : Type :=
| EvCommand (name : string) (args : list string)
| EvGoProcessLogs (s : Stream)
| EvRun
| EvLogStartFailed    (* "Failed to start Plotting: %s" *)
| EvLogExitError.     (* "Plotting Exit with Error: %s" *)

Definition plotArgs (ap : ActivePlot) : list string :=
  [ "plots"; "create"; "-k32"; "-n1"; "-b6000"; "-u128";
    ("-t" ++ TargetDir ap)%string;
    ("-d" ++ TargetDir ap)%string;
    ("-a" ++ Fingerprint ap)%string ].

(** The body of [RunPlot], between the assignment of [StartTime] and the
    deferred assignment of [EndTime]. *)
Definition RunPlot_body (os : ProcView) (ap : ActivePlot)
  : ActivePlot * list RunEvent :=
  let args := plotArgs ap in
  let cmd := EvCommand "chia" args in
  let ap := setState PlotRunning ap in
  if negb (stderrPipe os) then
    (setState PlotError ap, [cmd; EvLogStartFailed])
  else if negb (stdoutPipe os) then
    (setState PlotError ap, [cmd; EvGoProcessLogs Stderr; EvLogStartFailed])
  else if negb (run os) then
    (setState PlotError ap,
     [cmd; EvGoProcessLogs Stderr; EvGoProcessLogs Stdout; EvRun;
      EvLogExitError])
  else
    (ap, [cmd; EvGoProcessLogs Stderr; EvGoProcessLogs Stdout; EvRun]).

Definition RunPlot (os : ProcView) (ap : ActivePlot)
  : ActivePlot * list RunEvent :=
  let ap := setStartTime (nowStart os) ap in
  let '(ap, evs) := RunPlot_body os ap in
  (setEndTime (nowEnd os) ap, evs).

(** The argument vector handed to [exec.Command]. *)
Definition commandArgs (evs : list RunEvent) : option (list string) :=
  match evs with
  | EvCommand _ args :: _ => Some args
  | _ => None
  end.

(** *** processLogs *)

Definition newline : ascii := "010"%char.

(** [s[lo:hi]] on a string. *)
Definition slice (s : string) (lo hi : nat) : result string :=
  if (hi <=? String.length s) && (lo <=? hi)
  then Ok (substring lo (hi - lo) s)
  else Panic sliceOutOfRange.

(** [s[lo:]] *)
Definition sliceFrom (s : string) (lo : nat) : result string :=
  slice s lo (String.length s).

(** [strings.HasPrefix(s, p)] *)
Definition HasPrefix (s p : string) : bool := prefix p s.

(** The successive results of [reader.ReadString('\n')] with a nil error:
    each line keeps its delimiter.  Data after the last delimiter comes
    with [io.EOF], on which the loop breaks without looking at it. *)
Fixpoint readLines (acc : string) (input : string) : list string :=
  match input with
  | EmptyString => []
  | String c rest =>
      if Ascii.eqb c newline
      then (acc ++ String newline EmptyString)%string
           :: readLines EmptyString rest
      else readLines (acc ++ String c EmptyString)%string rest
  end.

(** The statements under the lock: append, then keep the last ten. *)
Definition appendTail (s : string) (tail : list string) : list string :=
  let tail := tail ++ [s] in
  if 10 <? List.length tail
  then skipn (List.length tail - 10) tail
  else tail.

(** The loop body for one line [s]. *)
Definition processLine (s : string) (ap : ActivePlot) : result ActivePlot :=
  ap <- (if HasPrefix s "Starting phase "
         then p <- slice s 15 18 ;; Ok (setPhase p ap)
         else Ok ap) ;;
  ap <- (if HasPrefix s "ID: "
         then i <- sliceFrom s 4 ;; Ok (setId i ap)
         else Ok ap) ;;
  Ok (setTail (appendTail s (Tail ap)) ap).

Fixpoint processLines (lines : list string) (ap : ActivePlot)
  : result ActivePlot :=
  match lines with
  | [] => Ok ap
  | s :: rest => ap <- processLine s ap ;; processLines rest ap
  end.

Definition processLogs (input : string) (ap : ActivePlot)
  : result ActivePlot :=
  processLines (readLines EmptyString input) ap.

(** A line on which the phase slice is within bounds. *)
Definition phaseInBounds (s : string) : Prop :=
  HasPrefix s "Starting phase " = true -> 18 <= String.length s.

End Plot.

(* ================================================================== *)
(** ** sort.SliceStable *)

(** The stable sort of Go's package [sort], as [SliceStable] runs it on a
    slice: insertion sort on blocks of 20 elements, then rounds of
    in-place [symMerge].  [less] is called on two indices of the slice
    in its current state and every move is a [Swap] of two indices.
    The loops whose bound is not a plain counter carry a fuel that the
    callers set to the length of the range at hand. *)
Section GoSort.

Context {A : Type}.
Variable less : A -> A -> result bool.

Fixpoint set_nth (i : nat) (x : A) (l : list A) : list A :=
  match l, i with
  | [], _ => []
  | _ :: t, 0 => x :: t
  | h :: t, S i' => h :: set_nth i' x t
  end.

Definition Less (d : list A) (i j : nat) : result bool :=
  match nth_error d i, nth_error d j with
  | Some x, Some y => less x y
  | _, _ => Panic indexOutOfRange
  end.

Definition Swap (d : list A) (i j : nat) : result (list A) :=
  match nth_error d i, nth_error d j with
  | Some x, Some y => Ok (set_nth j x (set_nth i y d))
  | _, _ => Panic indexOutOfRange
  end.

(** [for j := i; j > a && data.Less(j, j-1); j-- { data.Swap(j, j-1) }] *)
Fixpoint insertDown (a j : nat) (d : list A) : result (list A) :=
  match j with
  | 0 => Ok d
  | S j' =>
      if j <=? a then Ok d
      else
        lt <- Less d j j' ;;
        if lt : bool then d <- Swap d j j' ;; insertDown a j' d else Ok d
  end.

(** [for i := a + 1; i < b; i++], with [count = b - i] rounds to go. *)
Fixpoint insertionSort_loop (count i a : nat) (d : list A)
  : result (list A) :=
  match count with
  | 0 => Ok d
  | S count' => d <- insertDown a i d ;; insertionSort_loop count' (S i) a d
  end.

Definition insertionSort (a b : nat) (d : list A) : result (list A) :=
  insertionSort_loop (b - (a + 1)) (a + 1) a d.

(** [for i < j { h := int(uint(i+j) >> 1); if cond(h) { i = h + 1 } else
    { j = h } }], returning [i]. *)
Fixpoint bsearch (fuel : nat) (cond : nat -> result bool) (i j : nat)
  : result nat :=
  if i <? j then
    match fuel with
    | 0 => OutOfFuel
    | S fuel' =>
        let h := (i + j) / 2 in
        c <- cond h ;;
        if c : bool then bsearch fuel' cond (h + 1) j
        else bsearch fuel' cond i h
    end
  else Ok i.

(** [for k := a; k < i-1; k++ { data.Swap(k, k+1) }] *)
Fixpoint swapUp (count k : nat) (d : list A) : result (list A) :=
  match count with
  | 0 => Ok d
  | S count' => d <- Swap d k (k + 1) ;; swapUp count' (k + 1) d
  end.

(** [for k := m; k > i; k-- { data.Swap(k, k-1) }] *)
Fixpoint swapDown (count k : nat) (d : list A) : result (list A) :=
  match count with
  | 0 => Ok d
  | S count' => d <- Swap d k (k - 1) ;; swapDown count' (k - 1) d
  end.

(** [for i := 0; i < n; i++ { data.Swap(a+i, b+i) }] *)
Fixpoint swapRange (a b n : nat) (d : list A) : result (list A) :=
  match n with
  | 0 => Ok d
  | S n' => d <- Swap d a b ;; swapRange (S a) (S b) n' d
  end.

(** The loop of [rotate] on [i] and [j], then its last [swapRange]. *)
Fixpoint rotate_loop (fuel m i j : nat) (d : list A) : result (list A) :=
  if i =? j then swapRange (m - i) m i d
  else
    match fuel with
    | 0 => OutOfFuel
    | S fuel' =>
        if j <? i then
          d <- swapRange (m - i) m j d ;; rotate_loop fuel' m (i - j) j d
        else
          d <- swapRange (m - i) (m + j - i) i d ;;
          rotate_loop fuel' m i (j - i) d
    end.

Definition rotate (a m b : nat) (d : list A) : result (list A) :=
  rotate_loop (b - a) m (m - a) (b - m) d.

Fixpoint symMerge (fuel a m b : nat) (d : list A) : result (list A) :=
  match fuel with
  | 0 => OutOfFuel
  | S fuel' =>
      if m - a =? 1 then
        i <- bsearch (b - m) (fun h => Less d h a) m b ;;
        swapUp (i - 1 - a) a d
      else if b - m =? 1 then
        i <- bsearch (m - a)
               (fun h => lt <- Less d m h ;; Ok (negb lt)) a m ;;
        swapDown (m - i) m d
      else
        let mid := (a + b) / 2 in
        let n := mid + m in
        let start := if mid <? m then n - b else a in
        let r := if mid <? m then mid else m in
        let p := n - 1 in
        start <- bsearch (r - start)
                   (fun c => lt <- Less d (p - c) c ;; Ok (negb lt))
                   start r ;;
        let end_ := n - start in
        d <- (if (start <? m) && (m <? end_)
              then rotate start m end_ d else Ok d) ;;
        d <- (if (a <? start) && (start <? mid)
              then symMerge fuel' a start mid d else Ok d) ;;
        if (mid <? end_) && (end_ <? b)
        then symMerge fuel' mid end_ b d else Ok d
  end.

(** [for b <= n { insertionSort(data, a, b); a = b; b += blockSize }],
    returning the slice and the final [a]. *)
Fixpoint insertBlocks (fuel a b blockSize n : nat) (d : list A)
  : result (list A * nat) :=
  if b <=? n then
    match fuel with
    | 0 => OutOfFuel
    | S fuel' =>
        d <- insertionSort a b d ;;
        insertBlocks fuel' b (b + blockSize) blockSize n d
    end
  else Ok (d, a).

(** [for b <= n { symMerge(data, a, a+blockSize, b); a = b;
    b += 2 * blockSize }] *)
Fixpoint mergeBlocks (fuel a b blockSize n : nat) (d : list A)
  : result (list A * nat) :=
  if b <=? n then
    match fuel with
    | 0 => OutOfFuel
    | S fuel' =>
        d <- symMerge (b - a) a (a + blockSize) b d ;;
        mergeBlocks fuel' b (b + 2 * blockSize) blockSize n d
    end
  else Ok (d, a).

(** [for blockSize < n { ...; blockSize *= 2 }] *)
Fixpoint mergeRounds (fuel blockSize n : nat) (d : list A)
  : result (list A) :=
  if blockSize <? n then
    match fuel with
    | 0 => OutOfFuel
    | S fuel' =>
        da <- mergeBlocks n 0 (2 * blockSize) blockSize n d ;;
        let '(d, a) := da in
        let m := a + blockSize in
        d <- (if m <? n then symMerge (n - a) a m n d else Ok d) ;;
        mergeRounds fuel' (2 * blockSize) n d
    end
  else Ok d.

Definition stable (d : list A) : result (list A) :=
  let n := List.length d in
  let blockSize := 20 in
  da <- insertBlocks n 0 blockSize blockSize n d ;;
  let '(d, a) := da in
  d <- insertionSort a n d ;;
  mergeRounds n blockSize n d.

End GoSort.

(* ================================================================== *)
(** ** widget.SortedTable *)

Module Widget.

(** *** Rows *)

(** A field of the struct a row points to, as package [reflect] sees it:
    its kind, its value and the name of its type. *)
Inductive Field : Type :=
| FString (s : string)             (* reflect.String *)
| FInt (typ : string) (i : Z)      (* reflect.Int8 ... Int64, Int *)
| FUint (typ : string) (u : Z)     (* reflect.Uint8 ... Uint64, Uint *)
| FTime (t : Time)                 (* a time.Time *)
| FOther (typ : string).           (* every other kind and type *)

Definition typeName (f : Field) : string :=
  match f with
  | FString _ => "string"
  | FInt typ _ => typ
  | FUint typ _ => typ
  | FTime _ => "time.Time"
  | FOther typ => typ
  end.

(** [reflect.Value.String]: the string itself, or ["<T Value>"]. *)
Definition fieldString (f : Field) : string :=
  match f with
  | FString s => s
  | _ => ("<" ++ typeName f ++ " Value>")%string
  end.

(** [reflect.Value.Int] *)
Definition fieldInt (f : Field) : result Z :=
  match f with
  | FInt _ i => Ok i
  | _ => Panic "reflect: call of reflect.Value.Int on a Value of another kind"
  end.

(** [reflect.Value.Uint] *)
Definition fieldUint (f : Field) : result Z :=
  match f with
  | FUint _ u => Ok u
  | _ => Panic "reflect: call of reflect.Value.Uint on a Value of another kind"
  end.

(** [f.Interface().(time.Time)] *)
Definition fieldTime (f : Field) : result Time :=
  match f with
  | FTime t => Ok t
  | _ => Panic "interface conversion: interface {} is not time.Time"
  end.

(** [reflect.Value.Field] *)
Definition structField (v : list Field) (i : Z) : result Field :=
  if (i <? 0)%Z then Panic "reflect: Field index out of range"
  else
    match nth_error v (Z.to_nat i) with
    | Some f => Ok f
    | None => Panic "reflect: Field index out of range"
    end.

(** A [SortableRow]: a pointer to a struct, with the result of its
    [Strings] method. *)
Record RowData : Type := mkRowData {
  fields : list Field;
  Strings : list string
}.

(** The [data] of a row is an interface value, [None] when nil. *)
Record tableRow : Type := mkRow {
  key : string;
  data : option RowData
}.

(** *** tview.Table, as far as SortedTable drives it *)

Inductive Color : Type := ColorWhite | ColorGreen | ColorRed | ColorYellow.

Definition AlignLeft : Z := 0.
Definition AlignCenter : Z := 1.
Definition AlignRight : Z := 2.

Record TableCell : Type := mkCell {
  Text : string;
  Align : Z;
  TextColor : Color;
  NotSelectable : bool;
  Clicked : option Z   (* the column of the attached setSortColumn *)
}.

Definition NewTableCell (text : string) : TableCell :=
  mkCell text AlignLeft ColorWhite false None.

Definition emptyCell : TableCell := NewTableCell "".

Record Table : Type := mkTable {
  cells : list (list TableCell);
  lastColumn : Z;
  selectedRow : Z;
  selectedColumn : Z
}.

Definition NewTable : Table := mkTable [] (-1) 0 0.

Definition GetRowCount (t : Table) : nat := List.length (cells t).

Definition GetColumnCount (t : Table) : nat :=
  match cells t with
  | [] => 0
  | _ => Z.to_nat (lastColumn t + 1)
  end.

Definition padTo {A : Type} (n : nat) (x : A) (l : list A) : list A :=
  l ++ repeat x (n - List.length l).

Definition SetCell (row column : nat) (cell : TableCell) (t : Table)
  : Table :=
  let cs := padTo (S row) [] (cells t) in
  let r := padTo (S column) emptyCell (nth row cs []) in
  mkTable (set_nth row (set_nth column cell r) cs)
    (Z.max (lastColumn t) (Z.of_nat column))
    (selectedRow t) (selectedColumn t).

(** [t.GetCell(row, column)] followed by assignments to the cell it
    returns: outside the table [GetCell] hands out a fresh cell and the
    assignments are lost. *)
Definition updateCell (row column : nat) (f : TableCell -> TableCell)
  (t : Table) : Table :=
  match nth_error (cells t) row with
  | None => t
  | Some r =>
      match nth_error r column with
      | None => t
      | Some c =>
          mkTable (set_nth row (set_nth column (f c) r) (cells t))
            (lastColumn t) (selectedRow t) (selectedColumn t)
      end
  end.

Definition SetTextColor (color : Color) (c : TableCell) : TableCell :=
  mkCell (Text c) (Align c) color (NotSelectable c) (Clicked c).

Definition RemoveRow (row : nat) (t : Table) : Table :=
  if List.length (cells t) <=? row then t
  else mkTable (firstn row (cells t) ++ skipn (S row) (cells t))
         (lastColumn t) (selectedRow t) (selectedColumn t).

Definition setSelected (row column : Z) (t : Table) : Table :=
  mkTable (cells t) (lastColumn t) row column.

(** *** SortedTable *)

Record SortedTable : Type := mkSortedTable {
  table : Table;
  values : list tableRow;
  curRow : Z;
  curKey : string;
  sortColumn : Z;
  sortReverse : bool;
  columnAlign : list (nat * Z);   (* map[int]int, first binding counts *)
  selectionChangedFunc : bool;    (* whether a handler is set *)
  notified : list string          (* the handler's calls, latest first *)
}.

Definition setTable (t : Table) (st : SortedTable) : SortedTable :=
  mkSortedTable t (values st) (curRow st) (curKey st) (sortColumn st)
    (sortReverse st) (columnAlign st) (selectionChangedFunc st)
    (notified st).

Definition setValues (vs : list tableRow) (st : SortedTable)
  : SortedTable :=
  mkSortedTable (table st) vs (curRow st) (curKey st) (sortColumn st)
    (sortReverse st) (columnAlign st) (selectionChangedFunc st)
    (notified st).

Definition setCurRow (row : Z) (st : SortedTable) : SortedTable :=
  mkSortedTable (table st) (values st) row (curKey st) (sortColumn st)
    (sortReverse st) (columnAlign st) (selectionChangedFunc st)
    (notified st).

(** [st.curKey = k], followed by the call of the handler when it is set. *)
Definition setCurKey (k : string) (st : SortedTable) : SortedTable :=
  mkSortedTable (table st) (values st) (curRow st) k (sortColumn st)
    (sortReverse st) (columnAlign st) (selectionChangedFunc st)
    (if selectionChangedFunc st then k :: notified st else notified st).

Definition setSort (column : Z) (reverse : bool) (st : SortedTable)
  : SortedTable :=
  mkSortedTable (table st) (values st) (curRow st) (curKey st) column
    reverse (columnAlign st) (selectionChangedFunc st) (notified st).

Definition NewSortedTable : SortedTable :=
  mkSortedTable NewTable [] 0 "" 0 false [] false [].

(** [st.values[i]] for an [int] index. *)
Definition valueAt (vs : list tableRow) (i : Z) : result tableRow :=
  if (i <? 0)%Z then Panic indexOutOfRange
  else
    match nth_error vs (Z.to_nat i) with
    | Some r => Ok r
    | None => Panic indexOutOfRange
    end.

(** The branch [row > 0] of [selectionChanged]. *)
Definition selectionChangedRow (row : Z) (st : SortedTable)
  : result SortedTable :=
  let st := setCurRow row st in
  r <- valueAt (values st) (row - 1) ;;
  if String.eqb (curKey st) (key r) then Ok st
  else Ok (setCurKey (key r) st).

(** [SetSelectionChangedFunc]; [handler] tells whether the function given
    is not nil. *)
Definition SetSelectionChangedFunc (handler : bool) (st : SortedTable)
  : SortedTable :=
  mkSortedTable (table st) (values st) (curRow st) (curKey st)
    (sortColumn st) (sortReverse st) (columnAlign st) handler (notified st).

(** [SetColumnAlign]: [st.columnAlign[col] = align].  The map is only ever
    read at the column indices of cells, so a negative key, which no
    lookup asks for, is not kept. *)
Definition SetColumnAlign (col align : Z) (st : SortedTable)
  : SortedTable :=
  if (col <? 0)%Z then st
  else
    mkSortedTable (table st) (values st) (curRow st) (curKey st)
      (sortColumn st) (sortReverse st)
      ((Z.to_nat col, align) :: columnAlign st)
      (selectionChangedFunc st) (notified st).

(** [selectionChanged]; in the branch [row <= 0] the call
    [st.table.Select(st.curRow, 0)] comes back, as the table's callback,
    into the branch [row > 0]. *)
Definition selectionChanged (row column : Z) (st : SortedTable)
  : result SortedTable :=
  if (row <=? 0)%Z then
    if (0 <? curRow st)%Z then
      selectionChangedRow (curRow st)
        (setTable (setSelected (curRow st) 0 (table st)) st)
    else Ok st
  else selectionChangedRow row st.

(** [st.table.Select(row, column)]: tview stores the selection and calls
    the callback registered by [NewSortedTable]. *)
Definition tableSelect (row column : Z) (st : SortedTable)
  : result SortedTable :=
  selectionChanged row column
    (setTable (setSelected row column (table st)) st).

(** [setHeaders]: blank the header cells beyond the new headers, then set
    one cell per header, which sorts by its column when clicked. *)
Definition setHeaders (headers : list string) (st : SortedTable)
  : SortedTable :=
  let t :=
    fold_left
      (fun t colIndex =>
         updateCell 0 colIndex
           (fun c => mkCell "" (Align c) (TextColor c) (NotSelectable c) None)
           t)
      (seq (List.length headers)
         (GetColumnCount (table st) - List.length headers))
      (table st) in
  setTable
    (fold_left
       (fun t ch =>
          SetCell 0 (fst ch)
            (mkCell (snd ch) AlignLeft ColorWhite true
               (Some (Z.of_nat (fst ch)))) t)
       (combine (seq 0 (List.length headers)) headers) t)
    st.

(** The tags of one field of the struct type given to [SetupFromType]:
    the values of [header] and [data-align], [None] for a tag that the
    field does not have. *)
Record FieldTags : Type := mkFieldTags {
  headerTag : option string;
  alignTag : option string
}.

(** The [switch] on the value of a [data-align] tag. *)
Definition alignOfTag (t : string) : result Z :=
  if String.eqb t "left" then Ok AlignLeft
  else if String.eqb t "center" then Ok AlignCenter
  else if String.eqb t "right" then Ok AlignRight
  else Panic "unexpected align".

(** The loop of [SetupFromType] from field [i] on. *)
Fixpoint setupFields (i : nat) (fs : list FieldTags) (headers : list string)
  (st : SortedTable) : result (list string * SortedTable) :=
  match fs with
  | [] => Ok (headers, st)
  | f :: rest =>
      let headers :=
        match headerTag f with
        | Some t => headers ++ [t]
        | None => headers
        end in
      st <- match alignTag f with
            | Some t =>
                align <- alignOfTag t ;;
                Ok (SetColumnAlign (Z.of_nat i) align st)
            | None => Ok st
            end ;;
      setupFields (S i) rest headers st
  end.

(** [SetupFromType], on the fields of the struct type of its argument. *)
Definition SetupFromType (fs : list FieldTags) (st : SortedTable)
  : result SortedTable :=
  hs <- setupFields 0 fs [] st ;;
  Ok (setHeaders (fst hs) (snd hs)).

Definition Clear (st : SortedTable) : SortedTable := setValues [] st.

Definition Keys (st : SortedTable) : list string := map key (values st).

Fixpoint setRow (k : string) (d : option RowData) (vs : list tableRow)
  : option (list tableRow) :=
  match vs with
  | [] => None
  | r :: rest =>
      if String.eqb (key r) k then Some (mkRow (key r) d :: rest)
      else option_map (cons r) (setRow k d rest)
  end.

Definition SetRowData (k : string) (d : option RowData) (st : SortedTable)
  : SortedTable :=
  match setRow k d (values st) with
  | Some vs => setValues vs st
  | None => setValues (values st ++ [mkRow k d]) st
  end.

Definition ClearRowData (k : string) (st : SortedTable) : SortedTable :=
  setValues (filter (fun r => negb (String.eqb (key r) k)) (values st)) st.

(** The closure returned by [setSortColumn(col)]. *)
Definition setSortColumn (col : Z) (st : SortedTable) : SortedTable :=
  if (sortColumn st =? col)%Z then setSort (sortColumn st)
                                     (negb (sortReverse st)) st
  else setSort col false st.

Definition headerColor (st : SortedTable) (c : nat) : Color :=
  if (Z.of_nat c =? sortColumn st)%Z then
    if negb (sortReverse st) then ColorGreen else ColorRed
  else ColorYellow.

Definition redrawHeaders (st : SortedTable) : SortedTable :=
  setTable
    (fold_left
       (fun t c => updateCell 0 c (SetTextColor (headerColor st c)) t)
       (seq 0 (GetColumnCount (table st))) (table st))
    st.

Definition GetSelection (st : SortedTable) : result string :=
  if (0 <? curRow st)%Z then
    r <- valueAt (values st) (curRow st - 1) ;; Ok (key r)
  else Ok "".

(** The index of the first row with key [k], counting from [row]. *)
Fixpoint findKey (k : string) (vs : list tableRow) (row : nat)
  : option nat :=
  match vs with
  | [] => None
  | r :: rest =>
      if String.eqb (key r) k then Some row else findKey k rest (S row)
  end.

Definition Select (k : string) (st : SortedTable) : result SortedTable :=
  match findKey k (values st) 0 with
  | Some row => tableSelect (Z.of_nat row + 1) 0 st
  | None => Ok st
  end.

(** *** The comparator of sortData *)

(** The [switch] on the kind of [f1], then on its type; [a != b] on
    booleans is [xorb a b]. *)
Definition lessField (reverse : bool) (f1 f2 : Field) : result bool :=
  match f1 with
  | FString s1 => Ok (xorb (String.ltb s1 (fieldString f2)) reverse)
  | FInt _ i1 => i2 <- fieldInt f2 ;; Ok (xorb (i1 <? i2)%Z reverse)
  | FUint _ u1 => u2 <- fieldUint f2 ;; Ok (xorb (u1 <? u2)%Z reverse)
  | FTime t1 => t2 <- fieldTime f2 ;; Ok (xorb (Before t1 t2) reverse)
  | FOther _ => Panic "unexpected type"
  end.

Definition lessRow (column : Z) (reverse : bool) (row1 row2 : tableRow)
  : result bool :=
  match data row2 with
  | None => Ok true
  | Some row2Value =>
      match data row1 with
      | None => Ok false
      | Some row1Value =>
          let v1 := fields row1Value in
          let v2 := fields row2Value in
          if negb (List.length v1 =? List.length v2)
             || (Z.of_nat (List.length v1) <? column)%Z
          then Ok false
          else
            f1 <- structField v1 column ;;
            f2 <- structField v2 column ;;
            lessField reverse f1 f2
      end
  end.

Definition sortData (st : SortedTable) : result SortedTable :=
  vs <- stable (lessRow (sortColumn st) (sortReverse st)) (values st) ;;
  Ok (setValues vs st).

(** *** updateData and Redraw *)

Fixpoint lookupAlign (c : nat) (m : list (nat * Z)) : option Z :=
  match m with
  | [] => None
  | (c', a) :: rest => if c' =? c then Some a else lookupAlign c rest
  end.

Definition alignedCell (st : SortedTable) (colIndex : nat) (text : string)
  : TableCell :=
  match lookupAlign colIndex (columnAlign st) with
  | Some align => mkCell text align ColorWhite false None
  | None => NewTableCell text
  end.

(** The cells of one row: one per string, then empty cells up to the
    column count of the table. *)
Definition updateRow (st : SortedTable) (rowIndex : nat)
  (strData : list string) (t : Table) : Table :=
  let t :=
    fold_left
      (fun t ct => SetCell (rowIndex + 1) (fst ct)
                     (alignedCell st (fst ct) (snd ct)) t)
      (combine (seq 0 (List.length strData)) strData) t in
  fold_left
    (fun t colIndex => SetCell (rowIndex + 1) colIndex (NewTableCell "") t)
    (seq (List.length strData)
       (GetColumnCount t - List.length strData)) t.

Fixpoint updateRows (st : SortedTable) (rowIndex : nat)
  (vs : list tableRow) (t : Table) : result Table :=
  match vs with
  | [] => Ok t
  | rowData :: rest =>
      match data rowData with
      | None => Panic nilDereference
      | Some d =>
          updateRows st (S rowIndex) rest
            (updateRow st rowIndex (Strings d) t)
      end
  end.

(** [for st.table.GetRowCount() > len(st.values)+1 { RemoveRow(last) }] *)
Definition trimRows (n : nat) (t : Table) : Table :=
  Nat.iter (GetRowCount t - (n + 1))
    (fun t => RemoveRow (GetRowCount t - 1) t) t.

Definition updateData (st : SortedTable) : result SortedTable :=
  t <- updateRows st 0 (values st) (table st) ;;
  Ok (setTable (trimRows (List.length (values st)) t) st).

Definition Redraw (st : SortedTable) : result SortedTable :=
  let st := redrawHeaders st in
  selectedKey <- GetSelection st ;;
  st <- sortData st ;;
  st <- updateData st ;;
  Select selectedKey st.

End Widget.

(* ================================================================== *)
(** ** Auxiliary notions *)

(** The last [n] elements of a list. *)
Definition lastn {A : Type} (n : nat) (l : list A) : list A :=
  skipn (List.length l - n) l.

Definition GiB : Z := 1024 * 1024 * 1024.

(** A slice of [n] elements, all of them in the domain [P] of the
    comparator. *)
Definition comparable {A : Type} (P : A -> Prop) (n : nat) (d : list A)
  : Prop :=
  List.length d = n /\ Forall P d.

(** Every row of the table has data. *)
Definition allData (st : Widget.SortedTable) : Prop :=
  Forall (fun r => Widget.data r <> None) (Widget.values st).

(** The comparator of the table returns on every two of its rows. *)
Definition comparableRows (st : Widget.SortedTable) : Prop :=
  forall r1 r2 : Widget.tableRow,
    In r1 (Widget.values st) -> In r2 (Widget.values st) ->
    exists lt : bool,
      Widget.lessRow (Widget.sortColumn st) (Widget.sortReverse st) r1 r2
      = Ok lt.

(** The operations a client of the table calls between two frames. *)
Inductive TableOp : Type :=
| OpSetRowData (k : string) (d : option Widget.RowData)
| OpClearRowData (k : string)
| OpClear
| OpClick (col : Z)          (* a click on the header of column [col] *)
| OpSelect (k : string)
| OpRedraw.

Definition runOp (op : TableOp) (st : Widget.SortedTable)
  : result Widget.SortedTable :=
  match op with
  | OpSetRowData k d => Ok (Widget.SetRowData k d st)
  | OpClearRowData k => Ok (Widget.ClearRowData k st)
  | OpClear => Ok (Widget.Clear st)
  | OpClick col => Ok (Widget.setSortColumn col st)
  | OpSelect k => Widget.Select k st
  | OpRedraw => Widget.Redraw st
  end.

Fixpoint runOps (ops : list TableOp) (st : Widget.SortedTable)
  : result Widget.SortedTable :=
  match ops with
  | [] => Ok st
  | op :: rest => st <- runOp op st ;; runOps rest st
  end.

(** The value of the sort column of a row when it is a signed integer
    field. *)
Definition intColumn (col : Z) (r : Widget.tableRow) : option Z :=
  match Widget.data r with
  | Some d =>
      match Widget.structField (Widget.fields d) col with
      | Ok (Widget.FInt _ i) => Some i
      | _ => None
      end
  | None => None
  end.

Definition intKey (col : Z) (r : Widget.tableRow) : Z :=
  match intColumn col r with
  | Some i => i
  | None => 0
  end.

Definition numFields (r : Widget.tableRow) : nat :=
  match Widget.data r with
  | Some d => List.length (Widget.fields d)
  | None => 0
  end.

(** The rows all have [n] fields, of which the sort column is a signed
    integer. *)
Definition intRows (col : Z) (n : nat) (vs : list Widget.tableRow) : Prop :=
  Forall (fun r => numFields r = n /\ intColumn col r <> None) vs.

(** Insertion of [x] into a list held in reverse: [x] passes the elements
    it is less than. *)
Fixpoint insertBack {A : Type} (lt : A -> A -> bool) (x : A) (r : list A)
  : list A :=
  match r with
  | [] => [x]
  | y :: r' => if lt x y then y :: insertBack lt x r' else x :: r
  end.

(** Insertion sort from the left, each element inserted from the right
    end of the part already sorted. *)
Definition insertAll {A : Type} (lt : A -> A -> bool) (d : list A) : list A :=
  rev (fold_left (fun acc x => insertBack lt x acc) d []).

(* ================================================================== *)
(** ** Concrete inputs *)

Definition config0 : Cfg.Config :=
  Cfg.mkConfig ["/mnt/dst"] ["/mnt/tmp"] 2 "fp".

Definition store0 : Cfg.PlotConfig :=
  Cfg.mkPlotConfig "config.json" (Some config0) (mkTime 100 0 1).

(** A file that was modified and no longer decodes. *)
Definition brokenFile : Cfg.FileView :=
  Cfg.mkFileView (Some (mkTime 200 0 1)) true None.

Definition time0 : Time := mkTime 0 0 0.

Definition job0 : Plot.ActivePlot :=
  Plot.mkActivePlot 1 time0 time0 "/mnt/dst" "/mnt/tmp" "abcdef" "" []
    Plot.PlotRunning "".

(** The space available on the plot directory of [job0] and elsewhere. *)
Definition spaceOf (plot target : Z) (dir : string) : Z :=
  if String.eqb dir "/mnt/tmp" then plot else target.

Definition procOk : Plot.ProcView :=
  Plot.mkProcView true true true time0 (mkTime 9 0 0).

Definition nl : string := String Plot.newline EmptyString.

Definition elevenLines : list string :=
  map (fun c => String c nl)
    ["a"; "b"; "c"; "d"; "e"; "f"; "g"; "h"; "i"; "j"; "k"]%char.

(** A row of two columns: a name and a count. *)
Definition rowOf (k : string) (count : Z) (shown : string)
  : Widget.tableRow :=
  Widget.mkRow k
    (Some (Widget.mkRowData [Widget.FString k; Widget.FInt "int" count]
             [k; shown])).

Definition emptyTable : Widget.SortedTable :=
  Widget.setHeaders ["Name"; "Count"] Widget.NewSortedTable.

Definition addRow (r : Widget.tableRow) (st : Widget.SortedTable)
  : Widget.SortedTable :=
  Widget.SetRowData (Widget.key r) (Widget.data r) st.

(** One row. *)
Definition tableA : Widget.SortedTable := addRow (rowOf "a" 1 "1") emptyTable.

(** Two rows with the same count. *)
Definition tableAB : Widget.SortedTable := addRow (rowOf "b" 1 "1") tableA.

(** The same, after two clicks on the header of the count column: sorted
    by count, in reverse direction. *)
Definition tableTies : Widget.SortedTable :=
  Widget.setSortColumn 1 (Widget.setSortColumn 1 tableAB).

(** A row of one column. *)
Definition narrowRow : Widget.tableRow :=
  Widget.mkRow "n" (Some (Widget.mkRowData [Widget.FString "z"] ["z"])).

Definition missingRow : Widget.tableRow := Widget.mkRow "m" None.

(** The file of [brokenFile], repaired without a change of its
    modification time. *)
Definition fixedFile : Cfg.FileView :=
  Cfg.mkFileView (Some (mkTime 200 0 1)) true (Some config0).

(** A string without the line delimiter. *)
Fixpoint noNewline (s : string) : Prop :=
  match s with
  | EmptyString => True
  | String c s' => c <> Plot.newline /\ noNewline s'
  end.

(** The lines of a stream, one after the other. *)
Definition joinLines (lines : list string) : string :=
  fold_right String.append EmptyString lines.

(** The value of a result that is known to be [Ok]. *)
Definition orElse {A : Type} (r : result A) (default : A) : A :=
  match r with
  | Ok a => a
  | _ => default
  end.

(** [tableAB] with the row [b] selected. *)
Definition tableABSelected : Widget.SortedTable :=
  orElse (Widget.Select "b" tableAB) tableAB.


(** The calls of the handler after the row with key [k] was selected:
    one more when a handler is set and [k] is not the current key. *)
Definition notify (k : string) (st : Widget.SortedTable) : list string :=
  if Widget.selectionChangedFunc st
     && negb (String.eqb (Widget.curKey st) k)
  then k :: Widget.notified st else Widget.notified st.

(** The comparisons by an integer key, forward and reverse, as the
    comparator of the table makes them. *)
Definition ltForward {A : Type} (key : A -> Z) (x y : A) : bool :=
  (key x <? key y)%Z.

Definition ltReverse {A : Type} (key : A -> Z) (x y : A) : bool :=
  negb (key x <? key y)%Z.

Definition hasKey {A : Type} (key : A -> Z) (v : Z) (x : A) : bool :=
  (key x =? v)%Z.



(** The cell of the table view at a position, when there is one. *)
Definition cellAt (row column : nat) (t : Widget.Table)
  : option Widget.TableCell :=
  match nth_error (Widget.cells t) row with
  | Some r => nth_error r column
  | None => None
  end.

(** Three rows with counts 2, 1 and 2, sorted by count: forward after one
    click on its header, in reverse after two. *)
Definition tableCounts : Widget.SortedTable :=
  addRow (rowOf "c" 2 "2")
    (addRow (rowOf "b" 1 "1") (addRow (rowOf "a" 2 "2") emptyTable)).

Definition tableCountsForward : Widget.SortedTable :=
  Widget.setSortColumn 1 tableCounts.

Definition tableCountsReverse : Widget.SortedTable :=
  Widget.setSortColumn 1 tableCountsForward.



(** The [header] tags of the fields of a struct type, in the order of
    declaration. *)
Definition headersOf (fs : list Widget.FieldTags) : list string :=
  flat_map
    (fun f =>
       match Widget.headerTag f with
       | Some t => [t]
       | None => []
       end) fs.

(** The values of [data-align] for which the [switch] of [SetupFromType]
    has a case. *)
Definition alignNames : list string := ["left"; "center"; "right"].

(** A struct type whose first field has no tag, followed by a field with
    a header and an alignment. *)
Definition countFields : list Widget.FieldTags :=
  [Widget.mkFieldTags None None;
   Widget.mkFieldTags (Some "Count") (Some "right")].

(** The same with a misspelt alignment. *)
Definition misspeltFields : list Widget.FieldTags :=
  [Widget.mkFieldTags None None;
   Widget.mkFieldTags (Some "Count") (Some "centre")].

(* ================================================================== *)
(** * Properties *)

(** ** time.Time *)

Lemma Time_eqb_refl (t : Time) : Time_eqb t t = true.
Proof.
  unfold Time_eqb. now rewrite !Z.eqb_refl.
Qed.

Lemma Time_eqb_eq (t u : Time) : Time_eqb t u = true <-> t = u.
Proof.
  split.
  - unfold Time_eqb. intros H.
    apply andb_prop in H as [H H3]. apply andb_prop in H as [H1 H2].
    apply Z.eqb_eq in H1, H2, H3.
    destruct t, u; simpl in *; congruence.
  - intros ->. apply Time_eqb_refl.
Qed.

Lemma Time_eqb_neq (t u : Time) : Time_eqb t u = false <-> t <> u.
Proof.
  rewrite <- Time_eqb_eq. destruct (Time_eqb t u); split; congruence.
Qed.

(* ================================================================== *)
(** ** The configuration store *)

Section ConfigStore.

Import Cfg.

Lemma ProcessConfig_unchanged_mtime (fs : FileView) (pc : PlotConfig) :
  lstat fs = Some (LastMod pc) -> ProcessConfig fs pc = (pc, [EvLstat]).
Proof.
  intros H. unfold ProcessConfig. rewrite H, Time_eqb_refl. reflexivity.
Qed.

Lemma ProcessConfig_LastMod (fs : FileView) (pc : PlotConfig) (t : Time) :
  lstat fs = Some t -> LastMod (fst (ProcessConfig fs pc)) = t.
Proof.
  intros H. unfold ProcessConfig. rewrite H.
  destruct (Time_eqb (LastMod pc) t) eqn:E; simpl.
  - now apply Time_eqb_eq.
  - destruct (open fs); [destruct (decode fs)|]; reflexivity.
Qed.

(** A successful poll of a changed file publishes the decoded document. *)
Lemma ProcessConfig_loads (fs : FileView) (pc : PlotConfig) (t : Time)
  (c : Config) :
  lstat fs = Some t -> LastMod pc <> t -> open fs = true ->
  decode fs = Some c ->
  ProcessConfig fs pc =
    (mkPlotConfig (ConfigPath pc) (Some c) t,
     [EvLstat; EvOpen; EvDecode; EvLogLoaded; EvClose]).
Proof.
  intros Hs Hne Ho Hd. unfold ProcessConfig.
  apply Time_eqb_neq in Hne. rewrite Hs, Hne, Ho, Hd. reflexivity.
Qed.

(** C6. When the stat, the open or the decode fails, [ProcessConfig]
    leaves the published configuration as it was.  When the stat gave a
    modification time different from the stored one, that time is stored
    all the same, and the next poll that sees the same time only stats
    the file: it neither opens nor decodes it and changes nothing. *)
Theorem ProcessConfig_failure (fs : FileView) (pc : PlotConfig) :
  pollFails fs ->
  CurrentConfig (fst (ProcessConfig fs pc)) = CurrentConfig pc /\
  forall modTime : Time,
    lstat fs = Some modTime -> LastMod pc <> modTime ->
    In EvOpen (snd (ProcessConfig fs pc)) /\
    LastMod (fst (ProcessConfig fs pc)) = modTime /\
    forall fs' : FileView,
      lstat fs' = Some modTime ->
      ProcessConfig fs' (fst (ProcessConfig fs pc))
      = (fst (ProcessConfig fs pc), [EvLstat]).
Proof.
  intros Hfail. split.
  - unfold ProcessConfig.
    destruct (lstat fs) as [t|] eqn:Hs; [|reflexivity].
    destruct (Time_eqb (LastMod pc) t); [reflexivity|]. simpl.
    destruct (open fs) eqn:Ho; [|reflexivity].
    destruct (decode fs) eqn:Hd; [|reflexivity].
    destruct Hfail as [H|[H|H]]; congruence.
  - intros t Hs Hne. split; [|split].
    + unfold ProcessConfig. apply Time_eqb_neq in Hne. rewrite Hs, Hne.
      simpl. destruct (open fs); [destruct (decode fs)|]; simpl; auto.
    + now apply ProcessConfig_LastMod.
    + intros fs' Hs'. apply ProcessConfig_unchanged_mtime.
      rewrite Hs'. f_equal. symmetry. now apply ProcessConfig_LastMod.
Qed.

Lemma ProcessConfig_failure_witness :
  pollFails brokenFile /\
  CurrentConfig (fst (ProcessConfig brokenFile store0)) = Some config0 /\
  ProcessConfig brokenFile (fst (ProcessConfig brokenFile store0))
  = (fst (ProcessConfig brokenFile store0), [EvLstat]).
Proof.
  assert (Hf : pollFails brokenFile) by (right; right; reflexivity).
  split; [exact Hf|].
  destruct (ProcessConfig_failure brokenFile store0 Hf) as [Hc Hm].
  split; [exact Hc|].
  destruct (Hm (mkTime 200 0 1) eq_refl) as [_ [_ Hnext]].
  - discriminate.
  - apply Hnext. reflexivity.
Defined.

End ConfigStore.

(* ================================================================== *)
(** ** The job supervisor *)

Section JobSupervisor.

Import Plot.

(** *** CheckSpace *)

Lemma minSpace_eq : minSpace = (360 * GiB)%Z.
Proof. reflexivity. Qed.

(** C4. [CheckSpace] answers true exactly when the plot directory and the
    target directory both have at least 360 GiB available.  With 300 GiB
    on either directory it answers false, with 400 GiB on both it
    answers true. *)
Theorem CheckSpace_spec (available : string -> Z) (ap : ActivePlot) :
  (fst (CheckSpace available ap) = true <->
   (360 * GiB <= available (PlotDir ap))%Z /\
   (360 * GiB <= available (TargetDir ap))%Z) /\
  (available (PlotDir ap) = (300 * GiB)%Z \/
   available (TargetDir ap) = (300 * GiB)%Z ->
   fst (CheckSpace available ap) = false) /\
  (available (PlotDir ap) = (400 * GiB)%Z /\
   available (TargetDir ap) = (400 * GiB)%Z ->
   fst (CheckSpace available ap) = true).
Proof.
  assert (Hiff : fst (CheckSpace available ap) = true <->
                 (360 * GiB <= available (PlotDir ap))%Z /\
                 (360 * GiB <= available (TargetDir ap))%Z).
  { unfold CheckSpace. cbv zeta. rewrite minSpace_eq.
    destruct (Z.ltb_spec (available (PlotDir ap)) (360 * GiB)) as [H1|H1].
    { simpl fst. split; [discriminate | intros [? ?]; exfalso; lia]. }
    destruct (Z.ltb_spec (available (TargetDir ap)) (360 * GiB)) as [H2|H2];
      simpl fst; split; try discriminate; auto.
    intros [? ?]; exfalso; lia. }
  split; [exact Hiff|]. split.
  - intros H. destruct (fst (CheckSpace available ap)); [|reflexivity].
    destruct Hiff as [Hiff _]. specialize (Hiff eq_refl).
    unfold GiB in *. lia.
  - intros [H1 H2]. apply Hiff. unfold GiB in *. lia.
Qed.

(** The shortfall is reported for the directory that lacks space. *)
Lemma CheckSpace_logs (available : string -> Z) (ap : ActivePlot) :
  fst (CheckSpace available ap) = false ->
  snd (CheckSpace available ap)
  = [NotEnoughPlotSpace (PlotDir ap) (available (PlotDir ap) / GiB)] \/
  snd (CheckSpace available ap)
  = [NotEnoughTargetSpace (TargetDir ap) (available (TargetDir ap) / GiB)].
Proof.
  unfold CheckSpace.
  destruct (available (PlotDir ap) <? minSpace)%Z; [left; reflexivity|].
  destruct (available (TargetDir ap) <? minSpace)%Z; [right; reflexivity|].
  discriminate.
Qed.

(** *** RunPlot *)

(** The whole argument vector of every run. *)
Lemma RunPlot_command (os : ProcView) (ap : ActivePlot) :
  commandArgs (snd (RunPlot os ap))
  = Some [ "plots"; "create"; "-k32"; "-n1"; "-b6000"; "-u128";
           ("-t" ++ TargetDir ap)%string;
           ("-d" ++ TargetDir ap)%string;
           ("-a" ++ Fingerprint ap)%string ].
Proof.
  unfold RunPlot, RunPlot_body.
  destruct (stderrPipe os), (stdoutPipe os), (run os); reflexivity.
Qed.

(** C1, as amended.  The argument vector of [RunPlot] is the fixed
    template followed by three arguments, of which the destination
    argument [-d] carries the target directory of the job and the
    argument [-a] its fingerprint. *)
Theorem RunPlot_args (os : ProcView) (ap : ActivePlot) :
  exists args : list string,
    commandArgs (snd (RunPlot os ap)) = Some args /\
    List.length args = 9 /\
    firstn 6 args = ["plots"; "create"; "-k32"; "-n1"; "-b6000"; "-u128"] /\
    nth_error args 7 = Some ("-d" ++ TargetDir ap)%string /\
    nth_error args 8 = Some ("-a" ++ Fingerprint ap)%string.
Proof.
  eexists. split; [apply RunPlot_command|]. repeat split.
Qed.

(** C5. [RunPlot] stores the end time on every path.  The state it leaves
    is [PlotError] when a pipe could not be obtained or [cmd.Run]
    returned an error, and [PlotRunning] otherwise; it is never
    [PlotFinished]. *)
Theorem RunPlot_state (os : ProcView) (ap : ActivePlot) :
  EndTime (fst (RunPlot os ap)) = nowEnd os /\
  StartTime (fst (RunPlot os ap)) = nowStart os /\
  State (fst (RunPlot os ap))
  = (if stderrPipe os && stdoutPipe os && run os
     then PlotRunning else PlotError) /\
  State (fst (RunPlot os ap)) <> PlotFinished.
Proof.
  unfold RunPlot, RunPlot_body.
  destruct (stderrPipe os), (stdoutPipe os), (run os); simpl;
    repeat split; discriminate.
Qed.

(** The process is run only when both pipes were obtained. *)
Lemma RunPlot_runs (os : ProcView) (ap : ActivePlot) :
  In EvRun (snd (RunPlot os ap)) <->
  stderrPipe os = true /\ stdoutPipe os = true.
Proof.
  unfold RunPlot, RunPlot_body.
  destruct (stderrPipe os), (stdoutPipe os), (run os); simpl;
    intuition (try discriminate; try congruence).
Qed.

End JobSupervisor.

Section JobExamples.

Import Plot.

Lemma CheckSpace_spec_witness :
  fst (CheckSpace (spaceOf (300 * GiB) (400 * GiB)) job0) = false /\
  fst (CheckSpace (spaceOf (400 * GiB) (300 * GiB)) job0) = false /\
  fst (CheckSpace (spaceOf (400 * GiB) (400 * GiB)) job0) = true.
Proof.
  split; [|split].
  - apply (CheckSpace_spec (spaceOf (300 * GiB) (400 * GiB)) job0).
    left. reflexivity.
  - apply (CheckSpace_spec (spaceOf (400 * GiB) (300 * GiB)) job0).
    right. reflexivity.
  - apply (CheckSpace_spec (spaceOf (400 * GiB) (400 * GiB)) job0).
    split; reflexivity.
Defined.

(** C1, as stated, fails: for a job whose plot directory is [/mnt/tmp]
    and whose target directory is [/mnt/dst], neither the [-t] nor the
    [-d] argument names the plot directory. *)
Lemma RunPlot_args_not_plot_dir :
  commandArgs (snd (RunPlot procOk job0))
  = Some [ "plots"; "create"; "-k32"; "-n1"; "-b6000"; "-u128";
           "-t/mnt/dst"; "-d/mnt/dst"; "-aabcdef" ] /\
  PlotDir job0 = "/mnt/tmp" /\
  ~ (exists args : list string,
       commandArgs (snd (RunPlot procOk job0)) = Some args /\
       In ("-t" ++ PlotDir job0)%string args /\
       In ("-d" ++ PlotDir job0)%string args).
Proof.
  split; [reflexivity|]. split; [reflexivity|].
  intros [args [Hargs [Ht _]]].
  vm_compute in Hargs. injection Hargs as <-.
  simpl in Ht.
  repeat (destruct Ht as [Ht|Ht]; [discriminate Ht|]).
  exact Ht.
Qed.

End JobExamples.

(** *** processLogs *)

Section LogScraping.

Import Plot.

Lemma lastn_length {A : Type} (n : nat) (l : list A) :
  List.length (lastn n l) = Nat.min n (List.length l).
Proof.
  unfold lastn. rewrite length_skipn. lia.
Qed.

Lemma lastn_short {A : Type} (n : nat) (l : list A) :
  List.length l <= n -> lastn n l = l.
Proof.
  intros H. unfold lastn. replace (List.length l - n) with 0 by lia.
  reflexivity.
Qed.

Lemma lastn_app_lastn {A : Type} (n : nat) (l r : list A) :
  lastn n (lastn n l ++ r) = lastn n (l ++ r).
Proof.
  unfold lastn. rewrite !length_app, length_skipn.
  set (k := List.length l - n).
  replace (skipn k l ++ r) with (skipn k (l ++ r)).
  - rewrite skipn_skipn. f_equal. lia.
  - rewrite skipn_app. replace (k - List.length l) with 0 by lia.
    reflexivity.
Qed.

Lemma lastn_app_long {A : Type} (n : nat) (l r : list A) :
  n <= List.length r -> lastn n (l ++ r) = lastn n r.
Proof.
  intros H. unfold lastn. rewrite skipn_app, length_app.
  rewrite skipn_all2 by lia. simpl. f_equal. lia.
Qed.

Lemma appendTail_lastn (s : string) (tail : list string) :
  appendTail s tail = lastn 10 (tail ++ [s]).
Proof.
  unfold appendTail, lastn.
  destruct (Nat.ltb_spec 10 (List.length (tail ++ [s]))) as [H|H].
  - reflexivity.
  - replace (List.length (tail ++ [s]) - 10) with 0 by lia. reflexivity.
Qed.

Lemma prefix_length (p s : string) :
  prefix p s = true -> String.length p <= String.length s.
Proof.
  revert s. induction p as [|c p IH]; intros s H; simpl.
  - lia.
  - destruct s as [|c' s]; simpl in H; [discriminate|].
    destruct (ascii_dec c c'); [|discriminate].
    apply IH in H. simpl. lia.
Qed.

Lemma slice_in_bounds (s : string) (lo hi : nat) :
  lo <= hi -> hi <= String.length s ->
  slice s lo hi = Ok (substring lo (hi - lo) s).
Proof.
  intros H1 H2. unfold slice.
  apply Nat.leb_le in H1, H2. now rewrite H1, H2.
Qed.

Lemma slice_out_of_bounds (s : string) (lo hi : nat) :
  String.length s < hi -> slice s lo hi = Panic sliceOutOfRange.
Proof.
  intros H. unfold slice. apply Nat.leb_gt in H. now rewrite H.
Qed.

(** What one line does to the job, when the phase slice is in bounds. *)
Lemma processLine_ok (s : string) (ap : ActivePlot) :
  phaseInBounds s ->
  processLine s ap =
    Ok (mkActivePlot (PlotId ap) (StartTime ap) (EndTime ap)
          (TargetDir ap) (PlotDir ap) (Fingerprint ap)
          (if HasPrefix s "Starting phase " then substring 15 3 s
           else Phase ap)
          (appendTail s (Tail ap)) (State ap)
          (if HasPrefix s "ID: "
           then substring 4 (String.length s - 4) s else Id ap)).
Proof.
  intros Hb. unfold processLine, phaseInBounds in *.
  destruct (HasPrefix s "Starting phase ") eqn:Hp.
  - rewrite (slice_in_bounds s 15 18) by (auto; lia). simpl.
    destruct (HasPrefix s "ID: ") eqn:Hi; [|reflexivity].
    unfold sliceFrom. apply prefix_length in Hi. simpl in Hi.
    rewrite slice_in_bounds by lia. reflexivity.
  - simpl. destruct (HasPrefix s "ID: ") eqn:Hi.
    + unfold sliceFrom. apply prefix_length in Hi. simpl in Hi.
      rewrite slice_in_bounds by lia. destruct ap; reflexivity.
    + destruct ap; reflexivity.
Qed.

(** A phase announcement too short for its code stops the scraper. *)
Lemma processLine_short_phase (s : string) (ap : ActivePlot) :
  HasPrefix s "Starting phase " = true -> String.length s < 18 ->
  processLine s ap = Panic sliceOutOfRange.
Proof.
  intros Hp Hl. unfold processLine. rewrite Hp.
  now rewrite slice_out_of_bounds.
Qed.

Lemma processLine_Tail (s : string) (ap ap' : ActivePlot) :
  processLine s ap = Ok ap' -> Tail ap' = appendTail s (Tail ap).
Proof.
  unfold processLine. intros H.
  destruct (HasPrefix s "Starting phase ");
    [destruct (slice s 15 18); simpl in H; try discriminate|];
    simpl in H;
    (destruct (HasPrefix s "ID: ");
     [destruct (sliceFrom s 4); simpl in H; try discriminate|]);
    simpl in H; injection H as <-; reflexivity.
Qed.

Lemma processLines_ok (lines : list string) (ap : ActivePlot) :
  Forall phaseInBounds lines -> exists ap', processLines lines ap = Ok ap'.
Proof.
  intros H. revert ap. induction H as [|s lines Hs _ IH]; intros ap; simpl.
  - now exists ap.
  - rewrite (processLine_ok s ap Hs). simpl. apply IH.
Qed.

Lemma processLines_Tail (lines : list string) (ap ap' : ActivePlot) :
  List.length (Tail ap) <= 10 ->
  processLines lines ap = Ok ap' ->
  Tail ap' = lastn 10 (Tail ap ++ lines).
Proof.
  revert ap. induction lines as [|s lines IH]; intros ap Hlen H; simpl in H.
  - injection H as <-. rewrite app_nil_r. symmetry. now apply lastn_short.
  - destruct (processLine s ap) as [ap1| |] eqn:E; simpl in H;
      try discriminate.
    apply processLine_Tail in E. rewrite appendTail_lastn in E.
    apply IH in H; [|rewrite E, lastn_length; lia].
    rewrite H, E, lastn_app_lastn.
    change (s :: lines) with ([s] ++ lines). now rewrite app_assoc.
Qed.

(** C3. Whatever lines are appended, one after the other, to a tail of at
    most ten entries, the scraper gets through them (phase announcements
    being long enough for their code) and leaves a tail of at most ten
    entries; after more than ten lines the tail is exactly the last ten
    of them, in the order they arrived. *)
Theorem processLines_tail (lines : list string) (ap : ActivePlot) :
  List.length (Tail ap) <= 10 ->
  Forall phaseInBounds lines ->
  exists ap' : ActivePlot,
    processLines lines ap = Ok ap' /\
    List.length (Tail ap') <= 10 /\
    Tail ap' = lastn 10 (Tail ap ++ lines) /\
    (10 < List.length lines ->
     Tail ap' = skipn (List.length lines - 10) lines).
Proof.
  intros Hlen Hb.
  destruct (processLines_ok lines ap Hb) as [ap' Hok].
  exists ap'. split; [exact Hok|].
  apply processLines_Tail in Hok; [|exact Hlen].
  split; [|split].
  - rewrite Hok, lastn_length. lia.
  - exact Hok.
  - intros Hlong. rewrite Hok. apply lastn_app_long. lia.
Qed.

End LogScraping.

Section LogExamples.

Import Plot.

Lemma processLines_tail_witness :
  exists ap' : ActivePlot,
    processLines elevenLines job0 = Ok ap' /\
    Tail ap' = skipn 1 elevenLines.
Proof.
  assert (Hb : Forall phaseInBounds elevenLines).
  { unfold elevenLines. simpl map.
    repeat (constructor; [intros H; cbv in H; discriminate H|]).
    constructor. }
  destruct (processLines_tail elevenLines job0 (Nat.le_0_l 10) Hb)
    as [ap' [Hok [_ [_ Hlast]]]].
  exists ap'. split; [exact Hok|].
  apply Hlast. simpl. lia.
Defined.

(** Every line the reader hands to the loop body ends with its
    delimiter. *)
Lemma readLines_terminated (input acc : string) :
  Forall (fun s => exists body : string, s = (body ++ nl)%string)
    (readLines acc input).
Proof.
  revert acc. induction input as [|c rest IH]; intros acc; simpl.
  - constructor.
  - destruct (Ascii.eqb c newline).
    + constructor; [now exists acc | apply IH].
    + apply IH.
Qed.

(** Bytes after the last delimiter are never looked at. *)
Lemma readLines_unterminated (input : string) :
  (forall c, In c (list_ascii_of_string input) -> c <> newline) ->
  forall acc, readLines acc input = [].
Proof.
  induction input as [|c rest IH]; intros H acc; simpl; [reflexivity|].
  destruct (Ascii.eqb_spec c newline) as [->|_].
  - exfalso. apply (H newline); simpl; auto.
  - apply IH. intros c' Hc'. apply H. simpl. auto.
Qed.

(** C2 on the code.  The stream [Starting phase 2/6], [ID: abc123], each
    line ended by a newline, sets the phase to [2/6], but the identifier
    to [abc123] followed by the newline: the reader keeps the delimiter
    and [s[4:]] runs to the end of the line.  The same identifier line
    without its newline is never processed. *)
Theorem processLogs_id_keeps_delimiter :
  (exists ap' : ActivePlot,
     processLogs ("Starting phase 2/6" ++ nl ++ "ID: abc123" ++ nl) job0
     = Ok ap' /\
     Phase ap' = "2/6" /\
     Id ap' = ("abc123" ++ nl)%string /\
     Id ap' <> "abc123") /\
  processLogs "ID: abc123" job0 = Ok job0.
Proof.
  split; [|reflexivity].
  eexists. split; [reflexivity|].
  split; [reflexivity|]. split; [reflexivity|]. discriminate.
Qed.

End LogExamples.

Section LogMarkers.

Import Plot.

(** A phase announcement of at least 18 bytes sets the phase to the
    bytes 15, 16 and 17 of the line. *)
Lemma processLine_phase (s : string) (ap : ActivePlot) :
  HasPrefix s "Starting phase " = true -> 18 <= String.length s ->
  exists ap' : ActivePlot,
    processLine s ap = Ok ap' /\ Phase ap' = substring 15 3 s.
Proof.
  intros Hp Hl. eexists. split.
  - apply processLine_ok. intros _. exact Hl.
  - simpl. now rewrite Hp.
Qed.

Lemma prefix_app (p s : string) : prefix p (p ++ s) = true.
Proof.
  induction p as [|c p IH]; simpl.
  - now destruct s.
  - destruct (ascii_dec c c); [exact IH|congruence].
Qed.

Lemma substring_after_prefix (p s : string) :
  substring (String.length p) (String.length (p ++ s) - String.length p)
    (p ++ s) = s.
Proof.
  induction p as [|c p IH]; simpl.
  - rewrite Nat.sub_0_r. clear.
    induction s as [|c s IH]; simpl; [reflexivity|now rewrite IH].
  - exact IH.
Qed.

(** An identifier announcement sets the identifier to everything after
    the marker, the delimiter of the line included. *)
Lemma processLine_id (body : string) (ap : ActivePlot) :
  exists ap' : ActivePlot,
    processLine ("ID: " ++ body) ap = Ok ap' /\ Id ap' = body.
Proof.
  assert (Hb : phaseInBounds ("ID: " ++ body)) by (intros H; discriminate H).
  eexists. split; [apply (processLine_ok _ ap Hb)|].
  unfold Id, HasPrefix. rewrite (prefix_app "ID: " body).
  exact (substring_after_prefix "ID: " body).
Qed.

End LogMarkers.

(* ================================================================== *)
(** ** sort.SliceStable only moves elements *)

Lemma bind_Ok {A B : Type} (r : result A) (k : A -> result B) (b : B) :
  bind r k = Ok b -> exists a : A, r = Ok a /\ k a = Ok b.
Proof.
  destruct r as [a| |]; simpl; intros H; try discriminate. now exists a.
Qed.

Ltac bind_inv H :=
  let a := fresh "a" in
  let Ha := fresh "Ha" in
  apply bind_Ok in H; destruct H as [a [Ha H]].

Section SortFacts.

Context {A : Type}.
Variable less : A -> A -> result bool.

Lemma set_nth_length (i : nat) (x : A) (l : list A) :
  List.length (set_nth i x l) = List.length l.
Proof.
  revert i. induction l as [|h t IH]; intros [|i]; simpl; auto.
Qed.

Lemma nth_error_set_nth_eq (i : nat) (x : A) (l : list A) :
  i < List.length l -> nth_error (set_nth i x l) i = Some x.
Proof.
  revert i. induction l as [|h t IH]; intros [|i] H; simpl in *;
    try lia; auto.
  apply IH. lia.
Qed.

Lemma nth_error_set_nth_neq (i j : nat) (x : A) (l : list A) :
  i <> j -> nth_error (set_nth i x l) j = nth_error l j.
Proof.
  revert i j. induction l as [|h t IH]; intros [|i] [|j] H; simpl;
    try congruence; auto.
Qed.

Lemma set_nth_Permutation (i : nat) (x y : A) (l : list A) :
  nth_error l i = Some x -> Permutation (y :: l) (x :: set_nth i y l).
Proof.
  revert i. induction l as [|h t IH]; intros [|i] H; simpl in *;
    try discriminate.
  - injection H as ->. apply perm_swap.
  - apply IH in H.
    eapply perm_trans; [apply perm_swap|].
    eapply perm_trans; [apply perm_skip, H|]. apply perm_swap.
Qed.

Lemma Swap_Permutation (d d' : list A) (i j : nat) :
  Swap d i j = Ok d' -> Permutation d d'.
Proof.
  unfold Swap. intros H.
  destruct (nth_error d i) as [x|] eqn:Hi; [|discriminate].
  destruct (nth_error d j) as [y|] eqn:Hj; [|discriminate].
  injection H as <-.
  apply (Permutation_cons_inv (a := y)).
  eapply perm_trans; [apply (set_nth_Permutation i x y d Hi)|].
  apply (set_nth_Permutation j y x).
  destruct (Nat.eq_dec i j) as [->|Hne].
  - apply nth_error_set_nth_eq. apply nth_error_Some. congruence.
  - now rewrite nth_error_set_nth_neq.
Qed.

Lemma insertDown_Permutation (a j : nat) (d d' : list A) :
  insertDown less a j d = Ok d' -> Permutation d d'.
Proof.
  revert d. induction j as [|j IH]; intros d H.
  - injection H as <-. reflexivity.
  - change (insertDown less a (S j) d) with
      (if S j <=? a then Ok d
       else lt <- Less less d (S j) j ;;
            if lt : bool
            then d <- Swap d (S j) j ;; insertDown less a j d
            else Ok d) in H.
    destruct (S j <=? a); [injection H as <-; reflexivity|].
    bind_inv H. destruct a0.
    + bind_inv H. apply Swap_Permutation in Ha0. apply IH in H.
      now rewrite Ha0.
    + injection H as <-. reflexivity.
Qed.

Lemma insertionSort_loop_Permutation (count i a : nat) (d d' : list A) :
  insertionSort_loop less count i a d = Ok d' -> Permutation d d'.
Proof.
  revert i d. induction count as [|count IH]; intros i d H; simpl in H.
  - injection H as <-. reflexivity.
  - bind_inv H. apply insertDown_Permutation in Ha. apply IH in H.
    now rewrite Ha.
Qed.

Lemma insertionSort_Permutation (a b : nat) (d d' : list A) :
  insertionSort less a b d = Ok d' -> Permutation d d'.
Proof.
  apply insertionSort_loop_Permutation.
Qed.

Lemma swapUp_Permutation (count k : nat) (d d' : list A) :
  swapUp count k d = Ok d' -> Permutation d d'.
Proof.
  revert k d. induction count as [|count IH]; intros k d H; simpl in H.
  - injection H as <-. reflexivity.
  - bind_inv H. apply Swap_Permutation in Ha. apply IH in H.
    now rewrite Ha.
Qed.

Lemma swapDown_Permutation (count k : nat) (d d' : list A) :
  swapDown count k d = Ok d' -> Permutation d d'.
Proof.
  revert k d. induction count as [|count IH]; intros k d H; simpl in H.
  - injection H as <-. reflexivity.
  - bind_inv H. apply Swap_Permutation in Ha. apply IH in H.
    now rewrite Ha.
Qed.

Lemma swapRange_Permutation (a b n : nat) (d d' : list A) :
  swapRange a b n d = Ok d' -> Permutation d d'.
Proof.
  revert a b d. induction n as [|n IH]; intros a b d H; simpl in H.
  - injection H as <-. reflexivity.
  - bind_inv H. apply Swap_Permutation in Ha. apply IH in H.
    now rewrite Ha.
Qed.

Lemma rotate_loop_Permutation (fuel m i j : nat) (d d' : list A) :
  rotate_loop fuel m i j d = Ok d' -> Permutation d d'.
Proof.
  revert i j d. induction fuel as [|fuel IH]; intros i j d H; simpl in H.
  - destruct (i =? j); [|discriminate].
    now apply swapRange_Permutation in H.
  - destruct (i =? j); [now apply swapRange_Permutation in H|].
    destruct (j <? i); bind_inv H; apply swapRange_Permutation in Ha;
      apply IH in H; now rewrite Ha.
Qed.

Lemma symMerge_Permutation (fuel a m b : nat) (d d' : list A) :
  symMerge less fuel a m b d = Ok d' -> Permutation d d'.
Proof.
  revert a m b d d'.
  induction fuel as [|fuel IH]; intros a m b d d' H; simpl in H;
    [discriminate|].
  destruct (m - a =? 1).
  { bind_inv H. now apply swapUp_Permutation in H. }
  destruct (b - m =? 1).
  { bind_inv H. now apply swapDown_Permutation in H. }
  bind_inv H. bind_inv H. bind_inv H.
  assert (P1 : Permutation d a1).
  { destruct (_ && _) in Ha0.
    - now apply rotate_loop_Permutation in Ha0.
    - injection Ha0 as <-. reflexivity. }
  assert (P2 : Permutation a1 a2).
  { destruct (_ && _) in Ha1.
    - now apply IH in Ha1.
    - injection Ha1 as <-. reflexivity. }
  assert (P3 : Permutation a2 d').
  { destruct (_ && _) in H.
    - now apply IH in H.
    - injection H as <-. reflexivity. }
  now rewrite P1, P2.
Qed.

Lemma insertBlocks_Permutation (fuel a b blockSize n : nat)
  (d d' : list A) (a' : nat) :
  insertBlocks less fuel a b blockSize n d = Ok (d', a') ->
  Permutation d d'.
Proof.
  revert a b d. induction fuel as [|fuel IH]; intros a b d H; simpl in H.
  - destruct (b <=? n); [discriminate|]. injection H as <- _. reflexivity.
  - destruct (b <=? n); [|injection H as <- _; reflexivity].
    bind_inv H. apply insertionSort_Permutation in Ha. apply IH in H.
    now rewrite Ha.
Qed.

Lemma mergeBlocks_Permutation (fuel a b blockSize n : nat)
  (d d' : list A) (a' : nat) :
  mergeBlocks less fuel a b blockSize n d = Ok (d', a') ->
  Permutation d d'.
Proof.
  revert a b d. induction fuel as [|fuel IH]; intros a b d H; simpl in H.
  - destruct (b <=? n); [discriminate|]. injection H as <- _. reflexivity.
  - destruct (b <=? n); [|injection H as <- _; reflexivity].
    bind_inv H. apply symMerge_Permutation in Ha. apply IH in H.
    now rewrite Ha.
Qed.

Lemma mergeRounds_Permutation (fuel blockSize n : nat) (d d' : list A) :
  mergeRounds less fuel blockSize n d = Ok d' -> Permutation d d'.
Proof.
  revert blockSize d. induction fuel as [|fuel IH]; intros blockSize d H;
    simpl in H.
  - destruct (blockSize <? n); [discriminate|]. injection H as <-.
    reflexivity.
  - destruct (blockSize <? n); [|injection H as <-; reflexivity].
    bind_inv H. destruct a as [d1 a1]. bind_inv H.
    apply mergeBlocks_Permutation in Ha. apply IH in H.
    assert (P : Permutation d1 a).
    { destruct (_ <? _) in Ha0.
      - now apply symMerge_Permutation in Ha0.
      - injection Ha0 as <-. reflexivity. }
    now rewrite Ha, P.
Qed.

(** Whatever the comparator answers, a sort that returns has permuted
    the slice. *)
Lemma stable_Permutation (d d' : list A) :
  stable less d = Ok d' -> Permutation d d'.
Proof.
  unfold stable. intros H.
  bind_inv H. destruct a as [d1 a1]. bind_inv H.
  apply insertBlocks_Permutation in Ha.
  apply insertionSort_Permutation in Ha0.
  apply mergeRounds_Permutation in H.
  now rewrite Ha, Ha0.
Qed.

(** On two elements the sort is one comparison of the second with the
    first. *)
Lemma stable_two (x y : A) (lt : bool) :
  less y x = Ok lt ->
  stable less [x; y] = Ok (if lt then [y; x] else [x; y]).
Proof.
  intros H. unfold stable. simpl.
  unfold insertionSort, insertionSort_loop, insertDown, Less. simpl.
  rewrite H. destruct lt; reflexivity.
Qed.

End SortFacts.

(* ================================================================== *)
(** ** sort.SliceStable returns *)

Section SortReturns.

Context {A : Type}.
Variable less : A -> A -> result bool.
Variable P : A -> Prop.
Hypothesis less_returns :
  forall x y : A, P x -> P y -> exists lt : bool, less x y = Ok lt.

Lemma Less_returns (n : nat) (d : list A) (i j : nat) :
  comparable P n d -> i < n -> j < n ->
  exists lt : bool, Less less d i j = Ok lt.
Proof.
  intros [Hlen HP] Hi Hj. unfold Less.
  destruct (nth_error d i) as [x|] eqn:Ex;
    [|apply nth_error_None in Ex; lia].
  destruct (nth_error d j) as [y|] eqn:Ey;
    [|apply nth_error_None in Ey; lia].
  rewrite Forall_forall in HP.
  apply less_returns; apply HP; eapply nth_error_In; eauto.
Qed.

Lemma Swap_returns (n : nat) (d : list A) (i j : nat) :
  comparable P n d -> i < n -> j < n ->
  exists d' : list A, Swap d i j = Ok d' /\ comparable P n d'.
Proof.
  intros [Hlen HP] Hi Hj.
  destruct (Swap d i j) as [d'| |] eqn:E.
  - exists d'. split; [reflexivity|]. split.
    + unfold Swap in E.
      destruct (nth_error d i), (nth_error d j); try discriminate.
      injection E as <-. now rewrite !set_nth_length.
    + apply Swap_Permutation in E. eapply Permutation_Forall; eauto.
  - unfold Swap in E.
    destruct (nth_error d i) eqn:Ex; [|apply nth_error_None in Ex; lia].
    destruct (nth_error d j) eqn:Ey; [|apply nth_error_None in Ey; lia].
    discriminate.
  - unfold Swap in E.
    destruct (nth_error d i), (nth_error d j); discriminate.
Qed.

Lemma insertDown_returns (n a j : nat) (d : list A) :
  comparable P n d -> j < n ->
  exists d' : list A, insertDown less a j d = Ok d' /\ comparable P n d'.
Proof.
  revert d. induction j as [|j IH]; intros d Hd Hj.
  - exists d. auto.
  - change (insertDown less a (S j) d) with
      (if S j <=? a then Ok d
       else lt <- Less less d (S j) j ;;
            if lt : bool
            then d <- Swap d (S j) j ;; insertDown less a j d
            else Ok d).
    destruct (S j <=? a); [exists d; auto|].
    destruct (Less_returns n d (S j) j Hd) as [lt ->]; try lia. simpl.
    destruct lt; [|exists d; auto].
    destruct (Swap_returns n d (S j) j Hd) as [d1 [-> Hd1]]; try lia.
    simpl. apply IH; [exact Hd1|lia].
Qed.

Lemma insertionSort_loop_returns (n count i a : nat) (d : list A) :
  comparable P n d -> (0 < count -> i + count <= n) ->
  exists d' : list A,
    insertionSort_loop less count i a d = Ok d' /\ comparable P n d'.
Proof.
  revert i d. induction count as [|count IH]; intros i d Hd Hn; simpl.
  - exists d. auto.
  - destruct (insertDown_returns n a i d Hd) as [d1 [-> Hd1]]; [lia|].
    simpl. apply IH; [exact Hd1|lia].
Qed.

Lemma insertionSort_returns (n a b : nat) (d : list A) :
  comparable P n d -> b <= n ->
  exists d' : list A, insertionSort less a b d = Ok d' /\ comparable P n d'.
Proof.
  intros Hd Hb. apply insertionSort_loop_returns; [exact Hd|lia].
Qed.

Lemma bsearch_eq (fuel : nat) (cond : nat -> result bool) (i j : nat) :
  bsearch fuel cond i j =
  if i <? j then
    match fuel with
    | 0 => OutOfFuel
    | S fuel' =>
        c <- cond ((i + j) / 2) ;;
        if c : bool then bsearch fuel' cond ((i + j) / 2 + 1) j
        else bsearch fuel' cond i ((i + j) / 2)
    end
  else Ok i.
Proof. destruct fuel; reflexivity. Qed.

Lemma half_between (i j : nat) : i < j -> i <= (i + j) / 2 < j.
Proof.
  intros H. pose proof (Nat.div_mod_eq (i + j) 2) as E.
  pose proof (Nat.mod_upper_bound (i + j) 2). lia.
Qed.

Lemma bsearch_returns (fuel : nat) (cond : nat -> result bool) (i j : nat) :
  (forall h, i <= h < j -> exists c : bool, cond h = Ok c) ->
  i <= j -> j - i <= fuel ->
  exists r : nat, bsearch fuel cond i j = Ok r /\ i <= r <= j.
Proof.
  revert i j. induction fuel as [|fuel IH]; intros i j Hc Hij Hf;
    rewrite bsearch_eq.
  - replace (i <? j) with false by (symmetry; apply Nat.ltb_ge; lia).
    exists i. split; [reflexivity|lia].
  - destruct (Nat.ltb_spec i j) as [Hlt|Hge];
      [|exists i; split; [reflexivity|lia]].
    pose proof (half_between i j Hlt) as Hh.
    destruct (Hc ((i + j) / 2) Hh) as [c ->]. cbn [bind].
    destruct c.
    + destruct (IH ((i + j) / 2 + 1) j) as [r [-> Hr]]; try lia.
      { intros h Hh'. apply Hc. lia. }
      exists r. split; [reflexivity|lia].
    + destruct (IH i ((i + j) / 2)) as [r [-> Hr]]; try lia.
      { intros h Hh'. apply Hc. lia. }
      exists r. split; [reflexivity|lia].
Qed.

Lemma swapUp_returns (n count k : nat) (d : list A) :
  comparable P n d -> (0 < count -> k + count < n) ->
  exists d' : list A, swapUp count k d = Ok d' /\ comparable P n d'.
Proof.
  revert k d. induction count as [|count IH]; intros k d Hd Hn; simpl.
  - exists d. auto.
  - destruct (Swap_returns n d k (k + 1) Hd) as [d1 [-> Hd1]]; try lia.
    simpl. apply IH; [exact Hd1|lia].
Qed.

Lemma swapDown_returns (n count k : nat) (d : list A) :
  comparable P n d -> (0 < count -> k < n) ->
  exists d' : list A, swapDown count k d = Ok d' /\ comparable P n d'.
Proof.
  revert k d. induction count as [|count IH]; intros k d Hd Hn; simpl.
  - exists d. auto.
  - destruct (Swap_returns n d k (k - 1) Hd) as [d1 [-> Hd1]]; try lia.
    simpl. apply IH; [exact Hd1|lia].
Qed.

Lemma swapRange_returns (n a b count : nat) (d : list A) :
  comparable P n d -> a + count <= n -> b + count <= n ->
  exists d' : list A, swapRange a b count d = Ok d' /\ comparable P n d'.
Proof.
  revert a b d. induction count as [|count IH]; intros a b d Hd Ha Hb; simpl.
  - exists d. auto.
  - destruct (Swap_returns n d a b Hd) as [d1 [-> Hd1]]; try lia.
    simpl. apply IH; [exact Hd1|lia|lia].
Qed.

Lemma rotate_loop_eq (fuel m i j : nat) (d : list A) :
  rotate_loop fuel m i j d =
  if i =? j then swapRange (m - i) m i d
  else
    match fuel with
    | 0 => OutOfFuel
    | S fuel' =>
        if j <? i then
          d <- swapRange (m - i) m j d ;; rotate_loop fuel' m (i - j) j d
        else
          d <- swapRange (m - i) (m + j - i) i d ;;
          rotate_loop fuel' m i (j - i) d
    end.
Proof. destruct fuel; reflexivity. Qed.

Lemma rotate_loop_returns (n fuel m i j : nat) (d : list A) :
  comparable P n d -> 0 < i -> 0 < j -> i <= m -> m + j <= n ->
  i + j <= fuel ->
  exists d' : list A, rotate_loop fuel m i j d = Ok d' /\ comparable P n d'.
Proof.
  revert i j d. induction fuel as [|fuel IH]; intros i j d Hd Hi Hj Him Hmj Hf;
    [lia|].
  rewrite rotate_loop_eq.
  destruct (Nat.eqb_spec i j) as [->|Hne].
  - apply swapRange_returns; [exact Hd|lia|lia].
  - destruct (Nat.ltb_spec j i) as [Hlt|Hge].
    + destruct (swapRange_returns n (m - i) m j d Hd) as [d1 [-> Hd1]];
        try lia.
      simpl. apply IH; try lia. exact Hd1.
    + destruct (swapRange_returns n (m - i) (m + j - i) i d Hd)
        as [d1 [-> Hd1]]; try lia.
      simpl. apply IH; try lia. exact Hd1.
Qed.

Lemma rotate_returns (n a m b : nat) (d : list A) :
  comparable P n d -> a < m -> m < b -> b <= n ->
  exists d' : list A, rotate a m b d = Ok d' /\ comparable P n d'.
Proof.
  intros Hd Ham Hmb Hbn. unfold rotate.
  apply rotate_loop_returns; try lia. exact Hd.
Qed.


Lemma symMerge_eq (fuel a m b : nat) (d : list A) :
  symMerge less (S fuel) a m b d =
  if m - a =? 1 then
    i <- bsearch (b - m) (fun h => Less less d h a) m b ;;
    swapUp (i - 1 - a) a d
  else if b - m =? 1 then
    i <- bsearch (m - a)
           (fun h => lt <- Less less d m h ;; Ok (negb lt)) a m ;;
    swapDown (m - i) m d
  else
    let mid := (a + b) / 2 in
    let n := mid + m in
    let start := if mid <? m then n - b else a in
    let r := if mid <? m then mid else m in
    let p := n - 1 in
    start <- bsearch (r - start)
               (fun c => lt <- Less less d (p - c) c ;; Ok (negb lt))
               start r ;;
    let end_ := n - start in
    d <- (if (start <? m) && (m <? end_)
          then rotate start m end_ d else Ok d) ;;
    d <- (if (a <? start) && (start <? mid)
          then symMerge less fuel a start mid d else Ok d) ;;
    if (mid <? end_) && (end_ <? b)
    then symMerge less fuel mid end_ b d else Ok d.
Proof. reflexivity. Qed.

Lemma symMerge_returns (n fuel a m b : nat) (d : list A) :
  comparable P n d -> a < m -> m < b -> b <= n -> b - a <= fuel ->
  exists d' : list A, symMerge less fuel a m b d = Ok d' /\ comparable P n d'.
Proof.
  revert a m b d.
  induction fuel as [|fuel IH]; intros a m b d Hd Ham Hmb Hbn Hf; [lia|].
  rewrite symMerge_eq.
  destruct (Nat.eqb_spec (m - a) 1) as [E1|E1].
  { destruct (bsearch_returns (b - m) (fun h => Less less d h a) m b)
      as [i [-> Hi]]; try lia.
    { intros h Hh. apply (Less_returns n); [exact Hd|lia|lia]. }
    cbn [bind]. apply swapUp_returns; [exact Hd|lia]. }
  destruct (Nat.eqb_spec (b - m) 1) as [E2|E2].
  { destruct (bsearch_returns (m - a)
                (fun h => lt <- Less less d m h ;; Ok (negb lt)) a m)
      as [i [-> Hi]]; try lia.
    { intros h Hh.
      destruct (Less_returns n d m h Hd) as [lt ->]; try lia.
      cbn [bind]. eauto. }
    cbn [bind]. apply swapDown_returns; [exact Hd|lia]. }
  pose proof (Nat.div_mod_eq (a + b) 2) as Ediv.
  pose proof (Nat.mod_upper_bound (a + b) 2 ltac:(lia)) as Emod.
  cbv zeta.
  set (mid := (a + b) / 2) in *.
  set (start := if mid <? m then mid + m - b else a).
  set (r := if mid <? m then mid else m).
  assert (Hsr : start <= r /\ r <= m /\ r <= mid /\ a <= start /\
                mid + m - start <= b).
  { subst start r. destruct (Nat.ltb_spec mid m); lia. }
  destruct (bsearch_returns (r - start)
              (fun c => lt <- Less less d (mid + m - 1 - c) c ;; Ok (negb lt))
              start r) as [s [-> Hs]]; try lia.
  { intros c Hc.
    destruct (Less_returns n d (mid + m - 1 - c) c Hd) as [lt ->].
    - subst start r. destruct (Nat.ltb_spec mid m); lia.
    - lia.
    - cbn [bind]. eauto. }
  cbn [bind].
  assert (Hend : mid + m - s <= b) by lia.
  assert (H1 : exists d1 : list A,
             (if (s <? m) && (m <? mid + m - s)
              then rotate s m (mid + m - s) d else Ok d) = Ok d1 /\
             comparable P n d1).
  { destruct (Nat.ltb_spec s m), (Nat.ltb_spec m (mid + m - s));
      cbn [andb]; eauto.
    apply rotate_returns; [exact Hd|lia|lia|lia]. }
  destruct H1 as [d1 [-> Hd1]]. cbn [bind].
  assert (H2 : exists d2 : list A,
             (if (a <? s) && (s <? mid)
              then symMerge less fuel a s mid d1 else Ok d1) = Ok d2 /\
             comparable P n d2).
  { destruct (Nat.ltb_spec a s), (Nat.ltb_spec s mid); cbn [andb]; eauto.
    apply IH; [exact Hd1|lia|lia|lia|lia]. }
  destruct H2 as [d2 [-> Hd2]]. cbn [bind].
  destruct (Nat.ltb_spec mid (mid + m - s)), (Nat.ltb_spec (mid + m - s) b);
    cbn [andb]; eauto.
  apply IH; [exact Hd2|lia|lia|lia|lia].
Qed.

Lemma insertBlocks_eq (fuel a b blockSize n : nat) (d : list A) :
  insertBlocks less fuel a b blockSize n d =
  if b <=? n then
    match fuel with
    | 0 => OutOfFuel
    | S fuel' =>
        d <- insertionSort less a b d ;;
        insertBlocks less fuel' b (b + blockSize) blockSize n d
    end
  else Ok (d, a).
Proof. destruct fuel; reflexivity. Qed.

Lemma insertBlocks_returns (n fuel a b blockSize : nat) (d : list A) :
  comparable P n d -> 0 < blockSize -> n < fuel + b ->
  exists (d' : list A) (a' : nat),
    insertBlocks less fuel a b blockSize n d = Ok (d', a') /\
    comparable P n d'.
Proof.
  revert a b d. induction fuel as [|fuel IH]; intros a b d Hd Hbs Hf;
    rewrite insertBlocks_eq.
  - replace (b <=? n) with false by (symmetry; apply Nat.leb_gt; lia).
    eauto.
  - destruct (Nat.leb_spec b n) as [Hle|Hgt]; [|eauto].
    destruct (insertionSort_returns n a b d Hd Hle) as [d1 [-> Hd1]].
    cbn [bind]. apply IH; [exact Hd1|lia|lia].
Qed.

Lemma mergeBlocks_eq (fuel a b blockSize n : nat) (d : list A) :
  mergeBlocks less fuel a b blockSize n d =
  if b <=? n then
    match fuel with
    | 0 => OutOfFuel
    | S fuel' =>
        d <- symMerge less (b - a) a (a + blockSize) b d ;;
        mergeBlocks less fuel' b (b + 2 * blockSize) blockSize n d
    end
  else Ok (d, a).
Proof. destruct fuel; reflexivity. Qed.

Lemma mergeBlocks_returns (n fuel a b blockSize : nat) (d : list A) :
  comparable P n d -> 0 < blockSize -> b = a + 2 * blockSize ->
  n < fuel + b ->
  exists (d' : list A) (a' : nat),
    mergeBlocks less fuel a b blockSize n d = Ok (d', a') /\
    comparable P n d'.
Proof.
  revert a b d. induction fuel as [|fuel IH]; intros a b d Hd Hbs Hb Hf;
    rewrite mergeBlocks_eq.
  - replace (b <=? n) with false by (symmetry; apply Nat.leb_gt; lia).
    eauto.
  - destruct (Nat.leb_spec b n) as [Hle|Hgt]; [|eauto].
    destruct (symMerge_returns n (b - a) a (a + blockSize) b d Hd)
      as [d1 [-> Hd1]]; try lia.
    cbn [bind]. apply IH; [exact Hd1|lia|lia|lia].
Qed.

Lemma mergeRounds_eq (fuel blockSize n : nat) (d : list A) :
  mergeRounds less fuel blockSize n d =
  if blockSize <? n then
    match fuel with
    | 0 => OutOfFuel
    | S fuel' =>
        da <- mergeBlocks less n 0 (2 * blockSize) blockSize n d ;;
        let '(d, a) := da in
        let m := a + blockSize in
        d <- (if m <? n then symMerge less (n - a) a m n d else Ok d) ;;
        mergeRounds less fuel' (2 * blockSize) n d
    end
  else Ok d.
Proof. destruct fuel; reflexivity. Qed.

Lemma mergeRounds_returns (n fuel blockSize : nat) (d : list A) :
  comparable P n d -> 0 < blockSize -> n < fuel + blockSize ->
  exists d' : list A,
    mergeRounds less fuel blockSize n d = Ok d' /\ comparable P n d'.
Proof.
  revert blockSize d.
  induction fuel as [|fuel IH]; intros blockSize d Hd Hbs Hf;
    rewrite mergeRounds_eq.
  - replace (blockSize <? n) with false
      by (symmetry; apply Nat.ltb_ge; lia).
    eauto.
  - destruct (Nat.ltb_spec blockSize n) as [Hlt|Hge]; [|eauto].
    destruct (mergeBlocks_returns n n 0 (2 * blockSize) blockSize d Hd)
      as [d1 [a1 [-> Hd1]]]; try lia.
    cbn [bind]. cbv zeta.
    assert (H1 : exists d2 : list A,
               (if a1 + blockSize <? n
                then symMerge less (n - a1) a1 (a1 + blockSize) n d1
                else Ok d1) = Ok d2 /\ comparable P n d2).
    { destruct (Nat.ltb_spec (a1 + blockSize) n); [|eauto].
      apply symMerge_returns; [exact Hd1|lia|lia|lia|lia]. }
    destruct H1 as [d2 [-> Hd2]]. cbn [bind].
    apply IH; [exact Hd2|lia|lia].
Qed.

(** The sort returns whenever the comparator returns on the elements of
    the slice: no index leaves the slice and no loop runs out of fuel. *)
Lemma stable_returns (d : list A) :
  Forall P d ->
  exists d' : list A, stable less d = Ok d' /\ Permutation d d'.
Proof.
  intros HP.
  assert (Hd : comparable P (List.length d) d) by (split; auto).
  assert (H : exists d' : list A, stable less d = Ok d').
  { unfold stable. cbv zeta.
    destruct (insertBlocks_returns (List.length d) (List.length d) 0 20 20 d
                Hd) as [d1 [a1 [-> Hd1]]]; try lia.
    cbn [bind].
    destruct (insertionSort_returns (List.length d) a1 (List.length d) d1
                Hd1) as [d2 [-> Hd2]]; try lia.
    cbn [bind].
    destruct (mergeRounds_returns (List.length d) (List.length d) 20 d2 Hd2)
      as [d3 [-> _]]; try lia.
    eauto. }
  destruct H as [d' H]. exists d'. split; [exact H|].
  eapply stable_Permutation, H.
Qed.

End SortReturns.

(* ================================================================== *)
(** ** The sorted table *)

Section TableFacts.

Import Widget.

(** *** The comparator *)

Lemma lessField_reverse (f1 f2 : Field) :
  lessField true f1 f2 = (lt <- lessField false f1 f2 ;; Ok (negb lt)).
Proof.
  destruct f1; simpl; try reflexivity.
  - now rewrite !xorb_true_r, xorb_false_r.
  - destruct (fieldInt f2); simpl; try reflexivity.
    now rewrite !xorb_true_r, xorb_false_r.
  - destruct (fieldUint f2); simpl; try reflexivity.
    now rewrite !xorb_true_r, xorb_false_r.
  - destruct (fieldTime f2); simpl; try reflexivity.
    now rewrite !xorb_true_r, xorb_false_r.
Qed.

Lemma lessRow_missing (column : Z) (reverse : bool) (row1 row2 : tableRow) :
  data row1 <> None -> data row2 = None ->
  lessRow column reverse row1 row2 = Ok true /\
  lessRow column reverse row2 row1 = Ok false.
Proof.
  intros H1 H2. unfold lessRow. rewrite H2.
  destruct (data row1); [auto|congruence].
Qed.

Lemma lessRow_reverse (column : Z) (row1 row2 : tableRow)
  (d1 d2 : RowData) :
  data row1 = Some d1 -> data row2 = Some d2 ->
  List.length (fields d1) = List.length (fields d2) ->
  (column <= Z.of_nat (List.length (fields d1)))%Z ->
  lessRow column true row1 row2
  = (lt <- lessRow column false row1 row2 ;; Ok (negb lt)).
Proof.
  intros H1 H2 Hlen Hcol. unfold lessRow. rewrite H1, H2.
  apply Nat.eqb_eq in Hlen. rewrite Hlen.
  replace (Z.of_nat (List.length (fields d1)) <? column)%Z with false
    by (symmetry; apply Z.ltb_ge; lia).
  simpl negb. simpl orb. cbv iota.
  destruct (structField (fields d1) column) as [f1| |]; try reflexivity.
  destruct (structField (fields d2) column) as [f2| |]; try reflexivity.
  simpl. apply lessField_reverse.
Qed.

(** Rows of different shapes are never less than each other, in either
    direction. *)
Lemma lessRow_shapes (column : Z) (reverse : bool) (row1 row2 : tableRow)
  (d1 d2 : RowData) :
  data row1 = Some d1 -> data row2 = Some d2 ->
  List.length (fields d1) <> List.length (fields d2) ->
  lessRow column reverse row1 row2 = Ok false.
Proof.
  intros H1 H2 Hlen. unfold lessRow. rewrite H1, H2.
  apply Nat.eqb_neq in Hlen. now rewrite Hlen.
Qed.

(** C7, as amended.  When exactly one of two rows has no data, the row
    with data is less than the row without and the row without is not
    less than the row with data, in both directions.  When both rows
    have data with the same number of fields and the sort column is one
    of them, the comparison in reverse direction is the negation of the
    comparison in forward direction (and panics when that one does). *)
Theorem lessRow_rules (column : Z) (row1 row2 : tableRow) :
  (forall reverse : bool,
      data row1 <> None -> data row2 = None ->
      lessRow column reverse row1 row2 = Ok true /\
      lessRow column reverse row2 row1 = Ok false) /\
  (forall d1 d2 : RowData,
      data row1 = Some d1 -> data row2 = Some d2 ->
      List.length (fields d1) = List.length (fields d2) ->
      (0 <= column < Z.of_nat (List.length (fields d1)))%Z ->
      lessRow column true row1 row2
      = (lt <- lessRow column false row1 row2 ;; Ok (negb lt))).
Proof.
  split.
  - intros reverse. apply lessRow_missing.
  - intros d1 d2 H1 H2 Hlen Hcol. apply (lessRow_reverse _ _ _ d1 d2); auto.
    lia.
Qed.

(** With supported fields of one kind both comparisons return. *)
Lemma lessField_same_kind (reverse : bool) (f1 f2 : Field) :
  match f1, f2 with
  | FString _, _ | FInt _ _, FInt _ _ | FUint _ _, FUint _ _
  | FTime _, FTime _ => exists lt, lessField reverse f1 f2 = Ok lt
  | _, _ => True
  end.
Proof.
  destruct f1, f2; simpl; eauto.
Qed.

(** Equal values are "less" than each other in reverse direction. *)
Lemma lessField_reverse_equal (f : Field) :
  match f with
  | FOther _ => True
  | _ => lessField true f f = Ok true /\ lessField false f f = Ok false
  end.
Proof.
  destruct f; simpl; auto.
  - assert (H : String.ltb s s = false).
    { unfold String.ltb. pose proof (String.compare_antisym s s) as E.
      destruct (String.compare s s); try reflexivity. discriminate E. }
    now rewrite H.
  - now rewrite Z.ltb_irrefl.
  - now rewrite Z.ltb_irrefl.
  - unfold Before. now rewrite !Z.ltb_irrefl, andb_false_r.
Qed.

(** *** Selection *)

Lemma valueAt_nat (vs : list tableRow) (i : nat) (r : tableRow) :
  nth_error vs i = Some r -> valueAt vs (Z.of_nat i + 1 - 1) = Ok r.
Proof.
  intros H. unfold valueAt.
  replace (Z.of_nat i + 1 - 1)%Z with (Z.of_nat i) by lia.
  replace (Z.of_nat i <? 0)%Z with false by (symmetry; apply Z.ltb_ge; lia).
  now rewrite Nat2Z.id, H.
Qed.

Lemma valueAt_Ok (vs : list tableRow) (i : Z) (r : tableRow) :
  valueAt vs i = Ok r -> In (key r) (map key vs).
Proof.
  unfold valueAt. destruct (i <? 0)%Z; [discriminate|].
  destruct (nth_error vs (Z.to_nat i)) as [r'|] eqn:E; [|discriminate].
  intros H. injection H as <-. apply in_map. eapply nth_error_In, E.
Qed.

Lemma valueAt_beyond (vs : list tableRow) (i : Z) :
  (Z.of_nat (List.length vs) <= i)%Z -> valueAt vs i = Panic indexOutOfRange.
Proof.
  intros H. unfold valueAt.
  replace (i <? 0)%Z with false by (symmetry; apply Z.ltb_ge; lia).
  replace (nth_error vs (Z.to_nat i)) with (@None tableRow); [reflexivity|].
  symmetry. apply nth_error_None. lia.
Qed.

Lemma findKey_Some (k : string) (vs : list tableRow) (n row : nat) :
  findKey k vs n = Some row ->
  n <= row /\
  exists r : tableRow, nth_error vs (row - n) = Some r /\ key r = k.
Proof.
  revert n. induction vs as [|r vs IH]; intros n H; simpl in H;
    [discriminate|].
  destruct (String.eqb_spec (key r) k) as [Hk|Hk].
  - injection H as <-. split; [lia|]. exists r.
    now rewrite Nat.sub_diag.
  - apply IH in H as [Hle [r' [Hn Hr']]]. split; [lia|]. exists r'.
    replace (row - n) with (S (row - S n)) by lia. auto.
Qed.

Lemma findKey_In (k : string) (vs : list tableRow) (n : nat) :
  In k (map key vs) -> exists row : nat, findKey k vs n = Some row.
Proof.
  revert n. induction vs as [|r vs IH]; intros n H; simpl in *; [easy|].
  destruct (String.eqb_spec (key r) k) as [Hk|Hk]; [eauto|].
  destruct H as [H|H]; [congruence|]. now apply IH.
Qed.

Lemma findKey_last (k : string) (pre : list tableRow) (r : tableRow)
  (n : nat) :
  ~ In k (map key pre) -> key r = k ->
  findKey k (pre ++ [r]) n = Some (n + List.length pre).
Proof.
  revert n. induction pre as [|p pre IH]; intros n Hnot Hk; simpl.
  - apply String.eqb_eq in Hk. rewrite Hk. f_equal. lia.
  - simpl in Hnot.
    destruct (String.eqb_spec (key p) k) as [Hp|Hp]; [tauto|].
    rewrite IH by tauto. f_equal. lia.
Qed.

(** Selecting a row of the table stores its position and its key. *)
Lemma tableSelect_row (st : SortedTable) (i : nat) (r : tableRow) :
  nth_error (values st) i = Some r ->
  exists st1 : SortedTable,
    tableSelect (Z.of_nat i + 1) 0 st = Ok st1 /\
    curRow st1 = (Z.of_nat i + 1)%Z /\
    curKey st1 = key r /\
    values st1 = values st /\
    sortColumn st1 = sortColumn st /\
    sortReverse st1 = sortReverse st.
Proof.
  intros H. unfold tableSelect, selectionChanged.
  replace (Z.of_nat i + 1 <=? 0)%Z with false
    by (symmetry; apply Z.leb_gt; lia).
  unfold selectionChangedRow. simpl values.
  rewrite (valueAt_nat _ _ _ H). simpl.
  destruct (String.eqb_spec (curKey st) (key r)) as [E|E];
    eexists; (split; [reflexivity|]); simpl; auto 6.
Qed.

Lemma Select_present (k : string) (st : SortedTable) :
  In k (Keys st) ->
  exists (st1 : SortedTable) (row : nat),
    Select k st = Ok st1 /\
    findKey k (values st) 0 = Some row /\
    curRow st1 = (Z.of_nat row + 1)%Z /\
    curKey st1 = k /\
    values st1 = values st /\
    GetSelection st1 = Ok k.
Proof.
  intros Hin. unfold Keys in Hin.
  destruct (findKey_In k (values st) 0 Hin) as [row Hrow].
  destruct (findKey_Some _ _ _ _ Hrow) as [_ [r [Hn Hk]]].
  rewrite Nat.sub_0_r in Hn.
  destruct (tableSelect_row st row r Hn) as [st1 [Hs [Hr [Hc [Hv _]]]]].
  exists st1, row. unfold Select. rewrite Hrow.
  repeat split; auto; try congruence.
  unfold GetSelection. rewrite Hr, Hv.
  replace (0 <? Z.of_nat row + 1)%Z with true
    by (symmetry; apply Z.ltb_lt; lia).
  rewrite (valueAt_nat _ _ _ Hn). simpl. now rewrite Hk.
Qed.

(** [Select] leaves the rows and the sort settings as they are. *)
Lemma Select_settings (k : string) (st st1 : SortedTable) :
  Select k st = Ok st1 ->
  values st1 = values st /\ sortColumn st1 = sortColumn st /\
  sortReverse st1 = sortReverse st.
Proof.
  unfold Select. intros H.
  destruct (findKey k (values st) 0) as [row|] eqn:E;
    [|injection H as <-; auto].
  apply findKey_Some in E as [_ [r [Hn _]]]. rewrite Nat.sub_0_r in Hn.
  destruct (tableSelect_row st row r Hn) as [st' [Hs [_ [_ [Hv [Hc Hr]]]]]].
  rewrite Hs in H. injection H as <-. auto.
Qed.

(** Selecting a key that is not in the table changes nothing. *)
Lemma Select_absent (k : string) (st : SortedTable) :
  ~ In k (Keys st) -> Select k st = Ok st.
Proof.
  intros Hnot. unfold Select.
  destruct (findKey k (values st) 0) as [row|] eqn:E; [|reflexivity].
  apply findKey_Some in E as [_ [r [Hn Hk]]].
  exfalso. apply Hnot. unfold Keys. rewrite <- Hk.
  apply in_map. eapply nth_error_In, Hn.
Qed.

(** A stored position beyond the rows makes [GetSelection] panic, and
    [Redraw] with it. *)
Lemma GetSelection_stale (st : SortedTable) :
  (Z.of_nat (List.length (values st)) < curRow st)%Z ->
  GetSelection st = Panic indexOutOfRange.
Proof.
  intros H. unfold GetSelection.
  replace (0 <? curRow st)%Z with true by (symmetry; apply Z.ltb_lt; lia).
  rewrite valueAt_beyond by lia. reflexivity.
Qed.

Lemma Redraw_stale (st : SortedTable) :
  (Z.of_nat (List.length (values st)) < curRow st)%Z ->
  Redraw st = Panic indexOutOfRange.
Proof.
  intros H. unfold Redraw.
  assert (E : GetSelection (redrawHeaders st) = GetSelection st)
    by reflexivity.
  now rewrite E, GetSelection_stale.
Qed.

End TableFacts.

Section RedrawFacts.

Import Widget.

Lemma sortData_values (st st' : SortedTable) :
  sortData st = Ok st' ->
  Permutation (values st) (values st') /\ curRow st' = curRow st.
Proof.
  unfold sortData. intros H. bind_inv H. injection H as <-.
  apply stable_Permutation in Ha. auto.
Qed.

Lemma updateData_values (st st' : SortedTable) :
  updateData st = Ok st' ->
  values st' = values st /\ curRow st' = curRow st.
Proof.
  unfold updateData. intros H. bind_inv H. injection H as <-. auto.
Qed.


(** A redraw that returns leaves the selection on the key it was on. *)
Lemma Redraw_keeps_selection (st st' : SortedTable) (k : string) :
  (0 < curRow st)%Z -> GetSelection st = Ok k -> Redraw st = Ok st' ->
  GetSelection st' = Ok k /\ Permutation (Keys st) (Keys st').
Proof.
  intros Hrow Hsel Hre. unfold Redraw in Hre.
  change (GetSelection (redrawHeaders st)) with (GetSelection st) in Hre.
  rewrite Hsel in Hre. simpl in Hre.
  bind_inv Hre. rename a into st2. bind_inv Hre. rename a into st3.
  apply sortData_values in Ha as [Hperm _].
  apply updateData_values in Ha0 as [Hv _].
  change (values (redrawHeaders st)) with (values st) in Hperm.
  assert (Hin : In k (Keys st)).
  { unfold GetSelection in Hsel.
    destruct (0 <? curRow st)%Z eqn:E; [|apply Z.ltb_ge in E; lia].
    bind_inv Hsel. injection Hsel as <-. eapply valueAt_Ok, Ha. }
  assert (Hkeys : Permutation (Keys st) (Keys st3)).
  { unfold Keys. rewrite Hv. now apply Permutation_map. }
  destruct (Select_present k st3) as [st4 [row [Hs [_ [_ [_ [Hv4 Hg]]]]]]].
  { eapply Permutation_in; eauto. }
  rewrite Hs in Hre. injection Hre as <-. split; [exact Hg|].
  unfold Keys at 2. rewrite Hv4. exact Hkeys.
Qed.

(** Selecting a key of the table and redrawing leaves it selected. *)
Lemma Select_Redraw (st st1 st2 : SortedTable) (k : string) :
  In k (Keys st) -> Select k st = Ok st1 -> Redraw st1 = Ok st2 ->
  GetSelection st2 = Ok k.
Proof.
  intros Hin Hs Hre.
  destruct (Select_present k st Hin) as [st1' [row [Hs' [_ [Hr [_ [_ Hg]]]]]]].
  rewrite Hs in Hs'. injection Hs' as <-.
  eapply Redraw_keeps_selection; eauto. lia.
Qed.

Lemma filter_other_keys (k : string) (vs : list tableRow) :
  ~ In k (map key vs) ->
  filter (fun r => negb (String.eqb (key r) k)) vs = vs.
Proof.
  induction vs as [|r vs IH]; intros H; simpl in *; [reflexivity|].
  destruct (String.eqb_spec (key r) k) as [E|E]; [tauto|].
  simpl. f_equal. tauto.
Qed.

(** [ClearRowData] removes the key and keeps the other keys in order. *)
Lemma ClearRowData_Keys (k : string) (st : SortedTable) :
  Keys (ClearRowData k st)
  = filter (fun k' => negb (String.eqb k' k)) (Keys st) /\
  ~ In k (Keys (ClearRowData k st)).
Proof.
  assert (E : Keys (ClearRowData k st)
              = filter (fun k' => negb (String.eqb k' k)) (Keys st)).
  { unfold Keys, ClearRowData. simpl.
    induction (values st) as [|r vs IH]; simpl; [reflexivity|].
    destruct (String.eqb (key r) k); simpl; now rewrite IH. }
  split; [exact E|]. rewrite E. intros H. apply filter_In in H as [_ H].
  now rewrite String.eqb_refl in H.
Qed.

(** C10. For every key of the table: after [Select] of the key and
    [Clear], the stored row is beyond the rows, and [GetSelection] and
    [Redraw] panic on the index instead of answering the empty string;
    the same after [ClearRowData] of the key when it was the key of the
    last row. *)
Theorem GetSelection_out_of_range (st : SortedTable) (k : string) :
  In k (Keys st) ->
  exists st1 : SortedTable,
    Select k st = Ok st1 /\
    GetSelection (Clear st1) = Panic indexOutOfRange /\
    Redraw (Clear st1) = Panic indexOutOfRange /\
    forall (pre : list tableRow) (r : tableRow),
      values st = pre ++ [r] -> key r = k -> ~ In k (map key pre) ->
      GetSelection (ClearRowData k st1) = Panic indexOutOfRange /\
      Redraw (ClearRowData k st1) = Panic indexOutOfRange.
Proof.
  intros Hin.
  destruct (Select_present k st Hin) as [st1 [row [Hs [Hf [Hr [_ [Hv _]]]]]]].
  exists st1. split; [exact Hs|].
  assert (Hclear : (Z.of_nat (List.length (values (Clear st1)))
                    < curRow (Clear st1))%Z).
  { simpl. lia. }
  split; [now apply GetSelection_stale|].
  split; [now apply Redraw_stale|].
  intros pre r Hpre Hk Hnot.
  assert (Hstale : (Z.of_nat (List.length (values (ClearRowData k st1)))
                    < curRow (ClearRowData k st1))%Z).
  { rewrite Hpre, (findKey_last k pre r 0 Hnot Hk) in Hf.
    injection Hf as <-.
    simpl. rewrite Hv, Hpre, filter_app, (filter_other_keys k pre Hnot).
    simpl. apply String.eqb_eq in Hk. rewrite Hk. simpl.
    rewrite app_nil_r. lia. }
  split; [now apply GetSelection_stale | now apply Redraw_stale].
Qed.

End RedrawFacts.

Section Ties.

Import Widget.

(** Two rows of the same shape that tie in forward direction (the second
    is not less than the first) are exchanged by a sort in reverse
    direction. *)
Lemma sortData_reverse_two (st : SortedTable) (r1 r2 : tableRow)
  (d1 d2 : RowData) :
  values st = [r1; r2] -> sortReverse st = true ->
  data r1 = Some d1 -> data r2 = Some d2 ->
  List.length (fields d1) = List.length (fields d2) ->
  (sortColumn st <= Z.of_nat (List.length (fields d1)))%Z ->
  lessRow (sortColumn st) false r2 r1 = Ok false ->
  sortData st = Ok (setValues [r2; r1] st).
Proof.
  intros Hv Hrev H1 H2 Hlen Hcol Htie. unfold sortData.
  rewrite Hv, Hrev.
  rewrite (stable_two (lessRow (sortColumn st) true) r1 r2 true).
  - reflexivity.
  - rewrite (lessRow_reverse (sortColumn st) r2 r1 d2 d1); auto.
    + now rewrite Htie.
    + lia.
Qed.

(** Two rows without data are exchanged by every sort. *)
Lemma sortData_missing_two (st : SortedTable) (r1 r2 : tableRow) :
  values st = [r1; r2] -> data r1 = None ->
  sortData st = Ok (setValues [r2; r1] st).
Proof.
  intros Hv H1. unfold sortData. rewrite Hv.
  rewrite (stable_two (lessRow (sortColumn st) (sortReverse st)) r1 r2 true).
  - reflexivity.
  - unfold lessRow. now rewrite H1.
Qed.

End Ties.

Section TableExamples.

Import Widget.

Lemma lessRow_rules_witness :
  (lessRow 1 true (rowOf "a" 1 "1") missingRow = Ok true /\
   lessRow 1 true missingRow (rowOf "a" 1 "1") = Ok false) /\
  lessRow 1 true (rowOf "a" 1 "1") (rowOf "b" 2 "2") = Ok false /\
  lessRow 1 false (rowOf "a" 1 "1") (rowOf "b" 2 "2") = Ok true.
Proof.
  split; [|split].
  - apply (lessRow_rules 1 (rowOf "a" 1 "1") missingRow).
    + discriminate.
    + reflexivity.
  - rewrite (proj2 (lessRow_rules 1 (rowOf "a" 1 "1") (rowOf "b" 2 "2"))
               _ _ eq_refl eq_refl eq_refl).
    + reflexivity.
    + simpl. lia.
  - reflexivity.
Defined.

(** C7, as stated, fails: both rows have data, yet the comparison is the
    same in both directions, since the rows differ in their number of
    fields. *)
Lemma lessRow_direction_not_inverted :
  data (rowOf "a" 1 "1") <> None /\ data narrowRow <> None /\
  lessRow 0 false (rowOf "a" 1 "1") narrowRow = Ok false /\
  lessRow 0 true (rowOf "a" 1 "1") narrowRow = Ok false /\
  lessRow 0 false narrowRow (rowOf "a" 1 "1") = Ok false /\
  lessRow 0 true narrowRow (rowOf "a" 1 "1") = Ok false.
Proof.
  repeat split; try discriminate; reflexivity.
Qed.

(** C8 on the code.  The two rows of [tableTies] have the same count, so
    neither is less than the other in forward direction; in reverse
    direction each is "less" than the other, and [sortData] exchanges
    them although they tie; the next [sortData] exchanges them back. *)
Theorem sortData_reverse_exchanges_ties :
  Keys tableTies = ["a"; "b"] /\
  sortColumn tableTies = 1%Z /\ sortReverse tableTies = true /\
  lessRow 1 false (rowOf "a" 1 "1") (rowOf "b" 1 "1") = Ok false /\
  lessRow 1 false (rowOf "b" 1 "1") (rowOf "a" 1 "1") = Ok false /\
  lessRow 1 true (rowOf "a" 1 "1") (rowOf "b" 1 "1") = Ok true /\
  lessRow 1 true (rowOf "b" 1 "1") (rowOf "a" 1 "1") = Ok true /\
  exists st1 st2 : SortedTable,
    sortData tableTies = Ok st1 /\ Keys st1 = ["b"; "a"] /\
    sortData st1 = Ok st2 /\ Keys st2 = ["a"; "b"].
Proof.
  repeat (split; [reflexivity|]).
  do 2 eexists. split; [reflexivity|]. split; [reflexivity|].
  split; reflexivity.
Qed.

(** C9 on the code.  The selection is stored as a row position, which no
    removal adjusts, and [Redraw] reads the key to select again from that
    position.  With rows [a], [b] and [c], select [b] and remove [a]: [b]
    is still in the table, yet after the redraw the selection is [c], the
    key now at the stored position.  With rows [a] and [b] the same steps
    leave no row at the stored position and the redraw panics, with [b]
    still in the table.  And with rows [a] and [b], select [a] and remove
    [a]: after the redraw the selection is [b], not empty. *)
Theorem Redraw_selection_follows_position :
  Keys tableCounts = ["a"; "b"; "c"] /\
  (exists st1 st2 : SortedTable,
      Select "b" tableCounts = Ok st1 /\ GetSelection st1 = Ok "b" /\
      Keys (ClearRowData "a" st1) = ["b"; "c"] /\
      Redraw (ClearRowData "a" st1) = Ok st2 /\
      Keys st2 = ["b"; "c"] /\ GetSelection st2 = Ok "c") /\
  (exists st1 : SortedTable,
      Select "b" tableAB = Ok st1 /\ GetSelection st1 = Ok "b" /\
      Keys (ClearRowData "a" st1) = ["b"] /\
      Redraw (ClearRowData "a" st1) = Panic indexOutOfRange) /\
  (exists st1 st2 : SortedTable,
      Select "a" tableAB = Ok st1 /\ GetSelection st1 = Ok "a" /\
      Keys (ClearRowData "a" st1) = ["b"] /\
      Redraw (ClearRowData "a" st1) = Ok st2 /\
      Keys st2 = ["b"] /\ GetSelection st2 = Ok "b").
Proof.
  split; [reflexivity|]. split; [|split].
  - do 2 eexists. split; [reflexivity|]. split; [reflexivity|].
    split; [reflexivity|]. split; [vm_compute; reflexivity|].
    split; reflexivity.
  - eexists. split; [reflexivity|]. split; [reflexivity|].
    split; [reflexivity|]. vm_compute. reflexivity.
  - do 2 eexists. split; [reflexivity|]. split; [reflexivity|].
    split; [reflexivity|]. split; [vm_compute; reflexivity|].
    split; reflexivity.
Qed.

Lemma GetSelection_out_of_range_witness :
  exists st1 : SortedTable,
    Select "b" tableAB = Ok st1 /\
    GetSelection (Clear st1) = Panic indexOutOfRange /\
    Redraw (Clear st1) = Panic indexOutOfRange /\
    GetSelection (ClearRowData "b" st1) = Panic indexOutOfRange /\
    Redraw (ClearRowData "b" st1) = Panic indexOutOfRange.
Proof.
  assert (Hin : In "b" (Keys tableAB)) by (simpl; auto).
  destruct (GetSelection_out_of_range tableAB "b" Hin)
    as [st1 [Hs [Hg [Hr Hlast]]]].
  exists st1. split; [exact Hs|]. split; [exact Hg|]. split; [exact Hr|].
  apply (Hlast [rowOf "a" 1 "1"] (rowOf "b" 1 "1")).
  - reflexivity.
  - reflexivity.
  - simpl. intros [H|[]]. discriminate H.
Defined.

End TableExamples.

Section RedrawReturns.

Import Widget.

Lemma updateRows_returns (st : SortedTable) (vs : list tableRow)
  (rowIndex : nat) (t : Table) :
  Forall (fun r => data r <> None) vs ->
  exists t' : Table, updateRows st rowIndex vs t = Ok t'.
Proof.
  intros H. revert rowIndex t.
  induction H as [|r vs Hr _ IH]; intros rowIndex t; simpl; [eauto|].
  destruct (data r); [apply IH|congruence].
Qed.

Lemma updateData_returns (st : SortedTable) :
  allData st -> exists st' : SortedTable, updateData st = Ok st'.
Proof.
  intros H. unfold updateData.
  destruct (updateRows_returns st (values st) 0 (table st) H) as [t ->].
  simpl. eauto.
Qed.

Lemma sortData_returns (st : SortedTable) :
  comparableRows st -> exists st' : SortedTable, sortData st = Ok st'.
Proof.
  intros H. unfold sortData.
  destruct (stable_returns (lessRow (sortColumn st) (sortReverse st))
              (fun r => In r (values st)) H (values st)) as [vs [-> _]].
  - apply Forall_forall. auto.
  - simpl. eauto.
Qed.

Lemma GetSelection_returns (st : SortedTable) :
  (curRow st <= Z.of_nat (List.length (values st)))%Z ->
  exists k : string, GetSelection st = Ok k.
Proof.
  intros H. unfold GetSelection.
  destruct (Z.ltb_spec 0 (curRow st)) as [Hpos|Hneg]; [|eauto].
  unfold valueAt.
  replace (curRow st - 1 <? 0)%Z with false
    by (symmetry; apply Z.ltb_ge; lia).
  destruct (nth_error (values st) (Z.to_nat (curRow st - 1))) as [r|] eqn:E.
  - simpl. eauto.
  - apply nth_error_None in E. lia.
Qed.

(** [Select] returns, whether the key is in the table or not. *)
Lemma Select_returns (k : string) (st : SortedTable) :
  exists st' : SortedTable, Select k st = Ok st'.
Proof.
  destruct (in_dec string_dec k (Keys st)) as [Hin|Hnot].
  - destruct (Select_present k st Hin) as [st1 [_ [Hs _]]]. eauto.
  - rewrite (Select_absent k st Hnot). eauto.
Qed.

(** [Redraw] returns when the stored row is within the rows, every row
    has data and the comparator returns on the rows. *)
Lemma Redraw_returns (st : SortedTable) :
  (curRow st <= Z.of_nat (List.length (values st)))%Z ->
  allData st -> comparableRows st ->
  exists st' : SortedTable, Redraw st = Ok st'.
Proof.
  intros Hrow Hdata Hcmp. unfold Redraw.
  change (GetSelection (redrawHeaders st)) with (GetSelection st).
  destruct (GetSelection_returns st Hrow) as [k ->]. simpl bind.
  destruct (sortData_returns (redrawHeaders st) Hcmp) as [st2 Hsort].
  rewrite Hsort. simpl bind.
  destruct (updateData_returns st2) as [st3 ->].
  - apply sortData_values in Hsort as [Hperm _].
    unfold allData. eapply Permutation_Forall; [exact Hperm|exact Hdata].
  - simpl bind. apply Select_returns.
Qed.

Lemma ClearRowData_incl (k : string) (st : SortedTable) (r : tableRow) :
  In r (values (ClearRowData k st)) -> In r (values st).
Proof.
  simpl. intros H. now apply filter_In in H.
Qed.

(** A redraw right after a selection keeps it: in a table whose rows all
    have data that the comparator can compare, selecting a key of the
    table and redrawing at once leaves that key selected.  When the key is
    removed before the redraw and a row is left at the stored position,
    the redraw leaves the key of that row selected. *)
Lemma Redraw_selection (st : SortedTable) (k : string) :
  In k (Keys st) -> allData st -> comparableRows st ->
  exists st1 : SortedTable,
    Select k st = Ok st1 /\
    (exists st2 : SortedTable,
        Redraw st1 = Ok st2 /\ GetSelection st2 = Ok k) /\
    (forall r : tableRow,
        valueAt (values (ClearRowData k st1)) (curRow st1 - 1) = Ok r ->
        exists st2 : SortedTable,
          Redraw (ClearRowData k st1) = Ok st2 /\
          GetSelection st2 = Ok (key r) /\
          In (key r) (Keys st) /\ key r <> k).
Proof.
  intros Hin Hdata Hcmp.
  destruct (Select_present k st Hin)
    as [st1 [row [Hs [_ [Hrow [_ [Hv Hg]]]]]]].
  destruct (Select_settings k st st1 Hs) as [_ [Hcol Hrev]].
  exists st1. split; [exact Hs|].
  assert (Hpos : (0 < curRow st1)%Z) by lia.
  assert (Hdata1 : allData st1) by (unfold allData; now rewrite Hv).
  assert (Hcmp1 : comparableRows st1).
  { unfold comparableRows. rewrite Hv, Hcol, Hrev. exact Hcmp. }
  split.
  - destruct (Redraw_returns st1) as [st2 Hre]; auto.
    + unfold GetSelection in Hg.
      replace (0 <? curRow st1)%Z with true in Hg
        by (symmetry; apply Z.ltb_lt; lia).
      destruct (Z.le_gt_cases (curRow st1)
                  (Z.of_nat (List.length (values st1)))) as [H|H]; [exact H|].
      rewrite valueAt_beyond in Hg by lia. discriminate Hg.
    + exists st2. split; [exact Hre|].
      eapply Redraw_keeps_selection; eauto.
  - intros r Hr.
    assert (Hsel : GetSelection (ClearRowData k st1) = Ok (key r)).
    { unfold GetSelection. change (curRow (ClearRowData k st1))
        with (curRow st1).
      replace (0 <? curRow st1)%Z with true
        by (symmetry; apply Z.ltb_lt; lia).
      now rewrite Hr. }
    assert (Hkey : In (key r) (Keys (ClearRowData k st1)))
      by (eapply valueAt_Ok, Hr).
    destruct (Redraw_returns (ClearRowData k st1)) as [st2 Hre].
    + change (curRow (ClearRowData k st1)) with (curRow st1).
      destruct (Z.le_gt_cases (curRow st1)
                  (Z.of_nat (List.length (values (ClearRowData k st1)))))
        as [H|H]; [exact H|].
      rewrite valueAt_beyond in Hr by lia. discriminate Hr.
    + unfold allData in *. rewrite Forall_forall in *.
      intros r' Hr'. apply Hdata1. eapply ClearRowData_incl, Hr'.
    + intros r1 r2 H1 H2.
      apply (Hcmp1 r1 r2); eapply ClearRowData_incl; eauto.
    + exists st2. split; [exact Hre|]. split.
      * apply (Redraw_keeps_selection (ClearRowData k st1) st2 (key r));
          [exact Hpos|exact Hsel|exact Hre].
      * split.
        -- destruct (ClearRowData_Keys k st1) as [E _]. rewrite E in Hkey.
           apply filter_In in Hkey as [Hkey _].
           unfold Keys in *. rewrite <- Hv. exact Hkey.
        -- intros E. destruct (ClearRowData_Keys k st1) as [_ Hnot].
           apply Hnot. rewrite E in Hkey. exact Hkey.
Qed.

Lemma allData_tableAB : allData tableAB.
Proof.
  repeat constructor; discriminate.
Qed.

Lemma comparableRows_tableAB : comparableRows tableAB.
Proof.
  intros r1 r2 H1 H2. simpl in H1, H2.
  destruct H1 as [<-|[<-|[]]]; destruct H2 as [<-|[<-|[]]];
    eexists; reflexivity.
Qed.

Lemma Redraw_selection_tableAB :
  exists st1 : SortedTable,
    Select "a" tableAB = Ok st1 /\
    (exists st2 : SortedTable,
        Redraw st1 = Ok st2 /\ GetSelection st2 = Ok "a") /\
    (exists st2 : SortedTable,
        Redraw (ClearRowData "a" st1) = Ok st2 /\
        GetSelection st2 = Ok "b").
Proof.
  assert (Hin : In "a" (Keys tableAB)) by (simpl; auto).
  destruct (Redraw_selection tableAB "a" Hin allData_tableAB
              comparableRows_tableAB) as [st1 [Hs [Hkeep Hnext]]].
  exists st1. split; [exact Hs|]. split; [exact Hkeep|].
  assert (E : Ok st1 = Select "a" tableAB) by (symmetry; exact Hs).
  vm_compute in E. injection E as E.
  destruct (Hnext (rowOf "b" 1 "1")) as [st2 [Hre [Hg _]]].
  - rewrite E. reflexivity.
  - exists st2. split; [exact Hre|exact Hg].
Defined.

End RedrawReturns.

(* ================================================================== *)
(** ** Further properties of the table *)

Section TableUpdates.

Import Widget.

Lemma setRow_Some (k : string) (d : option RowData) (vs : list tableRow) :
  In k (map key vs) ->
  exists vs' : list tableRow,
    setRow k d vs = Some vs' /\ map key vs' = map key vs /\
    In (mkRow k d) vs'.
Proof.
  induction vs as [|r vs IH]; intros H; simpl in *; [easy|].
  destruct (String.eqb_spec (key r) k) as [E|E].
  - eexists. split; [reflexivity|]. simpl. rewrite E. auto.
  - destruct H as [H|H]; [congruence|].
    destruct (IH H) as [vs' [-> [Hk Hin]]]. simpl.
    eexists. split; [reflexivity|]. simpl. rewrite Hk. auto.
Qed.

Lemma setRow_None (k : string) (d : option RowData) (vs : list tableRow) :
  ~ In k (map key vs) -> setRow k d vs = None.
Proof.
  induction vs as [|r vs IH]; intros H; simpl in *; [reflexivity|].
  destruct (String.eqb_spec (key r) k) as [E|E]; [tauto|].
  rewrite IH by tauto. reflexivity.
Qed.

(** The row that [SetRowData] overwrites is the first one with the key;
    the rows before and after it stay as they are. *)
Lemma setRow_split (k : string) (d : option RowData) (vs : list tableRow) :
  In k (map key vs) ->
  exists (before : list tableRow) (r : tableRow) (after : list tableRow),
    vs = before ++ r :: after /\ key r = k /\
    ~ In k (map key before) /\
    setRow k d vs = Some (before ++ mkRow k d :: after).
Proof.
  induction vs as [|r vs IH]; intros H; simpl in *; [easy|].
  destruct (String.eqb_spec (key r) k) as [E|E].
  - exists [], r, vs. simpl. rewrite E. auto.
  - destruct H as [H|H]; [contradiction|].
    destruct (IH H) as [before [r' [after [Hvs [Hk [Hnot Hset]]]]]].
    exists (r :: before), r', after. rewrite Hset. simpl.
    repeat split; [now rewrite Hvs|exact Hk|tauto].
Qed.

(** X1. [SetRowData] replaces the data of the row with the key, where it
    stands, and appends a row when there is none: with the key in the
    table, the first row with the key gets the data and every other row,
    before and after it, stays as it is, with its key and its data; with
    the key not in the table, the rows are followed by a new row of the
    key and the data.  Nothing but the rows changes. *)
Theorem SetRowData_upsert (k : string) (d : option RowData)
  (st : SortedTable) :
  In (mkRow k d) (values (SetRowData k d st)) /\
  (In k (Keys st) -> Keys (SetRowData k d st) = Keys st) /\
  (In k (Keys st) ->
   exists (before : list tableRow) (r : tableRow) (after : list tableRow),
     values st = before ++ r :: after /\ key r = k /\
     ~ In k (map key before) /\
     values (SetRowData k d st) = before ++ mkRow k d :: after) /\
  (~ In k (Keys st) ->
   values (SetRowData k d st) = values st ++ [mkRow k d]) /\
  setValues (values st) (SetRowData k d st) = st.
Proof.
  unfold SetRowData, Keys.
  destruct (in_dec string_dec k (map key (values st))) as [Hin|Hnot].
  - destruct (setRow_split k d (values st) Hin)
      as [before [r [after [Hvs [Hk [Hbefore Hset]]]]]].
    rewrite Hset. cbn [values setValues].
    split; [apply in_or_app; simpl; auto|].
    split.
    { intros _. rewrite Hvs, !map_app. simpl. now rewrite Hk. }
    split; [intros _; exists before, r, after; auto|].
    split; [tauto|now destruct st].
  - rewrite (setRow_None k d (values st) Hnot). cbn [values setValues].
    split; [apply in_or_app; simpl; auto|].
    split; [tauto|]. split; [tauto|]. split; [auto|now destruct st].
Qed.

Lemma SetRowData_upsert_witness :
  Keys (SetRowData "a" None tableAB) = ["a"; "b"] /\
  values (SetRowData "b" None tableAB)
  = [rowOf "a" 1 "1"; mkRow "b" None] /\
  values (SetRowData "c" None tableAB) = values tableAB ++ [mkRow "c" None].
Proof.
  split; [|split].
  - destruct (SetRowData_upsert "a" None tableAB) as [_ [Hkeys _]].
    apply Hkeys. simpl. auto.
  - destruct (SetRowData_upsert "b" None tableAB) as [_ [_ [Hrows _]]].
    destruct Hrows as [before [r [after [Hvs [Hk [Hnot ->]]]]]];
      [simpl; auto|].
    destruct before as [|r0 [|r1 before]]; simpl in Hvs.
    + injection Hvs as <- _. discriminate Hk.
    + injection Hvs as <- <- <-. reflexivity.
    + injection Hvs as _ <- _. exfalso. apply Hnot. simpl. auto.
  - destruct (SetRowData_upsert "c" None tableAB) as [_ [_ [_ [Hnew _]]]].
    apply Hnew. simpl. intros [H|[H|[]]]; discriminate H.
Defined.

(** X2. [ClearRowData] removes the key and keeps the other keys in their
    order. *)
Theorem ClearRowData_removes (k : string) (st : SortedTable) :
  ~ In k (Keys (ClearRowData k st)) /\
  Keys (ClearRowData k st)
  = filter (fun k' => negb (String.eqb k' k)) (Keys st).
Proof.
  destruct (ClearRowData_Keys k st) as [E H]. auto.
Qed.



End TableUpdates.

(* ================================================================== *)
(** ** The polling loop of the configuration store *)

Section Polling.

Import Cfg.

Lemma Init_cons (fs : FileView) (views : list FileView) (pc : PlotConfig) :
  Init (fs :: views) pc
  = (fst (Init views (fst (ProcessConfig fs pc))),
     snd (ProcessConfig fs pc)
     ++ snd (Init views (fst (ProcessConfig fs pc)))).
Proof.
  simpl. destruct (ProcessConfig fs pc) as [pc1 evs1]. simpl.
  destruct (Init views pc1) as [pc2 evs2]. reflexivity.
Qed.

(** A poll publishes the decoded document or leaves the published one. *)
Lemma ProcessConfig_published (fs : FileView) (pc : PlotConfig) :
  CurrentConfig (fst (ProcessConfig fs pc)) = CurrentConfig pc \/
  (exists (t : Time) (c : Config),
      lstat fs = Some t /\ t <> LastMod pc /\ open fs = true /\
      decode fs = Some c /\
      CurrentConfig (fst (ProcessConfig fs pc)) = Some c).
Proof.
  unfold ProcessConfig.
  destruct (lstat fs) as [t|] eqn:Hs; [|auto].
  destruct (Time_eqb (LastMod pc) t) eqn:Ht; [auto|]. simpl.
  destruct (open fs) eqn:Ho; [|auto].
  destruct (decode fs) as [c|] eqn:Hd; [|auto].
  right. exists t, c. repeat split; auto.
  apply Time_eqb_neq in Ht. congruence.
Qed.

Lemma ProcessConfig_path (fs : FileView) (pc : PlotConfig) :
  ConfigPath (fst (ProcessConfig fs pc)) = ConfigPath pc.
Proof.
  unfold ProcessConfig. destruct (lstat fs); [|reflexivity].
  destruct (Time_eqb (LastMod pc) t); [reflexivity|]. simpl.
  destruct (open fs); [destruct (decode fs)|]; reflexivity.
Qed.

(** X4. Whatever the file system answers to the polls of [Init], the
    published configuration is the one published before or a document
    that one of the polls opened and decoded in full after a successful
    stat; and once a configuration is published there always is one. *)
Theorem Init_published (views : list FileView) (pc : PlotConfig) :
  (CurrentConfig (fst (Init views pc)) = CurrentConfig pc \/
   exists (fs : FileView) (c : Config),
     In fs views /\ lstat fs <> None /\ open fs = true /\
     decode fs = Some c /\ CurrentConfig (fst (Init views pc)) = Some c) /\
  (CurrentConfig pc <> None -> CurrentConfig (fst (Init views pc)) <> None).
Proof.
  revert pc. induction views as [|fs views IH]; intros pc.
  - simpl. auto.
  - rewrite Init_cons. simpl fst.
    destruct (IH (fst (ProcessConfig fs pc))) as [[IH1|IH1] IH2].
    + split.
      * rewrite IH1.
        destruct (ProcessConfig_published fs pc)
          as [H|[t [c [Hs [_ [Ho [Hd H]]]]]]]; [auto|].
        right. exists fs, c. simpl. repeat split; auto. congruence.
      * intros Hpc. apply IH2.
        destruct (ProcessConfig_published fs pc)
          as [H|[t [c [_ [_ [_ [_ H]]]]]]]; congruence.
    + split.
      * destruct IH1 as [fs' [c [Hin H]]]. right. exists fs', c.
        simpl. tauto.
      * intros _. destruct IH1 as [fs' [c [_ [_ [_ [_ H]]]]]]. congruence.
Qed.

(** X5. While the stat keeps giving the modification time that is stored,
    the polls of [Init] only stat the file: a file whose decoding failed
    is not read again, and the configuration stays the one published
    before, whatever the file would decode to by then. *)
Theorem Init_same_mtime (views : list FileView) (pc : PlotConfig) :
  Forall (fun fs => lstat fs = Some (LastMod pc)) views ->
  Init views pc = (pc, repeat EvLstat (List.length views)).
Proof.
  intros H. induction H as [|fs views Hfs _ IH].
  - reflexivity.
  - rewrite Init_cons, (ProcessConfig_unchanged_mtime fs pc Hfs).
    simpl fst. simpl snd. rewrite IH. reflexivity.
Qed.

Lemma Init_same_mtime_witness :
  Init [fixedFile; fixedFile; fixedFile]
    (fst (ProcessConfig brokenFile store0))
  = (fst (ProcessConfig brokenFile store0), [EvLstat; EvLstat; EvLstat]).
Proof.
  apply (Init_same_mtime [fixedFile; fixedFile; fixedFile]
           (fst (ProcessConfig brokenFile store0))).
  repeat constructor.
Defined.

Lemma Init_app (views views' : list FileView) (pc : PlotConfig) :
  fst (Init (views ++ views') pc) = fst (Init views' (fst (Init views pc))).
Proof.
  revert pc. induction views as [|fs views IH]; intros pc.
  - reflexivity.
  - rewrite <- app_comm_cons, !Init_cons. simpl fst. apply IH.
Qed.

Lemma Init_stat_fails (views : list FileView) (pc : PlotConfig) :
  Forall (fun fs => lstat fs = None) views -> fst (Init views pc) = pc.
Proof.
  intros H. induction H as [|fs views Hfs _ IH]; [reflexivity|].
  rewrite Init_cons. simpl fst.
  replace (fst (ProcessConfig fs pc)) with pc; [exact IH|].
  unfold ProcessConfig. now rewrite Hfs.
Qed.

(** X6. After the polls of [Init] the stored modification time is the one
    of the last stat that succeeded, whether or not the file could be
    opened and decoded then: the polls after it, whose stat failed, have
    left it as it was. *)
Theorem Init_LastMod (before after : list FileView) (fs : FileView)
  (t : Time) (pc : PlotConfig) :
  lstat fs = Some t ->
  Forall (fun fs' => lstat fs' = None) after ->
  LastMod (fst (Init (before ++ fs :: after) pc)) = t.
Proof.
  intros Hs Hafter.
  rewrite Init_app, Init_cons. simpl fst.
  rewrite (Init_stat_fails after _ Hafter).
  now apply ProcessConfig_LastMod.
Qed.

Lemma Init_LastMod_witness :
  LastMod
    (fst (Init ([fixedFile] ++ brokenFile :: [mkFileView None true None])
            store0))
  = mkTime 200 0 1.
Proof.
  apply (Init_LastMod [fixedFile] [mkFileView None true None] brokenFile).
  - reflexivity.
  - repeat constructor.
Defined.

End Polling.

(* ================================================================== *)
(** ** Reading and scraping the log *)

Section LogReading.

Import Plot.

Lemma append_nil_r (s : string) : (s ++ "")%string = s.
Proof.
  induction s as [|c s IH]; simpl; [reflexivity|now rewrite IH].
Qed.

Lemma append_assoc (a b c : string) :
  ((a ++ b) ++ c)%string = (a ++ (b ++ c))%string.
Proof.
  induction a as [|x a IH]; simpl; [reflexivity|now rewrite IH].
Qed.

Lemma noNewline_app (a b : string) :
  noNewline a -> noNewline b -> noNewline (a ++ b).
Proof.
  induction a as [|x a IH]; simpl; [auto|]. intros [H1 H2] Hb. auto.
Qed.

Lemma readLines_split_acc (input acc : string) :
  noNewline acc ->
  exists rest : string,
    (acc ++ input)%string
    = (joinLines (readLines acc input) ++ rest)%string /\
    noNewline rest /\
    Forall (fun s => exists body : string,
                s = (body ++ nl)%string /\ noNewline body)
      (readLines acc input).
Proof.
  revert acc. induction input as [|c input IH]; intros acc Hacc; simpl.
  - exists acc. rewrite append_nil_r. auto.
  - destruct (Ascii.eqb_spec c newline) as [->|Hc].
    + destruct (IH EmptyString I) as [rest [E [Hrest Hlines]]].
      exists rest. simpl in E. split; [|split].
      * simpl. rewrite !append_assoc. simpl. now rewrite <- E.
      * exact Hrest.
      * constructor; [|exact Hlines]. now exists acc.
    + destruct (IH (acc ++ String c EmptyString)%string)
        as [rest [E [Hrest Hlines]]].
      { apply noNewline_app; simpl; auto. }
      exists rest. rewrite <- E, append_assoc. simpl. auto.
Qed.

(** X7. The lines that [processLogs] reads from a stream, put one after
    the other, are the stream up to its last newline: every line is a
    newline-free text followed by one newline, and what follows the last
    newline, which holds none, is not read as a line. *)
Theorem readLines_split (input : string) :
  exists rest : string,
    input = (joinLines (readLines EmptyString input) ++ rest)%string /\
    noNewline rest /\
    Forall (fun s => exists body : string,
                s = (body ++ nl)%string /\ noNewline body)
      (readLines EmptyString input).
Proof.
  exact (readLines_split_acc input EmptyString I).
Qed.

(** X8. The scraper and [RunPlot] write different fields of the job: a
    line processed after [RunPlot] has made its assignments gives the job
    that [RunPlot] makes of the job with the line processed before, and
    [RunPlot] runs the same command either way. *)
Theorem processLine_RunPlot (s : string) (os : ProcView) (ap : ActivePlot) :
  processLine s (fst (RunPlot os ap))
  = (ap1 <- processLine s ap ;; Ok (fst (RunPlot os ap1))) /\
  (forall ap1 : ActivePlot,
      processLine s ap = Ok ap1 -> snd (RunPlot os ap1) = snd (RunPlot os ap)).
Proof.
  split.
  - unfold processLine, RunPlot, RunPlot_body.
    destruct (HasPrefix s "Starting phase ");
      [destruct (slice s 15 18)|]; simpl;
      (destruct (HasPrefix s "ID: "); [destruct (sliceFrom s 4)|]); simpl;
      destruct (stderrPipe os), (stdoutPipe os), (run os); reflexivity.
  - intros ap1. unfold processLine, RunPlot, RunPlot_body.
    destruct (HasPrefix s "Starting phase ");
      [destruct (slice s 15 18)|]; simpl;
      (destruct (HasPrefix s "ID: "); [destruct (sliceFrom s 4)|]); simpl;
      intros H; try discriminate H; injection H as <-;
      destruct (stderrPipe os), (stdoutPipe os), (run os); reflexivity.
Qed.

Lemma processLines_app (l1 l2 : list string) (ap : ActivePlot) :
  processLines (l1 ++ l2) ap
  = (ap1 <- processLines l1 ap ;; processLines l2 ap1).
Proof.
  revert ap. induction l1 as [|s l1 IH]; intros ap; simpl; [reflexivity|].
  destruct (processLine s ap); simpl; auto.
Qed.

(** A line that was processed had its phase slice in bounds. *)
Lemma processLine_Ok_bounds (s : string) (ap ap1 : ActivePlot) :
  processLine s ap = Ok ap1 -> phaseInBounds s.
Proof.
  intros H Hp. destruct (le_lt_dec 18 (String.length s)) as [Hl|Hl]; [auto|].
  rewrite (processLine_short_phase s ap Hp Hl) in H. discriminate H.
Qed.

Lemma substring_length (n m : nat) (s : string) :
  n + m <= String.length s -> String.length (substring n m s) = m.
Proof.
  revert n m. induction s as [|c s IH]; intros n m H; simpl in *.
  - destruct n, m; simpl; lia.
  - destruct n as [|n].
    + destruct m as [|m]; simpl; [reflexivity|].
      rewrite IH by lia. reflexivity.
    + apply IH. lia.
Qed.

Lemma processLines_no_marker (marker : string) (get : ActivePlot -> string)
  (lines : list string) (ap ap' : ActivePlot) :
  (forall s a a', HasPrefix s marker = false -> processLine s a = Ok a' ->
                  get a' = get a) ->
  Forall (fun l => HasPrefix l marker = false) lines ->
  processLines lines ap = Ok ap' -> get ap' = get ap.
Proof.
  intros Hget H. revert ap. induction H as [|s lines Hs _ IH]; intros ap Hp;
    simpl in Hp.
  - now injection Hp as <-.
  - bind_inv Hp. rewrite (IH _ Hp). eapply Hget; eauto.
Qed.

(** X9. Of several announcements in a log the last one counts: after the
    lines are processed the identifier is what follows the marker in the
    last line that starts with [ID: ], and the phase is the three bytes
    at offset 15 of the last line that starts with [Starting phase ]. *)
Theorem processLines_last_announcement (before after : list string)
  (s : string) (ap ap' : ActivePlot) :
  processLines (before ++ s :: after) ap = Ok ap' ->
  (HasPrefix s "ID: " = true ->
   Forall (fun l => HasPrefix l "ID: " = false) after ->
   Id ap' = substring 4 (String.length s - 4) s) /\
  (HasPrefix s "Starting phase " = true ->
   Forall (fun l => HasPrefix l "Starting phase " = false) after ->
   Phase ap' = substring 15 3 s /\ String.length (Phase ap') = 3).
Proof.
  intros H. rewrite processLines_app in H. bind_inv H. simpl in H.
  bind_inv H. rename a into ap0, a0 into ap1.
  pose proof (processLine_Ok_bounds _ _ _ Ha0) as Hb.
  rewrite (processLine_ok s ap0 Hb) in Ha0. injection Ha0 as Ha0.
  assert (Hkeep : forall (marker : string) (get : ActivePlot -> string),
             (forall l a,
                 HasPrefix l marker = false -> phaseInBounds l ->
                 forall a', processLine l a = Ok a' -> get a' = get a) ->
             Forall (fun l => HasPrefix l marker = false) after ->
             get ap' = get ap1).
  { intros marker get Hget Hafter.
    apply (processLines_no_marker marker get after ap1 ap'); auto.
    intros l a a' Hl Hok. eapply Hget; eauto.
    eapply processLine_Ok_bounds; eauto. }
  split.
  - intros Hid Hafter. rewrite (Hkeep "ID: " Id); auto.
    + rewrite <- Ha0. simpl. now rewrite Hid.
    + intros l a Hl Hb' a' Hok.
      rewrite (processLine_ok l a Hb') in Hok. injection Hok as <-.
      simpl. now rewrite Hl.
  - intros Hph Hafter. rewrite (Hkeep "Starting phase " Phase); auto.
    + rewrite <- Ha0. simpl. rewrite Hph. split; [reflexivity|].
      apply substring_length. specialize (Hb Hph). lia.
    + intros l a Hl Hb' a' Hok.
      rewrite (processLine_ok l a Hb') in Hok. injection Hok as <-.
      simpl. now rewrite Hl.
Qed.

Lemma processLines_last_announcement_witness :
  exists ap' : ActivePlot,
    processLines ["ID: old" ++ nl; "ID: new" ++ nl; "plotting" ++ nl]%string
      job0 = Ok ap' /\
    Id ap' = ("new" ++ nl)%string.
Proof.
  eexists. split; [reflexivity|].
  apply (processLines_last_announcement
           ["ID: old" ++ nl]%string ["plotting" ++ nl]%string
           ("ID: new" ++ nl)%string job0).
  - reflexivity.
  - reflexivity.
  - repeat constructor.
Defined.

(** X10. When [CheckSpace] refuses, it logs one message: for the plot
    directory when that lacks space, and for the target directory only
    when the plot directory has enough; the figure logged is the space
    available in whole GiB, below 360.  When it admits, it logs
    nothing. *)
Theorem CheckSpace_report (available : string -> Z) (ap : ActivePlot) :
  (fst (CheckSpace available ap) = true ->
   snd (CheckSpace available ap) = []) /\
  (fst (CheckSpace available ap) = false ->
   exists gb : Z,
     (gb < 360)%Z /\
     ((gb = (available (PlotDir ap) / GiB)%Z /\
       snd (CheckSpace available ap)
       = [NotEnoughPlotSpace (PlotDir ap) gb]) \/
      (gb = (available (TargetDir ap) / GiB)%Z /\
       (360 * GiB <= available (PlotDir ap))%Z /\
       snd (CheckSpace available ap)
       = [NotEnoughTargetSpace (TargetDir ap) gb]))).
Proof.
  unfold CheckSpace. cbv zeta. rewrite minSpace_eq.
  change (mul64 (mul64 KB KB) KB) with GiB.
  assert (HG : (0 < GiB)%Z) by reflexivity.
  destruct (Z.ltb_spec (available (PlotDir ap)) (360 * GiB)) as [H1|H1].
  - split; [discriminate|]. intros _.
    exists (available (PlotDir ap) / GiB)%Z. split; [|auto].
    apply Z.div_lt_upper_bound; lia.
  - destruct (Z.ltb_spec (available (TargetDir ap)) (360 * GiB)) as [H2|H2].
    + split; [discriminate|]. intros _.
      exists (available (TargetDir ap) / GiB)%Z. split; [|auto].
      apply Z.div_lt_upper_bound; lia.
    + split; [reflexivity|discriminate].
Qed.

Lemma CheckSpace_report_witness :
  snd (CheckSpace (spaceOf (300 * GiB) (100 * GiB)) job0)
  = [NotEnoughPlotSpace "/mnt/tmp" 300] /\
  snd (CheckSpace (spaceOf (400 * GiB) (400 * GiB)) job0) = [].
Proof.
  split.
  - reflexivity.
  - apply (CheckSpace_report (spaceOf (400 * GiB) (400 * GiB)) job0).
    reflexivity.
Defined.

End LogReading.

(* ================================================================== *)
(** ** Invariants of the table under its operations *)

Section TableInvariants.

Import Widget.

Lemma setValues_same (st : SortedTable) : setValues (values st) st = st.
Proof. now destruct st. Qed.

Lemma SetRowData_NoDup (k : string) (d : option RowData)
  (st : SortedTable) :
  NoDup (Keys st) -> NoDup (Keys (SetRowData k d st)).
Proof.
  unfold SetRowData, Keys. intros H.
  destruct (in_dec string_dec k (map key (values st))) as [Hin|Hnot].
  - destruct (setRow_Some k d (values st) Hin) as [vs' [-> [Hk _]]].
    simpl. now rewrite Hk.
  - rewrite (setRow_None k d (values st) Hnot). simpl.
    rewrite map_app. simpl.
    apply NoDup_app; [exact H|repeat constructor; easy|].
    intros x Hx [<-|[]]. contradiction.
Qed.

Lemma ClearRowData_NoDup (k : string) (st : SortedTable) :
  NoDup (Keys st) -> NoDup (Keys (ClearRowData k st)).
Proof.
  intros H. destruct (ClearRowData_Keys k st) as [-> _].
  now apply NoDup_filter.
Qed.

Lemma Redraw_Keys (st st' : SortedTable) :
  Redraw st = Ok st' -> Permutation (Keys st) (Keys st').
Proof.
  unfold Redraw. intros H. bind_inv H. bind_inv H. bind_inv H.
  apply sortData_values in Ha0 as [Hperm _].
  apply updateData_values in Ha1 as [Hv _].
  apply Select_settings in H as [Hv' _].
  change (values (redrawHeaders st)) with (values st) in Hperm.
  unfold Keys. rewrite Hv', Hv. now apply Permutation_map.
Qed.

Lemma runOp_NoDup (op : TableOp) (st st' : SortedTable) :
  NoDup (Keys st) -> runOp op st = Ok st' -> NoDup (Keys st').
Proof.
  intros Hnd H. destruct op; simpl in H.
  - injection H as <-. now apply SetRowData_NoDup.
  - injection H as <-. now apply ClearRowData_NoDup.
  - injection H as <-. constructor.
  - injection H as <-. unfold setSortColumn.
    destruct (sortColumn st =? col)%Z; exact Hnd.
  - apply Select_settings in H as [Hv _]. unfold Keys. now rewrite Hv.
  - apply Redraw_Keys in H. eapply Permutation_NoDup; eauto.
Qed.

(** X11. The keys of the table stay distinct: whatever operations a client
    runs on a new table (setting and clearing rows, clearing the table,
    clicking headers, selecting, redrawing), no two rows of the table it
    arrives at have the same key. *)
Theorem runOps_NoDup (ops : list TableOp) (st : SortedTable) :
  runOps ops NewSortedTable = Ok st -> NoDup (Keys st).
Proof.
  assert (H : forall st0, NoDup (Keys st0) -> runOps ops st0 = Ok st ->
                          NoDup (Keys st)).
  { induction ops as [|op ops IH]; intros st0 Hnd H; simpl in H.
    - now injection H as <-.
    - bind_inv H. eapply IH; [|exact H]. eapply runOp_NoDup; eauto. }
  apply H. constructor.
Qed.

Lemma runOps_NoDup_witness :
  exists st : SortedTable,
    runOps [OpSetRowData "a" (data (rowOf "a" 2 "2"));
            OpSetRowData "b" (data (rowOf "b" 1 "1"));
            OpSetRowData "a" (data (rowOf "a" 3 "3"));
            OpSelect "b"; OpClick 1; OpRedraw] NewSortedTable = Ok st /\
    Keys st = ["b"; "a"] /\ NoDup (Keys st).
Proof.
  eexists. split; [vm_compute; reflexivity|]. split; [reflexivity|].
  apply (runOps_NoDup
           [OpSetRowData "a" (data (rowOf "a" 2 "2"));
            OpSetRowData "b" (data (rowOf "b" 1 "1"));
            OpSetRowData "a" (data (rowOf "a" 3 "3"));
            OpSelect "b"; OpClick 1; OpRedraw]).
  vm_compute. reflexivity.
Defined.

Lemma setRow_again (k : string) (d1 d2 : option RowData)
  (vs vs' : list tableRow) :
  setRow k d1 vs = Some vs' -> setRow k d2 vs' = setRow k d2 vs.
Proof.
  revert vs'. induction vs as [|r vs IH]; intros vs' H; simpl in H;
    [discriminate|].
  destruct (String.eqb_spec (key r) k) as [E|E].
  - injection H as <-. simpl. apply String.eqb_eq in E. now rewrite E.
  - destruct (setRow k d1 vs) as [vs1|] eqn:E1; [|discriminate].
    injection H as <-. simpl. apply String.eqb_neq in E. rewrite E.
    now rewrite (IH vs1 eq_refl).
Qed.

Lemma setRow_fresh (k : string) (d1 d2 : option RowData)
  (vs : list tableRow) :
  setRow k d1 vs = None ->
  setRow k d2 (vs ++ [mkRow k d1]) = Some (vs ++ [mkRow k d2]).
Proof.
  induction vs as [|r vs IH]; intros H; simpl in *.
  - now rewrite String.eqb_refl.
  - destruct (String.eqb (key r) k); [discriminate|].
    destruct (setRow k d1 vs); [discriminate|].
    now rewrite (IH eq_refl).
Qed.

(** X12. Of two [SetRowData] with one key the second one counts, and
    [ClearRowData] undoes the [SetRowData] of a key that the table did not
    hold; on a key that the table does not hold [ClearRowData] changes
    nothing. *)
Theorem SetRowData_ClearRowData (k : string) (d1 d2 : option RowData)
  (st : SortedTable) :
  SetRowData k d2 (SetRowData k d1 st) = SetRowData k d2 st /\
  (~ In k (Keys st) ->
   ClearRowData k (SetRowData k d1 st) = st /\ ClearRowData k st = st).
Proof.
  split.
  - unfold SetRowData.
    destruct (in_dec string_dec k (map key (values st))) as [Hin|Hnot].
    + destruct (setRow_Some k d1 (values st) Hin) as [vs1 [E1 _]].
      destruct (setRow_Some k d2 (values st) Hin) as [vs2 [E2 _]].
      rewrite E1. simpl. rewrite (setRow_again k d1 d2 _ _ E1), E2.
      reflexivity.
    + rewrite (setRow_None k d1 _ Hnot), (setRow_None k d2 _ Hnot). simpl.
      rewrite (setRow_fresh k d1 d2 _ (setRow_None k d1 _ Hnot)).
      reflexivity.
  - intros Hnot. unfold Keys in Hnot.
    assert (E : ClearRowData k st = st).
    { unfold ClearRowData. rewrite (filter_other_keys k _ Hnot).
      apply setValues_same. }
    split; [|exact E].
    unfold SetRowData. rewrite (setRow_None k d1 _ Hnot).
    unfold ClearRowData. simpl.
    rewrite filter_app, (filter_other_keys k _ Hnot). simpl.
    rewrite String.eqb_refl. simpl. rewrite app_nil_r.
    now destruct st.
Qed.

Lemma SetRowData_ClearRowData_witness :
  ClearRowData "c" (SetRowData "c" None tableAB) = tableAB /\
  ClearRowData "c" tableAB = tableAB.
Proof.
  apply (SetRowData_ClearRowData "c" None None tableAB).
  simpl. intros [H|[H|[]]]; discriminate H.
Defined.

Lemma setSortColumn_setSort (col : Z) (b : bool) (st : SortedTable) :
  setSortColumn col (setSort col b st) = setSort col (negb b) st.
Proof.
  unfold setSortColumn, setSort. cbn [sortColumn sortReverse].
  now rewrite Z.eqb_refl.
Qed.

Lemma setSortColumn_iter (n : nat) (col : Z) (st : SortedTable) :
  Nat.iter (S n) (setSortColumn col) st
  = setSort col
      (if (sortColumn st =? col)%Z
       then xorb (sortReverse st) (Nat.odd (S n)) else Nat.even (S n))
      st.
Proof.
  induction n as [|n IH].
  - cbn [Nat.iter nat_rect]. unfold setSortColumn.
    destruct (Z.eqb_spec (sortColumn st) col) as [E|E].
    + rewrite E. now rewrite xorb_true_r.
    + reflexivity.
  - change (Nat.iter (S (S n)) (setSortColumn col) st)
      with (setSortColumn col (Nat.iter (S n) (setSortColumn col) st)).
    rewrite IH, setSortColumn_setSort. f_equal.
    rewrite (Nat.odd_succ (S n)), (Nat.even_succ (S n)).
    rewrite (Nat.odd_succ n), (Nat.even_succ n), <- (Nat.negb_even n).
    destruct (sortColumn st =? col)%Z, (sortReverse st), (Nat.even n);
      reflexivity.
Qed.

(** X13. After one or more clicks in a row on the header of a column the
    table is sorted by that column.  If the column was not the sort column
    before, the direction is forward after an odd number of clicks and
    reverse after an even number; if it was, every click has flipped the
    direction.  The clicks change nothing else. *)
Theorem setSortColumn_clicks (n : nat) (col : Z) (st : SortedTable) :
  0 < n ->
  sortColumn (Nat.iter n (setSortColumn col) st) = col /\
  sortReverse (Nat.iter n (setSortColumn col) st)
  = (if (sortColumn st =? col)%Z
     then xorb (sortReverse st) (Nat.odd n) else Nat.even n) /\
  setSort (sortColumn st) (sortReverse st)
    (Nat.iter n (setSortColumn col) st) = st.
Proof.
  intros Hn. destruct n as [|n]; [lia|].
  rewrite setSortColumn_iter. repeat split. now destruct st.
Qed.

Lemma setSortColumn_clicks_witness :
  sortColumn (Nat.iter 3 (setSortColumn 1) tableAB) = 1%Z /\
  sortReverse (Nat.iter 3 (setSortColumn 1) tableAB) = false.
Proof.
  destruct (setSortColumn_clicks 3 1 tableAB) as [H1 [H2 _]]; [lia|].
  split; [exact H1|exact H2].
Defined.

End TableInvariants.

(* ================================================================== *)
(** ** Selection changes and their notification *)

Section Notification.

Import Widget.

Lemma tableSelect_row_notified (st : SortedTable) (i : nat) (r : tableRow) :
  nth_error (values st) i = Some r ->
  exists st1 : SortedTable,
    tableSelect (Z.of_nat i + 1) 0 st = Ok st1 /\
    notified st1 = notify (key r) st /\
    selectionChangedFunc st1 = selectionChangedFunc st /\
    curKey st1 = key r /\
    curRow st1 = (Z.of_nat i + 1)%Z /\
    selectedRow (table st1) = (Z.of_nat i + 1)%Z /\
    values st1 = values st.
Proof.
  intros H. unfold tableSelect, selectionChanged.
  replace (Z.of_nat i + 1 <=? 0)%Z with false
    by (symmetry; apply Z.leb_gt; lia).
  unfold selectionChangedRow. simpl values.
  rewrite (valueAt_nat _ _ _ H). simpl. unfold notify.
  destruct (String.eqb_spec (curKey st) (key r)) as [E|E];
    eexists; (split; [reflexivity|]); simpl.
  - rewrite andb_false_r. auto 8.
  - rewrite andb_true_r. auto 8.
Qed.

Lemma Select_notified (k : string) (st : SortedTable) :
  In k (Keys st) ->
  exists st1 : SortedTable,
    Select k st = Ok st1 /\
    notified st1 = notify k st /\
    selectionChangedFunc st1 = selectionChangedFunc st /\
    curKey st1 = k /\ (0 < curRow st1)%Z /\
    values st1 = values st /\ GetSelection st1 = Ok k.
Proof.
  intros Hin. unfold Keys in Hin.
  destruct (findKey_In k (values st) 0 Hin) as [row Hrow].
  destruct (findKey_Some _ _ _ _ Hrow) as [_ [r [Hn Hk]]].
  rewrite Nat.sub_0_r in Hn.
  destruct (tableSelect_row_notified st row r Hn)
    as [st1 [Hs [Hnot [Hf [Hc [Hr [_ Hv]]]]]]].
  exists st1. unfold Select. rewrite Hrow, <- Hk.
  repeat split; auto; try lia.
  unfold GetSelection. rewrite Hr, Hv.
  replace (0 <? Z.of_nat row + 1)%Z with true
    by (symmetry; apply Z.ltb_lt; lia).
  now rewrite (valueAt_nat _ _ _ Hn).
Qed.

(** X14. [Select] of a key of the table calls the handler, with the key,
    exactly when a handler is set and the key is not the current key, and
    makes the key current: a second [Select] of the same key does not
    call the handler again. *)
Theorem Select_notifies (k : string) (st : SortedTable) :
  In k (Keys st) ->
  exists st1 st2 : SortedTable,
    Select k st = Ok st1 /\
    notified st1
    = (if selectionChangedFunc st && negb (String.eqb (curKey st) k)
       then k :: notified st else notified st) /\
    Select k st1 = Ok st2 /\ notified st2 = notified st1.
Proof.
  intros Hin.
  destruct (Select_notified k st Hin)
    as [st1 [Hs [Hn [Hf [Hc [_ [Hv _]]]]]]].
  destruct (Select_notified k st1) as [st2 [Hs2 [Hn2 _]]].
  { unfold Keys. now rewrite Hv. }
  exists st1, st2. split; [exact Hs|]. split; [exact Hn|].
  split; [exact Hs2|].
  rewrite Hn2. unfold notify. rewrite Hc, String.eqb_refl.
  now rewrite andb_false_r.
Qed.

Lemma Select_notifies_witness :
  exists st1 st2 : SortedTable,
    Select "b" (SetSelectionChangedFunc true tableAB) = Ok st1 /\
    notified st1 = ["b"] /\
    Select "b" st1 = Ok st2 /\ notified st2 = ["b"].
Proof.
  destruct (Select_notifies "b" (SetSelectionChangedFunc true tableAB))
    as [st1 [st2 [Hs [Hn [Hs2 Hn2]]]]].
  { simpl. auto. }
  exists st1, st2. split; [exact Hs|]. split; [exact Hn|].
  split; [exact Hs2|]. rewrite Hn2. exact Hn.
Defined.



(** X16. The header row cannot be selected.  When the table view reports
    the selection of row 0 (or less) and a row is stored whose position
    is within the rows, the view is put back on the stored row, which
    stays stored with the same rows; with no stored row, the table is
    left as it is. *)
Theorem tableSelect_header (row col : Z) (st : SortedTable) :
  (row <= 0)%Z ->
  ((curRow st <= 0)%Z ->
   tableSelect row col st
   = Ok (setTable (setSelected row col (table st)) st)) /\
  (forall r : tableRow,
      (0 < curRow st)%Z ->
      valueAt (values st) (curRow st - 1) = Ok r ->
      exists st' : SortedTable,
        tableSelect row col st = Ok st' /\
        selectedRow (table st') = curRow st /\
        curRow st' = curRow st /\ values st' = values st /\
        curKey st' = key r).
Proof.
  intros Hrow. unfold tableSelect, selectionChanged.
  replace (row <=? 0)%Z with true by (symmetry; apply Z.leb_le; lia).
  cbn [curRow setTable]. split.
  - intros H.
    replace (0 <? curRow st)%Z with false
      by (symmetry; apply Z.ltb_ge; lia).
    reflexivity.
  - intros r Hpos Hr.
    replace (0 <? curRow st)%Z with true by (symmetry; apply Z.ltb_lt; lia).
    unfold selectionChangedRow. cbn [values setCurRow setTable].
    rewrite Hr. simpl.
    destruct (String.eqb_spec (curKey st) (key r)) as [E|E];
      eexists; (split; [reflexivity|]); simpl; auto.
Qed.

Lemma tableSelect_header_witness :
  Select "b" tableAB = Ok tableABSelected /\
  exists st' : SortedTable,
    tableSelect 0 0 tableABSelected = Ok st' /\
    selectedRow (table st') = 2%Z /\ GetSelection st' = Ok "b".
Proof.
  split; [reflexivity|].
  destruct (proj2 (tableSelect_header 0 0 tableABSelected (Z.le_refl 0))
              (rowOf "b" 1 "1")) as [st' [Ht [Hsel [Hrow [Hv _]]]]].
  - reflexivity.
  - reflexivity.
  - exists st'. split; [exact Ht|]. split; [exact Hsel|].
    unfold GetSelection. rewrite Hrow, Hv. reflexivity.
Defined.

End Notification.

(* ================================================================== *)
(** ** Edge cases of the redraw and of the comparator *)

Section RedrawEdges.

Import Widget.





(** X19. The guard of the comparator is off by one.  For two rows with
    data of [n] fields each: a sort column beyond [n] makes every
    comparison false in both directions; the sort column [n] itself, one
    past the last field, passes the guard and the comparison panics in
    [reflect], as it does for a negative sort column. *)
Theorem lessRow_column_bounds (column : Z) (reverse : bool)
  (row1 row2 : tableRow) (d1 d2 : RowData) :
  data row1 = Some d1 -> data row2 = Some d2 ->
  List.length (fields d1) = List.length (fields d2) ->
  ((Z.of_nat (List.length (fields d1)) < column)%Z ->
   lessRow column reverse row1 row2 = Ok false) /\
  (column = Z.of_nat (List.length (fields d1)) \/ (column < 0)%Z ->
   lessRow column reverse row1 row2
   = Panic "reflect: Field index out of range").
Proof.
  intros H1 H2 Hlen. unfold lessRow. rewrite H1, H2.
  apply Nat.eqb_eq in Hlen. rewrite Hlen. simpl negb. simpl orb.
  split.
  - intros H. apply Z.ltb_lt in H. now rewrite H.
  - intros H.
    replace (Z.of_nat (List.length (fields d1)) <? column)%Z with false
      by (symmetry; apply Z.ltb_ge; lia).
    unfold structField.
    destruct (Z.ltb_spec column 0) as [Hneg|Hpos]; [reflexivity|].
    replace (nth_error (fields d1) (Z.to_nat column)) with (@None Field);
      [reflexivity|].
    symmetry. apply nth_error_None. lia.
Qed.

Lemma lessRow_column_bounds_witness :
  lessRow 3 false (rowOf "a" 1 "1") (rowOf "b" 2 "2") = Ok false /\
  lessRow 2 false (rowOf "a" 1 "1") (rowOf "b" 2 "2")
  = Panic "reflect: Field index out of range".
Proof.
  split.
  - apply (lessRow_column_bounds 3 false (rowOf "a" 1 "1")
             (rowOf "b" 2 "2") _ _ eq_refl eq_refl eq_refl).
    simpl. lia.
  - apply (lessRow_column_bounds 2 false (rowOf "a" 1 "1")
             (rowOf "b" 2 "2") _ _ eq_refl eq_refl eq_refl).
    left. reflexivity.
Defined.

End RedrawEdges.

(* ================================================================== *)
(** ** The sort of a slice of at most twenty elements *)

(** Up to the block size of [stable] the sort is one insertion sort. *)
Section SmallSort.

Context {A : Type}.
Variable less : A -> A -> result bool.
Variable lt : A -> A -> bool.
Variable P : A -> Prop.
Hypothesis less_lt : forall x y : A, P x -> P y -> less x y = Ok (lt x y).

Lemma set_nth_app (l m : list A) (i : nat) (z : A) :
  set_nth (List.length l + i) z (l ++ m) = l ++ set_nth i z m.
Proof.
  induction l as [|h l IH]; simpl; [reflexivity|now rewrite IH].
Qed.

Lemma nth_error_app_len (l m : list A) (i : nat) :
  nth_error (l ++ m) (List.length l + i) = nth_error m i.
Proof.
  rewrite nth_error_app2 by lia. f_equal. lia.
Qed.

Lemma insertBack_In (x z : A) (r : list A) :
  In z (insertBack lt x r) <-> z = x \/ In z r.
Proof.
  induction r as [|y r IH]; simpl.
  - intuition.
  - destruct (lt x y); simpl; rewrite ?IH; intuition.
Qed.

Lemma insertBack_length (x : A) (r : list A) :
  List.length (insertBack lt x r) = S (List.length r).
Proof.
  induction r as [|y r IH]; simpl; [reflexivity|].
  destruct (lt x y); simpl; now rewrite ?IH.
Qed.

Lemma insertBack_Forall (Q : A -> Prop) (x : A) (r : list A) :
  Q x -> Forall Q r -> Forall Q (insertBack lt x r).
Proof.
  intros Hx Hr. apply Forall_forall. intros z Hz.
  apply insertBack_In in Hz as [->|Hz]; [exact Hx|].
  rewrite Forall_forall in Hr. auto.
Qed.

Lemma insertDown_insertBack (l : list A) (x : A) (post : list A) :
  P x -> Forall P l ->
  insertDown less 0 (List.length l) (l ++ x :: post)
  = Ok (rev (insertBack lt x (rev l)) ++ post).
Proof.
  intros Hx. revert post.
  induction l as [|y l IH] using rev_ind; intros post Hl.
  - reflexivity.
  - apply Forall_app in Hl as [Hl Hy]. inversion Hy as [|? ? Py _]; subst.
    rewrite length_app, Nat.add_comm. cbn [List.length Nat.add].
    change (insertDown less 0 (S (List.length l)) ((l ++ [y]) ++ x :: post))
      with (if S (List.length l) <=? 0 then Ok ((l ++ [y]) ++ x :: post)
            else b <- Less less ((l ++ [y]) ++ x :: post)
                        (S (List.length l)) (List.length l) ;;
                 if b : bool
                 then d <- Swap ((l ++ [y]) ++ x :: post)
                             (S (List.length l)) (List.length l) ;;
                      insertDown less 0 (List.length l) d
                 else Ok ((l ++ [y]) ++ x :: post)).
    cbn [Nat.leb]. rewrite <- app_assoc. cbn [app].
    assert (E1 : nth_error (l ++ y :: x :: post) (S (List.length l))
                 = Some x).
    { replace (S (List.length l)) with (List.length l + 1) by lia.
      now rewrite nth_error_app_len. }
    assert (E0 : nth_error (l ++ y :: x :: post) (List.length l) = Some y).
    { pose proof (nth_error_app_len l (y :: x :: post) 0) as E.
      now rewrite Nat.add_0_r in E. }
    unfold Less, Swap. rewrite E1, E0, (less_lt x y Hx Py). cbn [bind].
    rewrite rev_app_distr. cbn [rev app insertBack].
    destruct (lt x y).
    + cbn [bind].
      replace (set_nth (List.length l) x
                 (set_nth (S (List.length l)) y (l ++ y :: x :: post)))
        with (l ++ x :: y :: post).
      * rewrite (IH (y :: post) Hl). cbn [rev]. now rewrite <- app_assoc.
      * replace (S (List.length l)) with (List.length l + 1) by lia.
        rewrite set_nth_app. cbn [set_nth].
        pose proof (set_nth_app l (y :: y :: post) 0 x) as E.
        rewrite Nat.add_0_r in E. now rewrite E.
    + cbn [rev]. rewrite rev_involutive, <- !app_assoc. reflexivity.
Qed.

Lemma insertionSort_loop_insertBack (rest acc : list A) :
  Forall P acc -> Forall P rest ->
  insertionSort_loop less (List.length rest) (List.length acc) 0
    (rev acc ++ rest)
  = Ok (rev (fold_left (fun a x => insertBack lt x a) rest acc)).
Proof.
  revert acc. induction rest as [|x rest IH]; intros acc Hacc Hrest.
  - simpl. now rewrite app_nil_r.
  - inversion Hrest as [|? ? Hx Hrest']; subst. cbn [List.length fold_left].
    cbn [insertionSort_loop].
    replace (List.length acc) with (List.length (rev acc))
      by apply length_rev.
    rewrite insertDown_insertBack; [|exact Hx|now apply Forall_rev].
    cbn [bind]. rewrite rev_involutive, length_rev.
    rewrite <- (insertBack_length x acc).
    apply IH; [|exact Hrest'].
    now apply insertBack_Forall.
Qed.

Lemma insertionSort_insertAll (d : list A) :
  Forall P d ->
  insertionSort less 0 (List.length d) d = Ok (insertAll lt d).
Proof.
  intros Hd. unfold insertionSort, insertAll.
  destruct d as [|x d]; [reflexivity|].
  inversion Hd as [|? ? Hx Hd']; subst.
  cbn [List.length fold_left insertBack]. rewrite Nat.add_comm.
  cbn [Nat.add Nat.sub]. rewrite Nat.sub_0_r.
  apply (insertionSort_loop_insertBack d [x]); auto.
Qed.

(** On at most twenty elements [stable] is the insertion sort. *)
Lemma stable_small (d : list A) :
  List.length d <= 20 -> Forall P d ->
  stable less d = Ok (insertAll lt d).
Proof.
  intros Hlen Hd. unfold stable. cbv zeta.
  destruct (Nat.eq_dec (List.length d) 20) as [E|E].
  - rewrite insertBlocks_eq, E. cbn [Nat.leb].
    rewrite <- E at 1. rewrite (insertionSort_insertAll d Hd). cbn [bind].
    rewrite insertBlocks_eq. cbn [Nat.add Nat.leb bind].
    unfold insertionSort. cbn [Nat.add Nat.sub insertionSort_loop bind].
    now rewrite mergeRounds_eq.
  - rewrite insertBlocks_eq.
    replace (20 <=? List.length d) with false
      by (symmetry; apply Nat.leb_gt; lia).
    cbn [bind]. rewrite (insertionSort_insertAll d Hd). cbn [bind].
    rewrite mergeRounds_eq.
    replace (20 <? List.length d) with false
      by (symmetry; apply Nat.ltb_ge; lia).
    reflexivity.
Qed.

End SmallSort.

(** Insertion sort by an integer key, in both directions. *)
Section KeyedSort.

Context {A : Type}.
Variable key : A -> Z.

Lemma StronglySorted_snoc (R : A -> A -> Prop) (l : list A) (a : A) :
  StronglySorted R l -> Forall (fun x => R x a) l ->
  StronglySorted R (l ++ [a]).
Proof.
  induction 1 as [|b l Hl IH Hb]; intros Ha; simpl.
  - repeat constructor.
  - inversion Ha as [|? ? Hba Ha']; subst. constructor; [auto|].
    apply Forall_app. split; [exact Hb|]. now constructor.
Qed.

Lemma StronglySorted_rev (R : A -> A -> Prop) (l : list A) :
  StronglySorted R l -> StronglySorted (fun a b => R b a) (rev l).
Proof.
  induction 1 as [|a l Hl IH Ha]; simpl; [constructor|].
  apply StronglySorted_snoc; [exact IH|]. now apply Forall_rev.
Qed.

Lemma insertBack_Permutation (lt : A -> A -> bool) (x : A) (r : list A) :
  Permutation (x :: r) (insertBack lt x r).
Proof.
  induction r as [|y r IH]; simpl; [reflexivity|].
  destruct (lt x y); [|reflexivity].
  rewrite perm_swap. now apply perm_skip.
Qed.

Lemma insertAll_Permutation (lt : A -> A -> bool) (d : list A) :
  Permutation d (insertAll lt d).
Proof.
  unfold insertAll. rewrite <- Permutation_rev.
  assert (H : forall acc,
             Permutation (acc ++ d)
               (fold_left (fun a x => insertBack lt x a) d acc)).
  { induction d as [|x d IH]; intros acc; simpl.
    - now rewrite app_nil_r.
    - rewrite <- IH, <- insertBack_Permutation. simpl.
      symmetry. apply Permutation_middle. }
  apply (H []).
Qed.

Lemma insertBack_forward_sorted (x : A) (r : list A) :
  StronglySorted (fun a b => (key b <= key a)%Z) r ->
  StronglySorted (fun a b => (key b <= key a)%Z)
    (insertBack (ltForward key) x r).
Proof.
  induction 1 as [|y r Hr IH Hy]; simpl; [repeat constructor|].
  unfold ltForward at 1. destruct (Z.ltb_spec (key x) (key y)) as [H|H].
  - constructor; [exact IH|].
    apply insertBack_Forall; [lia|exact Hy].
  - constructor; [now constructor|].
    constructor; [exact H|].
    eapply Forall_impl; [|exact Hy]. simpl. intros z Hz. lia.
Qed.

Lemma insertBack_forward_filter (v : Z) (x : A) (r : list A) :
  filter (hasKey key v) (rev (insertBack (ltForward key) x r))
  = filter (hasKey key v) (rev r) ++ filter (hasKey key v) [x].
Proof.
  induction r as [|y r IH]; simpl; [reflexivity|].
  unfold ltForward at 1. destruct (Z.ltb_spec (key x) (key y)) as [H|H].
  - simpl. rewrite !filter_app, IH, <- !app_assoc. f_equal.
    simpl. unfold hasKey.
    destruct (Z.eqb_spec (key x) v), (Z.eqb_spec (key y) v);
      try reflexivity. lia.
  - simpl. now rewrite !filter_app, <- !app_assoc.
Qed.

Lemma insertBack_reverse_sorted (x : A) (r : list A) :
  StronglySorted (fun a b => (key a <= key b)%Z) r ->
  StronglySorted (fun a b => (key a <= key b)%Z)
    (insertBack (ltReverse key) x r).
Proof.
  induction 1 as [|y r Hr IH Hy]; simpl; [repeat constructor|].
  unfold ltReverse at 1. destruct (Z.ltb_spec (key x) (key y)) as [H|H];
    simpl.
  - constructor; [now constructor|].
    constructor; [lia|].
    eapply Forall_impl; [|exact Hy]. simpl. intros z Hz. lia.
  - constructor; [exact IH|].
    apply insertBack_Forall; [lia|exact Hy].
Qed.

Lemma filter_none (f : A -> bool) (l : list A) :
  (forall z, In z l -> f z = false) -> filter f l = [].
Proof.
  induction l as [|y l IH]; intros H; simpl; [reflexivity|].
  rewrite (H y) by (simpl; auto). apply IH. intros z Hz. apply H.
  simpl. auto.
Qed.

Lemma insertBack_reverse_filter (v : Z) (x : A) (r : list A) :
  StronglySorted (fun a b => (key a <= key b)%Z) r ->
  filter (hasKey key v) (rev (insertBack (ltReverse key) x r))
  = filter (hasKey key v) [x] ++ filter (hasKey key v) (rev r).
Proof.
  induction 1 as [|y r Hr IH Hy]; simpl.
  - now rewrite app_nil_r.
  - unfold ltReverse at 1. destruct (Z.ltb_spec (key x) (key y)) as [H|H];
      simpl.
    + rewrite !filter_app. simpl. unfold hasKey at 3 4.
      destruct (Z.eqb_spec (key x) v) as [E|E]; simpl.
      * replace (filter (hasKey key v) (rev r)) with (@nil A).
        -- destruct (hasKey key v y) eqn:Ey; [|reflexivity].
           unfold hasKey in Ey. apply Z.eqb_eq in Ey. lia.
        -- symmetry. rewrite filter_rev.
           replace (filter (hasKey key v) r) with (@nil A); [reflexivity|].
           symmetry. apply filter_none. intros z Hz.
           rewrite Forall_forall in Hy. specialize (Hy z Hz).
           unfold hasKey. apply Z.eqb_neq. lia.
      * now rewrite app_nil_r.
    + rewrite !filter_app, IH, <- !app_assoc. reflexivity.
Qed.

Lemma insertAll_forward (d : list A) :
  StronglySorted (fun a b => (key a <= key b)%Z)
    (insertAll (ltForward key) d) /\
  forall v : Z,
    filter (hasKey key v) (insertAll (ltForward key) d)
    = filter (hasKey key v) d.
Proof.
  unfold insertAll.
  assert (H : forall acc,
             StronglySorted (fun a b => (key b <= key a)%Z) acc ->
             StronglySorted (fun a b => (key b <= key a)%Z)
               (fold_left (fun a x => insertBack (ltForward key) x a) d acc) /\
             forall v,
               filter (hasKey key v)
                 (rev (fold_left
                         (fun a x => insertBack (ltForward key) x a) d acc))
               = filter (hasKey key v) (rev acc) ++ filter (hasKey key v) d).
  { induction d as [|x d IH]; intros acc Hacc; simpl.
    - split; [exact Hacc|]. intros v. now rewrite app_nil_r.
    - destruct (IH _ (insertBack_forward_sorted x acc Hacc)) as [H1 H2].
      split; [exact H1|]. intros v.
      rewrite H2, insertBack_forward_filter, <- app_assoc. f_equal.
      simpl. now destruct (hasKey key v x). }
  destruct (H [] (SSorted_nil _)) as [H1 H2]. split.
  - apply (StronglySorted_rev _ _ H1).
  - intros v. now rewrite H2.
Qed.

Lemma insertAll_reverse (d : list A) :
  StronglySorted (fun a b => (key b <= key a)%Z)
    (insertAll (ltReverse key) d) /\
  forall v : Z,
    filter (hasKey key v) (insertAll (ltReverse key) d)
    = rev (filter (hasKey key v) d).
Proof.
  unfold insertAll.
  assert (H : forall acc,
             StronglySorted (fun a b => (key a <= key b)%Z) acc ->
             StronglySorted (fun a b => (key a <= key b)%Z)
               (fold_left (fun a x => insertBack (ltReverse key) x a) d acc) /\
             forall v,
               filter (hasKey key v)
                 (rev (fold_left
                         (fun a x => insertBack (ltReverse key) x a) d acc))
               = rev (filter (hasKey key v) d)
                 ++ filter (hasKey key v) (rev acc)).
  { induction d as [|x d IH]; intros acc Hacc; simpl.
    - split; [exact Hacc|]. reflexivity.
    - destruct (IH _ (insertBack_reverse_sorted x acc Hacc)) as [H1 H2].
      split; [exact H1|]. intros v.
      rewrite H2, (insertBack_reverse_filter v x acc Hacc), app_assoc.
      f_equal. simpl.
      destruct (hasKey key v x); simpl; [|now rewrite app_nil_r].
      reflexivity. }
  destruct (H [] (SSorted_nil _)) as [H1 H2]. split.
  - apply (StronglySorted_rev _ _ H1).
  - intros v. rewrite H2. simpl. now rewrite app_nil_r.
Qed.

End KeyedSort.

(** Insertion sort with elements that every comparison puts last. *)
Section MissingLast.

Context {A : Type}.
Variable lt : A -> A -> bool.
Variable present : A -> bool.
Hypothesis lt_missing : forall x m : A, present m = false -> lt x m = true.
Hypothesis missing_lt :
  forall m p : A, present m = false -> present p = true -> lt m p = false.



End MissingLast.

(* ================================================================== *)
(** ** The order of a sorted table of at most twenty rows *)

Section SmallTables.

Import Widget.

Lemma lessRow_intRows (col : Z) (n : nat) (reverse : bool)
  (r1 r2 : tableRow) :
  numFields r1 = n /\ intColumn col r1 <> None ->
  numFields r2 = n /\ intColumn col r2 <> None ->
  lessRow col reverse r1 r2
  = Ok (xorb (intKey col r1 <? intKey col r2)%Z reverse).
Proof.
  unfold numFields, intKey, intColumn, lessRow. intros [Hn1 Hc1] [Hn2 Hc2].
  destruct (data r1) as [d1|]; [|congruence].
  destruct (data r2) as [d2|]; [|congruence].
  rewrite Hn1, Hn2, Nat.eqb_refl. simpl negb. simpl orb.
  destruct (structField (fields d1) col) as [f1| |] eqn:E1; try congruence.
  destruct (structField (fields d2) col) as [f2| |] eqn:E2; try congruence.
  assert (Hcol : (Z.of_nat n <? col)%Z = false).
  { apply Z.ltb_ge. unfold structField in E1.
    destruct (col <? 0)%Z eqn:E0; [discriminate|]. apply Z.ltb_ge in E0.
    destruct (nth_error (fields d1) (Z.to_nat col)) eqn:E; [|discriminate].
    assert (Z.to_nat col < List.length (fields d1))
      by (apply nth_error_Some; congruence).
    lia. }
  rewrite Hcol. simpl.
  destruct f1; try congruence. destruct f2; try congruence. reflexivity.
Qed.

(** X20. Sorted forward by a signed integer column, a table of at most
    twenty rows, each with the same number of fields, comes out in
    ascending order of that column, and rows with the same value keep the
    order they had: the sort is stable in this direction. *)
Theorem sortData_small_forward (st : SortedTable) (n : nat) :
  List.length (values st) <= 20 ->
  sortReverse st = false ->
  intRows (sortColumn st) n (values st) ->
  exists st' : SortedTable,
    sortData st = Ok st' /\
    Permutation (values st) (values st') /\
    StronglySorted
      (fun r1 r2 => (intKey (sortColumn st) r1 <= intKey (sortColumn st) r2)%Z)
      (values st') /\
    forall v : Z,
      filter (hasKey (intKey (sortColumn st)) v) (values st')
      = filter (hasKey (intKey (sortColumn st)) v) (values st).
Proof.
  intros Hlen Hrev Hrows. unfold sortData, intRows in *.
  rewrite (stable_small (lessRow (sortColumn st) (sortReverse st))
             (ltForward (intKey (sortColumn st)))
             (fun r => numFields r = n /\ intColumn (sortColumn st) r <> None)).
  - simpl. eexists. split; [reflexivity|]. simpl.
    split; [apply insertAll_Permutation|]. apply insertAll_forward.
  - intros x y Hx Hy. rewrite (lessRow_intRows _ n _ x y Hx Hy), Hrev.
    now rewrite xorb_false_r.
  - exact Hlen.
  - exact Hrows.
Qed.

(** X21. Sorted in reverse by a signed integer column, a table of at most
    twenty rows, each with the same number of fields, comes out in
    descending order of that column, and rows with the same value come
    out in the reverse of the order they had: every such sort turns the
    ties around. *)
Theorem sortData_small_reverse (st : SortedTable) (n : nat) :
  List.length (values st) <= 20 ->
  sortReverse st = true ->
  intRows (sortColumn st) n (values st) ->
  exists st' : SortedTable,
    sortData st = Ok st' /\
    Permutation (values st) (values st') /\
    StronglySorted
      (fun r1 r2 => (intKey (sortColumn st) r2 <= intKey (sortColumn st) r1)%Z)
      (values st') /\
    forall v : Z,
      filter (hasKey (intKey (sortColumn st)) v) (values st')
      = rev (filter (hasKey (intKey (sortColumn st)) v) (values st)).
Proof.
  intros Hlen Hrev Hrows. unfold sortData, intRows in *.
  rewrite (stable_small (lessRow (sortColumn st) (sortReverse st))
             (ltReverse (intKey (sortColumn st)))
             (fun r => numFields r = n /\ intColumn (sortColumn st) r <> None)).
  - simpl. eexists. split; [reflexivity|]. simpl.
    split; [apply insertAll_Permutation|]. apply insertAll_reverse.
  - intros x y Hx Hy. rewrite (lessRow_intRows _ n _ x y Hx Hy), Hrev.
    now rewrite xorb_true_r.
  - exact Hlen.
  - exact Hrows.
Qed.


Lemma sortData_small_forward_witness :
  exists st' : SortedTable,
    sortData tableCountsForward = Ok st' /\ Keys st' = ["b"; "a"; "c"].
Proof.
  destruct (sortData_small_forward tableCountsForward 2)
    as [st' [Hs _]].
  - simpl. lia.
  - reflexivity.
  - repeat constructor; discriminate.
  - exists st'. split; [exact Hs|].
    assert (E : Ok st' = sortData tableCountsForward)
      by (symmetry; exact Hs).
    vm_compute in E. injection E as ->. reflexivity.
Defined.

Lemma sortData_small_reverse_witness :
  exists st' : SortedTable,
    sortData tableCountsReverse = Ok st' /\ Keys st' = ["c"; "a"; "b"].
Proof.
  destruct (sortData_small_reverse tableCountsReverse 2)
    as [st' [Hs _]].
  - simpl. lia.
  - reflexivity.
  - repeat constructor; discriminate.
  - exists st'. split; [exact Hs|].
    assert (E : Ok st' = sortData tableCountsReverse)
      by (symmetry; exact Hs).
    vm_compute in E. injection E as ->. reflexivity.
Defined.


End SmallTables.

(* ================================================================== *)
(** ** The cells of the table view *)

Section Cells.

Import Widget.

Lemma padTo_length {A : Type} (n : nat) (x : A) (l : list A) :
  List.length (padTo n x l) = Nat.max n (List.length l).
Proof.
  unfold padTo. rewrite length_app, repeat_length. lia.
Qed.

Lemma padTo_nth_error {A : Type} (n : nat) (x : A) (l : list A) (i : nat)
  (y : A) :
  nth_error l i = Some y -> nth_error (padTo n x l) i = Some y.
Proof.
  intros H. unfold padTo. rewrite nth_error_app1; [exact H|].
  apply nth_error_Some. congruence.
Qed.

Lemma cellAt_SetCell_same (row col : nat) (cell : TableCell) (t : Table) :
  cellAt row col (SetCell row col cell t) = Some cell.
Proof.
  unfold cellAt, SetCell. cbn [cells].
  rewrite nth_error_set_nth_eq by (rewrite padTo_length; lia).
  apply nth_error_set_nth_eq. rewrite padTo_length. lia.
Qed.

Lemma cellAt_SetCell_other (row col row' col' : nat) (cell y : TableCell)
  (t : Table) :
  row <> row' \/ col <> col' ->
  cellAt row col t = Some y ->
  cellAt row col (SetCell row' col' cell t) = Some y.
Proof.
  unfold cellAt, SetCell. cbn [cells]. intros Hne H.
  destruct (nth_error (cells t) row) as [r|] eqn:Er; [|discriminate].
  destruct (Nat.eq_dec row row') as [<-|Hrow].
  - rewrite nth_error_set_nth_eq by (rewrite padTo_length; lia).
    rewrite nth_error_set_nth_neq by (destruct Hne; congruence).
    apply padTo_nth_error.
    rewrite (nth_error_nth _ _ _ (padTo_nth_error (S row) [] _ _ _ Er)).
    exact H.
  - rewrite nth_error_set_nth_neq by congruence.
    now rewrite (padTo_nth_error (S row') [] _ _ _ Er).
Qed.

Lemma cellAt_updateCell (row col row' col' : nat)
  (f : TableCell -> TableCell) (t : Table) :
  cellAt row col (updateCell row' col' f t)
  = if (row =? row') && (col =? col')
    then option_map f (cellAt row col t) else cellAt row col t.
Proof.
  unfold cellAt, updateCell.
  destruct (nth_error (cells t) row') as [r'|] eqn:Er'.
  - destruct (nth_error r' col') as [c'|] eqn:Ec'.
    + cbn [cells].
      destruct (Nat.eqb_spec row row') as [->|Hrow]; cbn [andb].
      * rewrite Er'.
        rewrite nth_error_set_nth_eq
          by (apply nth_error_Some; congruence).
        destruct (Nat.eqb_spec col col') as [->|Hcol].
        -- rewrite Ec'. apply nth_error_set_nth_eq.
           apply nth_error_Some. congruence.
        -- now rewrite nth_error_set_nth_neq by congruence.
      * now rewrite nth_error_set_nth_neq by congruence.
    + destruct (Nat.eqb_spec row row') as [->|Hrow]; cbn [andb];
        [|reflexivity].
      destruct (Nat.eqb_spec col col') as [->|Hcol]; [|reflexivity].
      now rewrite Er', Ec'.
  - destruct (Nat.eqb_spec row row') as [->|Hrow]; cbn [andb];
      [|reflexivity].
    destruct (Nat.eqb_spec col col') as [->|Hcol]; [|reflexivity].
    now rewrite Er'.
Qed.

(** Cells set one after the other at other positions leave a cell as it
    is. *)
Lemma cellAt_fold_SetCell {B : Type} (row col : nat) (y : TableCell)
  (pos : B -> nat * nat) (cell : B -> TableCell) (l : list B) (t : Table) :
  Forall (fun b => fst (pos b) <> row \/ snd (pos b) <> col) l ->
  cellAt row col t = Some y ->
  cellAt row col
    (fold_left (fun t b => SetCell (fst (pos b)) (snd (pos b)) (cell b) t)
       l t) = Some y.
Proof.
  intros H. revert t. induction H as [|b l Hb _ IH]; intros t Ht; simpl.
  - exact Ht.
  - apply IH. apply cellAt_SetCell_other; [|exact Ht].
    destruct Hb; [left|right]; congruence.
Qed.

Lemma fold_SetCell_last {B : Type} (row c : nat) (x : B)
  (mk : nat * B -> TableCell) (l : list (nat * B)) (t : Table) :
  NoDup (map fst l) -> In (c, x) l ->
  cellAt row c
    (fold_left (fun t b => SetCell row (fst b) (mk b) t) l t)
  = Some (mk (c, x)).
Proof.
  revert t. induction l as [|b l IH]; intros t Hnd Hin; [easy|].
  simpl in Hnd. inversion Hnd as [|? ? Hb Hnd']; subst. simpl.
  destruct Hin as [->|Hin].
  - apply (cellAt_fold_SetCell row c (mk (c, x)) (fun b => (row, fst b)) mk).
    + apply Forall_forall. intros b' Hb'. right. simpl. intros E.
      apply Hb. simpl. rewrite <- E. exact (in_map fst l b' Hb').
    + apply cellAt_SetCell_same.
  - now apply IH.
Qed.

Lemma combine_seq_fst {B : Type} (s : nat) (l : list B) :
  map fst (combine (seq s (List.length l)) l) = seq s (List.length l).
Proof.
  revert s. induction l as [|h l IH]; intros s; simpl; [reflexivity|].
  now rewrite IH.
Qed.

Lemma combine_seq_In {B : Type} (s c : nat) (h : B) (l : list B) :
  nth_error l c = Some h -> In (s + c, h) (combine (seq s (List.length l)) l).
Proof.
  revert s c. induction l as [|x l IH]; intros s [|c] H; simpl in *;
    try discriminate.
  - injection H as ->. rewrite Nat.add_0_r. auto.
  - right. replace (s + S c) with (S s + c) by lia. now apply IH.
Qed.

Lemma fold_updateCell_other_row (row r c : nat)
  (f : nat -> TableCell -> TableCell) (l : list nat) (t : Table) :
  r <> row ->
  cellAt r c (fold_left (fun t c' => updateCell row c' (f c') t) l t)
  = cellAt r c t.
Proof.
  intros Hr. revert t. induction l as [|c' l IH]; intros t; simpl;
    [reflexivity|].
  rewrite IH, cellAt_updateCell.
  apply Nat.eqb_neq in Hr. now rewrite Hr.
Qed.

Lemma fold_updateCell_other_column (row c : nat)
  (f : nat -> TableCell -> TableCell) (l : list nat) (t : Table) :
  ~ In c l ->
  cellAt row c (fold_left (fun t c' => updateCell row c' (f c') t) l t)
  = cellAt row c t.
Proof.
  revert t. induction l as [|c' l IH]; intros t Hc; simpl; [reflexivity|].
  simpl in Hc. rewrite IH by tauto. rewrite cellAt_updateCell.
  replace (c =? c') with false
    by (symmetry; apply Nat.eqb_neq; intros E; apply Hc; auto).
  now rewrite andb_false_r.
Qed.

Lemma fold_updateCell_column (row c : nat)
  (f : nat -> TableCell -> TableCell) (l : list nat) (t : Table) :
  NoDup l -> In c l ->
  cellAt row c (fold_left (fun t c' => updateCell row c' (f c') t) l t)
  = option_map (f c) (cellAt row c t).
Proof.
  revert t. induction l as [|c' l IH]; intros t Hnd Hin; [easy|].
  inversion Hnd as [|? ? Hc' Hnd']; subst. simpl.
  destruct Hin as [->|Hin].
  - rewrite fold_updateCell_other_column by exact Hc'.
    now rewrite cellAt_updateCell, !Nat.eqb_refl.
  - rewrite IH by assumption. rewrite cellAt_updateCell.
    replace (c =? c') with false
      by (symmetry; apply Nat.eqb_neq; intros ->; contradiction).
    now rewrite andb_false_r.
Qed.

(** X23. After [setHeaders] the header row shows the headers: the cell of
    column [c] holds header [c], cannot be selected and sorts by column
    [c] when clicked.  A header cell that the table had beyond the new
    headers is blank and no longer sorts when clicked. *)
Theorem setHeaders_cells (headers : list string) (st : SortedTable)
  (c : nat) :
  (forall h : string,
      nth_error headers c = Some h ->
      cellAt 0 c (table (setHeaders headers st))
      = Some (mkCell h AlignLeft ColorWhite true (Some (Z.of_nat c)))) /\
  (forall cell : TableCell,
      List.length headers <= c < GetColumnCount (table st) ->
      cellAt 0 c (table st) = Some cell ->
      cellAt 0 c (table (setHeaders headers st))
      = Some (mkCell "" (Align cell) (TextColor cell) (NotSelectable cell)
                None)).
Proof.
  unfold setHeaders. cbn [table setTable]. split.
  - intros h Hh.
    apply (fold_SetCell_last 0 c h
             (fun ch => mkCell (snd ch) AlignLeft ColorWhite true
                          (Some (Z.of_nat (fst ch))))).
    + rewrite combine_seq_fst. apply seq_NoDup.
    + apply (combine_seq_In 0 c h headers Hh).
  - intros cell Hc Hcell.
    apply (cellAt_fold_SetCell 0 c _ (fun ch => (0, fst ch))
             (fun ch => mkCell (snd ch) AlignLeft ColorWhite true
                          (Some (Z.of_nat (fst ch))))).
    + apply Forall_forall. intros [c' h] Hin. right. simpl.
      apply in_combine_l in Hin. apply in_seq in Hin. lia.
    + rewrite (fold_updateCell_column 0 c
                 (fun _ c0 => mkCell "" (Align c0) (TextColor c0)
                                (NotSelectable c0) None)).
      * now rewrite Hcell.
      * apply seq_NoDup.
      * apply in_seq. lia.
Qed.

Lemma setHeaders_cells_witness :
  cellAt 0 1 (table (setHeaders ["Name"; "Count"] NewSortedTable))
  = Some (mkCell "Count" AlignLeft ColorWhite true (Some 1%Z)) /\
  cellAt 0 1 (table (setHeaders ["Plot"] emptyTable))
  = Some (mkCell "" AlignLeft ColorWhite true None).
Proof.
  split.
  - apply (setHeaders_cells ["Name"; "Count"] NewSortedTable 1).
    reflexivity.
  - apply (proj2 (setHeaders_cells ["Plot"] emptyTable 1)
             (mkCell "Count" AlignLeft ColorWhite true (Some 1%Z))).
    + simpl. unfold GetColumnCount. simpl. lia.
    + reflexivity.
Defined.

(** A cell that is updated where it stands leaves the shape of the table,
    its column count and its selection as they are. *)
Lemma set_nth_same {B : Type} (i : nat) (x : B) (l : list B) :
  nth_error l i = Some x -> set_nth i x l = l.
Proof.
  revert i. induction l as [|h l IH]; intros [|i] H; simpl in *;
    try discriminate.
  - now injection H as ->.
  - now rewrite IH.
Qed.

Lemma map_set_nth {B C : Type} (g : B -> C) (i : nat) (x : B)
  (l : list B) :
  map g (set_nth i x l) = set_nth i (g x) (map g l).
Proof.
  revert i. induction l as [|h l IH]; intros [|i]; simpl; try reflexivity.
  now rewrite IH.
Qed.

Lemma updateCell_frame (row col : nat) (f : TableCell -> TableCell)
  (t : Table) :
  map (@List.length TableCell) (cells (updateCell row col f t))
  = map (@List.length TableCell) (cells t) /\
  lastColumn (updateCell row col f t) = lastColumn t /\
  selectedRow (updateCell row col f t) = selectedRow t /\
  selectedColumn (updateCell row col f t) = selectedColumn t.
Proof.
  unfold updateCell.
  destruct (nth_error (cells t) row) as [r|] eqn:Er; [|auto].
  destruct (nth_error r col) as [c|] eqn:Ec; [|auto].
  cbn [cells lastColumn selectedRow selectedColumn].
  split; [|auto].
  rewrite map_set_nth, set_nth_length. apply set_nth_same.
  now rewrite nth_error_map, Er.
Qed.

Lemma fold_updateCell_frame (row : nat)
  (f : nat -> TableCell -> TableCell) (l : list nat) (t : Table) :
  let t' := fold_left (fun t c => updateCell row c (f c) t) l t in
  map (@List.length TableCell) (cells t')
  = map (@List.length TableCell) (cells t) /\
  lastColumn t' = lastColumn t /\
  selectedRow t' = selectedRow t /\
  selectedColumn t' = selectedColumn t.
Proof.
  revert t. induction l as [|c l IH]; intros t; simpl; [auto|].
  destruct (IH (updateCell row c (f c) t)) as [H1 [H2 [H3 H4]]].
  destruct (updateCell_frame row c (f c) t) as [G1 [G2 [G3 G4]]].
  simpl in H1, H2, H3, H4.
  rewrite H1, H2, H3, H4. auto.
Qed.

(** X24. [redrawHeaders] colours the header row and nothing else: the
    header of the sort column becomes green when the direction is forward
    and red when it is reverse, the other headers up to the column count
    become yellow, and every other cell stays as it is.  The table view
    keeps its rows with their lengths, its column count and its selected
    row and column, and the table keeps everything outside the view. *)
Theorem redrawHeaders_colours (st : SortedTable) :
  (forall r c : nat,
      cellAt r c (table (redrawHeaders st))
      = (if (r =? 0) && (c <? GetColumnCount (table st))
         then option_map
                (SetTextColor
                   (if (Z.of_nat c =? sortColumn st)%Z
                    then if sortReverse st then ColorRed else ColorGreen
                    else ColorYellow))
                (cellAt r c (table st))
         else cellAt r c (table st))) /\
  map (@List.length TableCell) (cells (table (redrawHeaders st)))
  = map (@List.length TableCell) (cells (table st)) /\
  lastColumn (table (redrawHeaders st)) = lastColumn (table st) /\
  selectedRow (table (redrawHeaders st)) = selectedRow (table st) /\
  selectedColumn (table (redrawHeaders st)) = selectedColumn (table st) /\
  setTable (table st) (redrawHeaders st) = st.
Proof.
  split.
  - intros r c. unfold redrawHeaders. cbn [table setTable].
    destruct (Nat.eqb_spec r 0) as [->|Hr]; cbn [andb].
    + destruct (Nat.ltb_spec c (GetColumnCount (table st))) as [Hc|Hc].
      * rewrite (fold_updateCell_column 0 c
                   (fun c' => SetTextColor (headerColor st c'))).
        -- unfold headerColor. now destruct (sortReverse st).
        -- apply seq_NoDup.
        -- apply in_seq. lia.
      * apply (fold_updateCell_other_column 0 c
                 (fun c' => SetTextColor (headerColor st c'))).
        rewrite in_seq. lia.
    + now apply (fold_updateCell_other_row 0 r c
                   (fun c' => SetTextColor (headerColor st c'))).
  - destruct (fold_updateCell_frame 0
                (fun c' => SetTextColor (headerColor st c'))
                (seq 0 (GetColumnCount (table st))) (table st))
      as [H1 [H2 [H3 H4]]].
    unfold redrawHeaders. cbn [table setTable].
    repeat split; try assumption. now destruct st.
Qed.

End Cells.

(* ================================================================== *)
(** ** What updateData draws *)

Section Rendering.

Import Widget.

















End Rendering.

(* ================================================================== *)
(** ** Setting a table up from a struct type *)

Section Setup.

Import Widget.

Lemma alignOfTag_cases (t : string) :
  (In t alignNames /\
   alignOfTag t
   = Ok (if String.eqb t "left" then AlignLeft
         else if String.eqb t "center" then AlignCenter else AlignRight))
  \/ (~ In t alignNames /\ alignOfTag t = Panic "unexpected align").
Proof.
  unfold alignOfTag, alignNames.
  destruct (String.eqb_spec t "left") as [->|Hl]; [left; simpl; auto|].
  destruct (String.eqb_spec t "center") as [->|Hc]; [left; simpl; auto|].
  destruct (String.eqb_spec t "right") as [->|Hr]; [left; simpl; auto|].
  right. split; [|reflexivity]. simpl. intuition congruence.
Qed.

Lemma lookupAlign_SetColumnAlign (i k : nat) (a : Z) (st : SortedTable) :
  lookupAlign k (columnAlign (SetColumnAlign (Z.of_nat i) a st))
  = if i =? k then Some a else lookupAlign k (columnAlign st).
Proof.
  unfold SetColumnAlign.
  replace (Z.of_nat i <? 0)%Z with false by (symmetry; apply Z.ltb_ge; lia).
  cbn [columnAlign lookupAlign]. now rewrite Nat2Z.id.
Qed.

Lemma tags_dec (fs : list FieldTags) :
  Forall (fun f => forall t : string,
              alignTag f = Some t -> In t alignNames) fs
  \/ Exists (fun f => exists t : string,
                 alignTag f = Some t /\ ~ In t alignNames) fs.
Proof.
  induction fs as [|f fs [IH|IH]].
  - left. constructor.
  - destruct (alignTag f) as [t|] eqn:E.
    + destruct (alignOfTag_cases t) as [[Hin _]|[Hout _]].
      * left. constructor; [|exact IH]. intros t' Ht'. congruence.
      * right. apply Exists_cons_hd. eauto.
    + left. constructor; [|exact IH]. intros t' Ht'. congruence.
  - right. now apply Exists_cons_tl.
Qed.

Lemma setupFields_ok (fs : list FieldTags) (i : nat) (hs : list string)
  (st : SortedTable) :
  Forall (fun f => forall t : string,
              alignTag f = Some t -> In t alignNames) fs ->
  exists st' : SortedTable,
    setupFields i fs hs st = Ok (hs ++ headersOf fs, st') /\
    table st' = table st /\
    (forall k : nat,
        k < i \/ i + List.length fs <= k ->
        lookupAlign k (columnAlign st') = lookupAlign k (columnAlign st)) /\
    (forall (j : nat) (f : FieldTags),
        nth_error fs j = Some f ->
        lookupAlign (i + j) (columnAlign st')
        = match alignTag f with
          | Some t =>
              Some (if String.eqb t "left" then AlignLeft
                    else if String.eqb t "center" then AlignCenter
                    else AlignRight)
          | None => lookupAlign (i + j) (columnAlign st)
          end).
Proof.
  intros H. revert i hs st.
  induction H as [|f fs Hf _ IH]; intros i hs st.
  - exists st. simpl. rewrite app_nil_r.
    repeat split; try reflexivity. intros [|j] f Hj; discriminate.
  - cbn [setupFields].
    set (hs1 := match headerTag f with
                | Some t => hs ++ [t]
                | None => hs
                end).
    assert (Ehs : hs ++ headersOf (f :: fs) = hs1 ++ headersOf fs).
    { unfold hs1, headersOf. cbn [flat_map].
      destruct (headerTag f); [now rewrite <- app_assoc|reflexivity]. }
    rewrite Ehs.
    destruct (alignTag f) as [t|] eqn:Et.
    + destruct (alignOfTag_cases t) as [[_ Ea]|[Hout _]];
        [|now specialize (Hf t eq_refl)].
      rewrite Ea. cbn [bind].
      set (a := if String.eqb t "left" then AlignLeft
                else if String.eqb t "center" then AlignCenter
                else AlignRight) in *.
      destruct (IH (S i) hs1 (SetColumnAlign (Z.of_nat i) a st))
        as [st' [E [Ht [Hout Hin]]]].
      exists st'. split; [exact E|]. split.
      { rewrite Ht. unfold SetColumnAlign.
        now destruct (Z.of_nat i <? 0)%Z. }
      split.
      * intros k Hk. simpl in Hk.
        rewrite Hout by lia. rewrite lookupAlign_SetColumnAlign.
        now replace (i =? k) with false
          by (symmetry; apply Nat.eqb_neq; lia).
      * intros [|j] f' Hj; simpl in Hj.
        -- injection Hj as <-. rewrite Et, Nat.add_0_r.
           rewrite Hout by lia. rewrite lookupAlign_SetColumnAlign.
           now rewrite Nat.eqb_refl.
        -- replace (i + S j) with (S i + j) by lia.
           rewrite (Hin j f' Hj). destruct (alignTag f'); [reflexivity|].
           rewrite lookupAlign_SetColumnAlign.
           now replace (i =? S i + j) with false
             by (symmetry; apply Nat.eqb_neq; lia).
    + cbn [bind].
      destruct (IH (S i) hs1 st) as [st' [E [Ht [Hout Hin]]]].
      exists st'. split; [exact E|]. split; [exact Ht|]. split.
      * intros k Hk. simpl in Hk. apply Hout. lia.
      * intros [|j] f' Hj; simpl in Hj.
        -- injection Hj as <-. rewrite Et, Nat.add_0_r. apply Hout. lia.
        -- replace (i + S j) with (S i + j) by lia. exact (Hin j f' Hj).
Qed.

Lemma setupFields_panics (fs : list FieldTags) (i : nat) (hs : list string)
  (st : SortedTable) :
  Exists (fun f => exists t : string,
              alignTag f = Some t /\ ~ In t alignNames) fs ->
  setupFields i fs hs st = Panic "unexpected align".
Proof.
  revert i hs st. induction fs as [|f fs IH]; intros i hs st H.
  - inversion H.
  - cbn [setupFields].
    destruct (alignTag f) as [t|] eqn:Et.
    + destruct (alignOfTag_cases t) as [[Hin Ea]|[Hout Ea]]; rewrite Ea;
        [|reflexivity].
      cbn [bind]. apply IH.
      inversion H as [? ? [t' [Et' Hout']]|]; subst; [|assumption].
      congruence.
    + cbn [bind]. apply IH.
      inversion H as [? ? [t' [Et' Hout']]|]; subst; [|assumption].
      congruence.
Qed.

Lemma setHeaders_header (headers : list string) (st : SortedTable)
  (c : nat) (h : string) :
  nth_error headers c = Some h ->
  cellAt 0 c (table (setHeaders headers st))
  = Some (mkCell h AlignLeft ColorWhite true (Some (Z.of_nat c))).
Proof.
  intros Hh. unfold setHeaders. cbn [table setTable].
  apply (fold_SetCell_last 0 c h
           (fun ch => mkCell (snd ch) AlignLeft ColorWhite true
                        (Some (Z.of_nat (fst ch))))).
  - rewrite combine_seq_fst. apply seq_NoDup.
  - apply (combine_seq_In 0 c h headers Hh).
Qed.

(** X26. [SetupFromType] on a struct type whose [data-align] tags are all
    left, center or right returns, and afterwards the header row shows the
    [header] tags of the fields in the order of declaration, header [c] in
    column [c], which sorts by column [c] when clicked, while the
    alignment of a field's tag is stored under the index of the field
    among all fields, with or without a header; a field without the tag
    leaves the alignment stored under its index as it was. *)
Theorem SetupFromType_columns (fs : list FieldTags) (st : SortedTable) :
  Forall (fun f => forall t : string,
              alignTag f = Some t -> In t alignNames) fs ->
  exists st' : SortedTable,
    SetupFromType fs st = Ok st' /\
    (forall (c : nat) (h : string),
        nth_error (headersOf fs) c = Some h ->
        cellAt 0 c (table st')
        = Some (mkCell h AlignLeft ColorWhite true (Some (Z.of_nat c)))) /\
    (forall (i : nat) (f : FieldTags),
        nth_error fs i = Some f ->
        lookupAlign i (columnAlign st')
        = match alignTag f with
          | Some t =>
              Some (if String.eqb t "left" then AlignLeft
                    else if String.eqb t "center" then AlignCenter
                    else AlignRight)
          | None => lookupAlign i (columnAlign st)
          end).
Proof.
  intros H. unfold SetupFromType.
  destruct (setupFields_ok fs 0 [] st H) as [st1 [E [_ [_ Hin]]]].
  rewrite E. cbn [bind fst snd app]. eexists. split; [reflexivity|]. split.
  - intros c h Hh. now apply setHeaders_header.
  - intros i f Hi. exact (Hin i f Hi).
Qed.

Lemma SetupFromType_columns_witness :
  exists st' : SortedTable,
    SetupFromType countFields NewSortedTable = Ok st' /\
    cellAt 0 0 (table st')
    = Some (mkCell "Count" AlignLeft ColorWhite true (Some 0%Z)) /\
    lookupAlign 0 (columnAlign st') = None /\
    lookupAlign 1 (columnAlign st') = Some AlignRight.
Proof.
  assert (H : Forall (fun f => forall t : string,
                          alignTag f = Some t -> In t alignNames)
                countFields).
  { apply Forall_cons; [|apply Forall_cons; [|apply Forall_nil]];
      simpl; intros t E; [discriminate|].
    injection E as <-. simpl. auto. }
  destruct (SetupFromType_columns countFields NewSortedTable H)
    as [st' [E [Hh Ha]]].
  exists st'. split; [exact E|]. split; [|split].
  - exact (Hh 0 "Count" eq_refl).
  - exact (Ha 0 (mkFieldTags None None) eq_refl).
  - exact (Ha 1 (mkFieldTags (Some "Count") (Some "right")) eq_refl).
Defined.

(** X27. [SetupFromType] panics with "unexpected align" exactly when some
    field of the struct type has a [data-align] tag that is not left,
    center or right, whatever the other tags are. *)
Theorem SetupFromType_unexpected_align (fs : list FieldTags)
  (st : SortedTable) :
  SetupFromType fs st = Panic "unexpected align"
  <-> Exists (fun f => exists t : string,
                  alignTag f = Some t /\ ~ In t alignNames) fs.
Proof.
  unfold SetupFromType. split.
  - intros H. destruct (tags_dec fs) as [Hok|Hbad]; [|exact Hbad].
    destruct (setupFields_ok fs 0 [] st Hok) as [st1 [E _]].
    rewrite E in H. discriminate.
  - intros H. now rewrite setupFields_panics.
Qed.

Lemma SetupFromType_unexpected_align_witness :
  SetupFromType misspeltFields NewSortedTable = Panic "unexpected align".
Proof.
  apply (proj2 (SetupFromType_unexpected_align misspeltFields
                  NewSortedTable)).
  apply Exists_cons_tl, Exists_cons_hd. exists "centre". split.
  - reflexivity.
  - simpl. intuition discriminate.
Defined.

End Setup.

(* ================================================================== *)
(** ** The view after a redraw *)

Section View.

Import Widget.




Lemma updateData_columnAlign (st st' : SortedTable) :
  updateData st = Ok st' -> columnAlign st' = columnAlign st.
Proof.
  unfold updateData. intros H. bind_inv H. now injection H as <-.
Qed.




End View.
